(** * MidgardMap: graph model, router and trip simulator

    A shallow embedding of the core of the repository
    ([createGraph.py], [graph_editor.py], [map_graph_builder.py],
    [travel_gui.py]) and the proofs of its specified properties.

    Conventions of the embedding:
    - a Python [dict] with string keys is a [gmap string _]; insertion
      order is not kept (no property below depends on it);
    - a Python [float] is a rational [Q]: arithmetic is exact, there is
      no NaN and no infinity; [float("inf")] as a default of [dict.get]
      is the [None] case of the lookup;
    - a raised exception is the [Raise] case of [res]; a loop that the
      source writes with [while] takes a fuel argument and answers
      [None] when it runs out;
    - the functions of Python's library that the code calls on strings
      and floats (the parser of float literals, the formatting of
      floats and values in f-strings, [str.strip], [math.hypot]) are
      parameters of the definitions that use them. *)

From Stdlib Require Import QArith Qminmax Qabs Lqa Lia.
From stdpp Require Import gmap strings list sorting pretty.

Set Warnings "-register-all".

(** ** Python values and exceptions *)

(** The JSON-compatible values held in attribute bags ([Dict[str, Any]]). *)
Inductive value : Type :=
  | VNull
  | VBool (b : bool)
  | VNum (q : Q)
  | VStr (s : string)
  | VList (l : list value).

Abbreviation bag := (gmap string value).

(** The adjacency view: the routes [(neighbor, attrs)] of each node. *)
Abbreviation adjacency_t := (gmap string (list (string * bag))).

(** The exceptions the core raises.  The first three are raised by
    Python itself; the others are the [ValueError]/[RuntimeError]
    raised by an explicit [raise] of the source, one constructor per
    raise site. *)
Inductive exn : Type :=
  | TypeError          (* arithmetic or float() on a non-number, unhashable key *)
  | FloatParseError    (* ValueError of float() on a str that is no literal *)
  | KeyError           (* d[k] with k missing *)
  | MissingEndpoint    (* ValueError "Add nodes first before linking them" *)
  | MalformedEdge      (* ValueError "Edge missing node identifiers",
                          "Edge missing endpoints" *)
  | UnknownNode        (* ValueError "Start and destination must exist in graph nodes." *)
  | AlreadyTraveling   (* RuntimeError "Already traveling along a route." *)
  | SameLocation       (* ValueError "Already at that location." *)
  | NoSuchRoute        (* ValueError "No route from .. to .." *)
  | NoActiveLeg        (* RuntimeError "No active route. Start a leg first." *)
  | NonPositiveHours   (* ValueError "Hours traveled must be positive." *)
  | Unmodelled.        (* no exception: the input is outside the annotated
                          types (a node identifier that is not a str) *)

Inductive res (A : Type) : Type :=
  | Ok (a : A)
  | Raise (e : exn).
Arguments Ok {A} a.
Arguments Raise {A} e.

#[global] Instance res_bind : MBind res := λ A B f m,
  match m with
  | Ok a => f a
  | Raise e => Raise e
  end.

(** [for x in l: st = f st x], stopping at the first exception. *)
Fixpoint res_fold {A B} (f : A → B → res A) (st : A) (l : list B) : res A :=
  match l with
  | [] => Ok st
  | x :: l' => st' ← f st x ; res_fold f st' l'
  end.

Definition Qltb (x y : Q) : bool := negb (Qle_bool y x).

(** [k in d] for a dict [d]. *)
Definition contains {A} (d : gmap string A) (k : string) : bool :=
  match d !! k with
  | Some _ => true
  | None => false
  end.

(** [not s] for [s : str | None]. *)
Definition falsy (s : option string) : bool :=
  match s with
  | None => true
  | Some s => String.eqb s ""
  end.

(** [tuple(sorted((a, b)))]: the sort is stable, so the pair is swapped
    only when [b < a]. *)
Definition sorted_pair (a b : string) : string * string :=
  if String.ltb b a then (b, a) else (a, b).

(** [sorted] on strings and on pairs of strings. *)
Definition str_le (a b : string) : Prop := String.leb a b.

Definition pair_le (x y : string * string) : Prop :=
  String.ltb x.1 y.1 ∨ (x.1 = y.1 ∧ String.leb x.2 y.2).

#[global] Instance str_le_dec : RelDecision str_le.
Proof. intros a b. unfold str_le. apply _. Defined.

#[global] Instance pair_le_dec : RelDecision pair_le.
Proof. intros a b. unfold pair_le. apply _. Defined.

(** The persisted graph document, as the writers build it and the
    loaders read it: the value of ["nodes"] and the value of ["edges"]. *)
Record document : Type := {
  doc_nodes : list bag;
  doc_edges : list bag
}.

(** The endpoints of a document edge, as [Graph.from_dict] and
    [prepare_graph] read them: the pair under ["nodes"], else the fields
    ["source"] and ["target"], else [MalformedEdge].  [len] of a string
    counts its characters, and a string of two characters unpacks into
    them; [len] of another value that is no list is a [TypeError]. *)
Definition endpoints (edge : bag) : res (value * value) :=
  let by_fields :=
    match edge !! "source", edge !! "target" with
    | Some a, Some b => Ok (a, b)
    | _, _ => Raise MalformedEdge
    end in
  match edge !! "nodes" with
  | Some (VList [a; b]) => Ok (a, b)
  | Some (VList _) => by_fields
  | Some (VStr (String a (String b EmptyString))) =>
      Ok (VStr (String a EmptyString), VStr (String b EmptyString))
  | Some (VStr _) => by_fields
  | Some (VNull | VBool _ | VNum _) => Raise TypeError
  | None => by_fields
  end.

(** ** createGraph.py *)

Module Graph.

Record t : Type := {
  nodes : gmap string bag;
  edges : gmap (string * string) bag
}.

(** [Graph.__init__] *)
Definition empty : t := {| nodes := ∅; edges := ∅ |}.

(** [{**a, **b}] and [a.update(b)]: the keys of [b] win. *)
Definition merged (a b : bag) : bag := b ∪ a.

(** A call [f(.., **attrs)] raises [TypeError] when a key of [attrs]
    is the name of a parameter that already has its argument. *)
Definition collides (params : list string) (attrs : bag) : bool :=
  existsb (contains attrs) params.

Definition add_node (self : t) (node_id : string) (attrs : bag) : res t :=
  if collides ["self"; "node_id"] attrs then Raise TypeError
  else
    let payload := merged {[ "id" := VStr node_id ]} attrs in
    match nodes self !! node_id with
    | Some old => Ok {| nodes := <[node_id := merged old payload]> (nodes self);
                        edges := edges self |}
    | None => Ok {| nodes := <[node_id := payload]> (nodes self);
                    edges := edges self |}
    end.

Definition add_edge (self : t) (source target : string) (attrs : bag) : res t :=
  if collides ["self"; "source"; "target"] attrs then Raise TypeError
  else if negb (contains (nodes self) source) || negb (contains (nodes self) target)
  then Raise MissingEndpoint
  else
    let key := sorted_pair source target in
    let edge_payload :=
      merged {[ "nodes" := VList [VStr key.1; VStr key.2];
                "undirected" := VBool true ]} attrs in
    match edges self !! key with
    | Some old => Ok {| nodes := nodes self;
                        edges := <[key := merged old edge_payload]> (edges self) |}
    | None => Ok {| nodes := nodes self;
                    edges := <[key := edge_payload]> (edges self) |}
    end.

Definition to_dict (self : t) : document :=
  {| doc_nodes :=
       omap (λ k, nodes self !! k) (merge_sort str_le (map_to_list (nodes self)).*1);
     doc_edges :=
       omap (λ k, edges self !! k) (merge_sort pair_le (map_to_list (edges self)).*1) |}.

(** [graph.add_edge(a, b, **attrs)] where [a] and [b] come from a
    document: a hashable value that is no string is in no node
    collection, a list cannot be looked up. *)
Definition add_edge_values (self : t) (a b : value) (attrs : bag) : res t :=
  if collides ["self"; "source"; "target"] attrs then Raise TypeError
  else
    match a, b with
    | VStr a, VStr b => add_edge self a b attrs
    | VList _, _ | _, VList _ => Raise TypeError
    | _, _ => Raise MissingEndpoint
    end.

Definition from_dict_node (graph : t) (node : bag) : res t :=
  match node !! "id" with
  | None => Raise KeyError
  | Some (VStr node_id) => add_node graph node_id (delete "id" node)
  | Some (VList _) => Raise TypeError
  | Some (VNull | VBool _ | VNum _) =>
      if collides ["self"; "node_id"] (delete "id" node) then Raise TypeError
      else Raise Unmodelled
  end.

Definition from_dict_edge (graph : t) (edge : bag) : res t :=
  '(a, b) ← endpoints edge;
  let attrs := delete "target" (delete "source" (delete "nodes" edge)) in
  add_edge_values graph a b attrs.

Definition from_dict (data : document) : res t :=
  graph ← res_fold from_dict_node empty (doc_nodes data);
  res_fold from_dict_edge graph (doc_edges data).

End Graph.

(** ** graph_editor.py *)

Module GraphData.

Record t : Type := {
  nodes : gmap string bag;
  edges : list bag   (* each edge has "nodes": [a, b] and attrs *)
}.

Definition empty : t := {| nodes := ∅; edges := [] |}.

(** [node_id == v] *)
Definition is_str (node_id : string) (v : value) : bool :=
  match v with
  | VStr s => String.eqb node_id s
  | _ => false
  end.

(** [sub in s] for two strings: [sub] is a substring of [s]. *)
Fixpoint substring_of (sub s : string) : bool :=
  String.prefix sub s ||
  match s with
  | EmptyString => false
  | String _ s' => substring_of sub s'
  end.

(** [node_id in e.get("nodes", [])]: membership in a list, the
    substring test on a string, a [TypeError] on a value that is not
    iterable. *)
Definition references (node_id : string) (e : bag) : res bool :=
  match e !! "nodes" with
  | None => Ok false
  | Some (VList l) => Ok (existsb (is_str node_id) l)
  | Some (VStr s) => Ok (substring_of node_id s)
  | Some (VNull | VBool _ | VNum _) => Raise TypeError
  end.

(** [[x for x in l if not f(x)]], stopping at the first exception. *)
Fixpoint reject {A} (f : A → res bool) (l : list A) : res (list A) :=
  match l with
  | [] => Ok []
  | x :: l' =>
      b ← f x;
      kept ← reject f l';
      Ok (if b : bool then kept else x :: kept)
  end.

Definition ensure_node (self : t) (node_id : string) : t :=
  match nodes self !! node_id with
  | Some _ => self
  | None => {| nodes := <[node_id := ∅]> (nodes self); edges := edges self |}
  end.

Definition add_node (self : t) (node_id : string) (attrs : bag) : t :=
  {| nodes := <[node_id := attrs]> (nodes self); edges := edges self |}.

(** [remove_node]: the graph after the call, and whether the call
    returned.  The node is deleted before the edges are looked at, and
    [self.edges] is assigned only when every edge has been tested. *)
Definition remove_node (self : t) (node_id : string) : t * res unit :=
  let nodes' := delete node_id (nodes self) in
  match reject (references node_id) (edges self) with
  | Ok edges' => ({| nodes := nodes'; edges := edges' |}, Ok ())
  | Raise e => ({| nodes := nodes'; edges := edges self |}, Raise e)
  end.

Definition is_string (v : value) : bool :=
  match v with VStr _ => true | _ => false end.

Definition is_number (v : value) : bool :=
  match v with VNum _ | VBool _ => true | _ => false end.

Definition is_list (v : value) : bool :=
  match v with VList _ => true | _ => false end.

Definition pair_eqb (k key : string * string) : bool :=
  String.eqb k.1 key.1 && String.eqb k.2 key.2.

(** [tuple(sorted(e.get("nodes", []))) == key], for a key of two
    strings.  [sorted] of a string sorts its characters.  [sorted] of a
    list of fewer than two values compares nothing; of a longer list it
    compares every value with another one: strings compare with strings
    and numbers with numbers, [None] compares with nothing, nor do
    values of two kinds ([TypeError]); whether the lists of a list of
    lists compare depends on their own values, which is not modelled.
    Only a tuple of two strings equals the key. *)
Definition has_key (key : string * string) (e : bag) : res bool :=
  match e !! "nodes" with
  | None => Ok false
  | Some (VNull | VBool _ | VNum _) => Raise TypeError
  | Some (VStr s) =>
      match s with
      | String c1 (String c2 EmptyString) =>
          Ok (pair_eqb (sorted_pair (String c1 EmptyString) (String c2 EmptyString))
                       key)
      | _ => Ok false
      end
  | Some (VList l) =>
      match l with
      | [] | [_] => Ok false
      | _ =>
          if forallb is_string l
          then Ok match l with
                  | [VStr a; VStr b] => pair_eqb (sorted_pair a b) key
                  | _ => false
                  end
          else if forallb is_number l then Ok false
          else if forallb is_list l then Raise Unmodelled
          else Raise TypeError
      end
  end.

(** [for idx, x in enumerate(l): if f(x): return idx], else [None]. *)
Fixpoint find_index {A} (f : A → res bool) (l : list A) : res (option nat) :=
  match l with
  | [] => Ok None
  | x :: l' =>
      b ← f x;
      if b : bool then Ok (Some O)
      else idx ← find_index f l'; Ok (S <$> (idx : option nat))
  end.

Definition find_edge_index (self : t) (a b : string) : res (option nat) :=
  find_index (has_key (sorted_pair a b)) (edges self).

(** [upsert_edge]: nothing is stored when [find_edge_index] raises. *)
Definition upsert_edge (self : t) (a b : string) (attrs : bag) : res t :=
  let key := sorted_pair a b in
  let edge := Graph.merged {[ "nodes" := VList [VStr key.1; VStr key.2] ]} attrs in
  existing_idx ← find_edge_index self a b;
  match existing_idx with
  | Some existing_idx =>
      Ok {| nodes := nodes self; edges := <[existing_idx := edge]> (edges self) |}
  | None => Ok {| nodes := nodes self; edges := edges self ++ [edge] |}
  end.

(** [remove_edge]: [self.edges] is assigned only when every edge has
    been tested. *)
Definition remove_edge (self : t) (a b : string) : res t :=
  edges' ← reject (has_key (sorted_pair a b)) (edges self);
  Ok {| nodes := nodes self; edges := edges' |}.

End GraphData.

(** ** map_graph_builder.py *)

Module GraphState.

Record Node : Type := { node_id : string; x : Q; y : Q }.

Record Edge : Type := { a : string; b : string; pixel_distance : Q; distance : Q }.

Record t : Type := {
  nodes : gmap string Node;
  edges : gmap (string * string) Edge;
  scale : Q
}.

Definition add_node (self : t) (node_id : string) (x y : Q) : t :=
  {| nodes := <[node_id := {| node_id := node_id; x := x; y := y |}]> (nodes self);
     edges := edges self; scale := scale self |}.

(** [node_id in k] for a key [k] of [edges]. *)
Definition in_key (node_id : string) (k : string * string) : bool :=
  String.eqb node_id k.1 || String.eqb node_id k.2.

Definition remove_node (self : t) (node_id : string) : t :=
  let to_delete :=
    List.filter (in_key node_id) (map_to_list (edges self)).*1 in
  {| nodes := delete node_id (nodes self);
     edges := foldl (λ edges k, delete k edges) (edges self) to_delete;
     scale := scale self |}.

End GraphState.

(** ** travel_gui.py *)

Module Travel.

Definition SPEEDS_KMH : gmap string Q :=
  list_to_map
    [("foot", 45 # 10); ("horse", 7 # 1); ("wagon", 5 # 1);
     ("pack_lizard", 6 # 1); ("barge", 6 # 1); ("river_boat", 9 # 1);
     ("row", 55 # 10); ("sail", 12 # 1); ("knarr", 10 # 1)]%Q.

Definition ROUTE_DIFFICULTY : gmap string Q :=
  list_to_map
    [("road", 1); ("trail", 85 # 100); ("mountain_pass", 7 # 10);
     ("shore", 1); ("sea", 1)]%Q.

Definition speed_for_mode (mode : string) : Q :=
  default (45 # 10)%Q (SPEEDS_KMH !! mode).

(** A number as an operand of [+] or [*] next to a float. *)
Definition py_num (v : value) : res Q :=
  match v with
  | VNum q => Ok q
  | VBool b => Ok (if b then 1 else 0)%Q
  | VNull | VStr _ | VList _ => Raise TypeError
  end.

Section WithFloatParser.

(** Python's parser of float literals, [float(s)] for a [str]; [None]
    when it raises [ValueError].  It is not part of the repository. *)
Variable float_of_str : string → option Q.

(** [float(v)]. *)
Definition py_float (v : value) : res Q :=
  match v with
  | VNum q => Ok q
  | VBool b => Ok (if b then 1 else 0)%Q
  | VStr s =>
      match float_of_str s with
      | Some q => Ok q
      | None => Raise FloatParseError
      end
  | VNull | VList _ => Raise TypeError
  end.

Definition difficulty_for_edge (attrs : bag) : res Q :=
  match attrs !! "difficulty_factor" with
  | Some v => py_float v
  | None =>
      match attrs !! "difficulty_modifier" with
      | Some v => py_float v
      | None =>
          match attrs !! "route_type" with
          | Some (VStr route_type) => Ok (default 1%Q (ROUTE_DIFFICULTY !! route_type))
          | Some (VList _) => Raise TypeError
          | Some (VNull | VBool _ | VNum _) | None => Ok 1%Q
          end
      end
  end.

(** [attrs.get("approx_distance_km", 0.0)] *)
Definition approx_distance_km (attrs : bag) : value :=
  default (VNum 0) (attrs !! "approx_distance_km").

(** [bool(v)] *)
Definition truthy (v : value) : bool :=
  match v with
  | VNull => false
  | VBool b => b
  | VNum q => negb (Qeq_bool q 0)
  | VStr s => negb (String.eqb s "")
  | VList l => match l with [] => false | _ :: _ => true end
  end.

(** [a or b] *)
Definition py_or (a b : value) : value := if truthy a then a else b.

(** [adjacency[a].append(route)] on a [defaultdict(list)]. *)
Definition append_route (a : string) (route : string * bag)
    (adjacency : adjacency_t) : adjacency_t :=
  <[a := default [] (adjacency !! a) ++ [route]]> adjacency.

(** One round of [{n["id"]: n for n in data.get("nodes", [])}]. *)
Definition prepare_node (nodes : gmap string bag) (n : bag) : res (gmap string bag) :=
  match n !! "id" with
  | None => Raise KeyError
  | Some (VStr node_id) => Ok (<[node_id := n]> nodes)
  | Some (VList _) => Raise TypeError
  | Some (VNull | VBool _ | VNum _) => Raise Unmodelled
  end.

(** The body of [for raw_edge in data.get("edges", [])]. *)
Definition prepare_edge (adjacency : adjacency_t) (raw_edge : bag) : res adjacency_t :=
  '(a, b) ← endpoints raw_edge;
  let edge_attrs := delete "target" (delete "source" (delete "nodes" raw_edge)) in
  let distance :=
    py_or (py_or (default VNull (edge_attrs !! "approx_distance_km"))
                 (default VNull (edge_attrs !! "distance_km")))
          (VNum 0) in
  d ← py_float distance;
  let edge_attrs := <["approx_distance_km" := VNum d]> edge_attrs in
  match a, b with
  | VStr a, VStr b =>
      Ok (append_route b (a, edge_attrs) (append_route a (b, edge_attrs) adjacency))
  | VList _, _ | _, VList _ => Raise TypeError
  | _, _ => Raise Unmodelled
  end.

Definition prepare_graph (data : document) : res (gmap string bag * adjacency_t) :=
  nodes ← res_fold prepare_node ∅ (doc_nodes data);
  adjacency ← res_fold prepare_edge ∅ (doc_edges data);
  Ok (nodes, adjacency).

(** *** The router *)

(** An entry of the priority queue, the tuple [(cost, node)]. *)
Definition entry : Type := Q * string.

(** Tuple comparison [x < y]. *)
Definition entry_ltb (x y : entry) : bool :=
  match (x.1 ?= y.1)%Q with
  | Lt => true
  | Gt => false
  | Eq => String.ltb x.2 y.2
  end.

(** [heapq] keeps the queue as a binary heap; what [heappop] returns is
    the least tuple, and the tuples left are the others.  The model
    keeps the tuples in a list and takes the least one out. *)
Fixpoint heap_min (x : entry) (h : list entry) : entry * list entry :=
  match h with
  | [] => (x, [])
  | y :: h' =>
      if entry_ltb y x
      then let '(m, r) := heap_min y h' in (m, x :: r)
      else let '(m, r) := heap_min x h' in (m, y :: r)
  end.

Definition heappop (h : list entry) : option (entry * list entry) :=
  match h with
  | [] => None
  | x :: h' => Some (heap_min x h')
  end.

Definition heappush (h : list entry) (e : entry) : list entry := e :: h.

Record search : Type := Search {
  dist : gmap string Q;
  prev : gmap string string;
  heap : list entry
}.

(** [new_cost < dist.get(neigh, float("inf"))] *)
Definition improves (new_cost : Q) (old : option Q) : bool :=
  match old with
  | Some d => Qltb new_cost d
  | None => true
  end.

(** [cost > dist.get(node, float("inf"))] *)
Definition stale (cost : Q) (old : option Q) : bool :=
  match old with
  | Some d => Qltb d cost
  | None => false
  end.

(** The body of [for neigh, attrs in adjacency.get(node, [])]. *)
Definition relax (cost : Q) (node : string) (st : search)
    (e : string * bag) : res search :=
  let '(neigh, attrs) := e in
  let base := approx_distance_km attrs in
  d ← difficulty_for_edge attrs ;
  b ← py_num base ;
  let weight := (b * d)%Q in
  let new_cost := (cost + weight)%Q in
  if improves new_cost (dist st !! neigh)
  then Ok {| dist := <[neigh := new_cost]> (dist st);
             prev := <[neigh := node]> (prev st);
             heap := heappush (heap st) (new_cost, neigh) |}
  else Ok st.

(** [while heap: ...]; [Some (Ok st)] is the state at the exit of the
    loop, by exhaustion of the queue or by [break]. *)
Fixpoint search_loop (fuel : nat) (adjacency : adjacency_t) (dest : string)
    (st : search) : option (res search) :=
  match fuel with
  | O => None
  | S fuel' =>
      match heappop (heap st) with
      | None => Some (Ok st)
      | Some ((cost, node), h') =>
          let st := {| dist := dist st; prev := prev st; heap := h' |} in
          if String.eqb node dest then Some (Ok st)
          else if stale cost (dist st !! node)
          then search_loop fuel' adjacency dest st
          else
            match res_fold (relax cost node) st (default [] (adjacency !! node)) with
            | Ok st' => search_loop fuel' adjacency dest st'
            | Raise e => Some (Raise e)
            end
      end
  end.

(** The inner loop of the reconstruction: the distance of the first
    route from [prev_node] that leads to [cur] is added, then [break]. *)
Fixpoint add_first_distance (cur : string) (total : Q)
    (routes : list (string * bag)) : res Q :=
  match routes with
  | [] => Ok total
  | (neigh, attrs) :: routes' =>
      if String.eqb neigh cur
      then b ← py_num (approx_distance_km attrs) ; Ok (total + b)%Q
      else add_first_distance cur total routes'
  end.

(** [while cur != start: ...]; returns [path] (before the final append
    and reverse) and [total_distance]. *)
Fixpoint rebuild (fuel : nat) (adjacency : adjacency_t) (prev : gmap string string)
    (start cur : string) (path : list string) (total : Q)
    : option (res (list string * Q)) :=
  if String.eqb cur start then Some (Ok (path, total))
  else
    match fuel with
    | O => None
    | S fuel' =>
        let path := path ++ [cur] in
        match prev !! cur with
        | None => Some (Raise KeyError)
        | Some prev_node =>
            match add_first_distance cur total (default [] (adjacency !! prev_node)) with
            | Raise e => Some (Raise e)
            | Ok total => rebuild fuel' adjacency prev start prev_node path total
            end
        end
    end.

Definition shortest_path (fuel : nat) (adjacency : adjacency_t)
    (start dest : option string) : option (res (list string * Q * Q)) :=
  if falsy start || falsy dest then Some (Ok ([], 0%Q, 0%Q))
  else
    match start, dest with
    | Some start, Some dest =>
        if String.eqb start dest then Some (Ok ([start], 0%Q, 0%Q))
        else
          let st := {| dist := {[ start := 0%Q ]}; prev := ∅; heap := [(0%Q, start)] |} in
          match search_loop fuel adjacency dest st with
          | None => None
          | Some (Raise e) => Some (Raise e)
          | Some (Ok st) =>
              match dist st !! dest with
              | None => Some (Ok ([], 0%Q, 0%Q))
              | Some weighted =>
                  match rebuild fuel adjacency (prev st) start dest [] 0%Q with
                  | None => None
                  | Some (Raise e) => Some (Raise e)
                  | Some (Ok (path, total_distance)) =>
                      Some (Ok (rev (path ++ [start]), total_distance, weighted))
                  end
              end
          end
    | _, _ => Some (Ok ([], 0%Q, 0%Q))
    end.

(** *** The trip simulator *)

Record ActiveLeg : Type := {
  origin : string;
  destination : string;
  attrs : bag;
  distance_km : Q;
  traveled_km : Q
}.

Definition remaining_km (leg : ActiveLeg) : Q :=
  Qmax 0 (distance_km leg - traveled_km leg).

(** Python's formatting of a float with [n] decimals, [f"{x:.nf}"], and
    of an attribute value, [f"{v}"], as the f-strings of the log use
    them.  They are not part of the repository. *)
Variable format_float : nat → Q → string.
Variable format_value : value → string.

(** The lines of the log. *)
Definition trip_begins (start destination : string) : string :=
  "Trip begins at " +:+ start +:+ ", heading to " +:+ destination.

Definition departed (current_city destination : string) (distance_km : Q)
    (route_type : value) : string :=
  "Departed " +:+ current_city +:+ " toward " +:+ destination +:+ " ("
  +:+ format_float 1 distance_km +:+ " km via " +:+ format_value route_type +:+ ")".

Definition day_entry (day : Z) (mode : string) (hours speed difficulty traveled : Q)
    : string :=
  "Day " +:+ pretty day +:+ ": " +:+ mode +:+ " for " +:+ format_float 1 hours
  +:+ "h at " +:+ format_float 1 speed +:+ " km/h (difficulty "
  +:+ format_float 2 difficulty +:+ "); covered " +:+ format_float 1 traveled
  +:+ " km".

Definition arrived (arrival_city : string) : string :=
  "Arrived at " +:+ arrival_city.

Record TravelSession : Type := {
  nodes : gmap string bag;
  adjacency : adjacency_t;
  start_city : option string;
  destination_city : option string;
  current_city : option string;
  active_leg : option ActiveLeg;
  day : Z;
  total_traveled_km : Q;
  log : list string
}.

(** [TravelSession.__init__] *)
Definition new_session (nodes : gmap string bag) (adjacency : adjacency_t)
    : TravelSession :=
  {| nodes := nodes; adjacency := adjacency;
     start_city := None; destination_city := None; current_city := None;
     active_leg := None; day := 0; total_traveled_km := 0; log := [] |}.

(** A method of the session: the session after the call, and what the
    call returned or raised. *)
Definition method (A : Type) : Type := TravelSession → TravelSession * res A.

Definition reset_trip (start destination : string) : method unit := λ self,
  if negb (contains (nodes self) start) || negb (contains (nodes self) destination)
  then (self, Raise UnknownNode)
  else
    ({| nodes := nodes self; adjacency := adjacency self;
        start_city := Some start;
        destination_city := Some destination;
        current_city := Some start;
        active_leg := None;
        day := 0;
        total_traveled_km := 0;
        log := [trip_begins start destination] |}, Ok ()).

Definition available_routes (self : TravelSession) : list (string * bag) :=
  if falsy (current_city self) then []
  else
    match current_city self with
    | Some c => default [] (adjacency self !! c)
    | None => []
    end.

(** [{neighbor: attrs for neighbor, attrs in routes}]: a later pair
    replaces an earlier one with the same key. *)
Definition dict_of_pairs (routes : list (string * bag)) : gmap string bag :=
  foldl (λ d '(neighbor, attrs), <[neighbor := attrs]> d) ∅ routes.

(** [destination == self.current_city] *)
Definition is_city (destination : string) (city : option string) : bool :=
  match city with
  | Some c => String.eqb destination c
  | None => false
  end.

Definition start_leg (destination : string) : method ActiveLeg := λ self,
  match active_leg self with
  | Some _ => (self, Raise AlreadyTraveling)
  | None =>
      if is_city destination (current_city self)
      then (self, Raise SameLocation)
      else
        let options := dict_of_pairs (available_routes self) in
        match options !! destination, current_city self with
        | None, _ => (self, Raise NoSuchRoute)
        | Some _, None => (self, Raise NoSuchRoute) (* no options without a city *)
        | Some attrs, Some current =>
            match py_float (approx_distance_km attrs) with
            | Raise e => (self, Raise e)
            | Ok distance_km =>
                let leg := {| origin := current; destination := destination;
                              attrs := attrs; distance_km := distance_km;
                              traveled_km := 0 |} in
                ({| nodes := nodes self; adjacency := adjacency self;
                    start_city := start_city self;
                    destination_city := destination_city self;
                    current_city := current_city self;
                    active_leg := Some leg;
                    day := day self;
                    total_traveled_km := total_traveled_km self;
                    log := log self ++
                      [departed current destination distance_km
                         (default (VStr "route") (attrs !! "route_type"))] |},
                 Ok leg)
            end
        end
  end.

(** [math.isclose(a, b)] with its default tolerances
    ([rel_tol = 1e-09], [abs_tol = 0.0]). *)
Definition isclose (a b : Q) : bool :=
  let rel_tol := (1 # 1000000000)%Q in
  let diff := Qabs (b - a) in
  Qeq_bool a b
  || Qle_bool diff (Qabs (rel_tol * b))
  || Qle_bool diff (Qabs (rel_tol * a))
  || Qle_bool diff 0.

(** The record [travel_day] returns. *)
Record day_result : Type := {
  r_day : Z;
  r_traveled_km : Q;
  r_remaining_leg_km : Q;
  r_at_city : option string;
  r_reached_destination : bool
}.

Definition travel_day (mode : string) (hours : Q) : method day_result := λ self,
  match active_leg self with
  | None => (self, Raise NoActiveLeg)
  | Some leg =>
      if Qle_bool hours 0 then (self, Raise NonPositiveHours)
      else
        let day' := (day self + 1)%Z in
        let speed := speed_for_mode mode in
        match difficulty_for_edge (attrs leg) with
        | Raise e =>
            ({| nodes := nodes self; adjacency := adjacency self;
                start_city := start_city self;
                destination_city := destination_city self;
                current_city := current_city self;
                active_leg := active_leg self;
                day := day';
                total_traveled_km := total_traveled_km self;
                log := log self |}, Raise e)
        | Ok difficulty =>
            let potential_km := (speed * hours * difficulty)%Q in
            let remaining := remaining_km leg in
            let traveled := Qmin potential_km remaining in
            let leg' := {| origin := origin leg; destination := destination leg;
                           attrs := attrs leg; distance_km := distance_km leg;
                           traveled_km := (traveled_km leg + traveled)%Q |} in
            let total' := (total_traveled_km self + traveled)%Q in
            let reached_destination :=
              isclose (traveled_km leg') (distance_km leg')
              || Qle_bool (distance_km leg') (traveled_km leg') in
            let log' :=
              log self ++ [day_entry day' mode hours speed difficulty traveled] in
            if reached_destination
            then
              let arrival_city := destination leg' in
              ({| nodes := nodes self; adjacency := adjacency self;
                  start_city := start_city self;
                  destination_city := destination_city self;
                  current_city := Some arrival_city;
                  active_leg := None;
                  day := day';
                  total_traveled_km := total';
                  log := log' ++ [arrived arrival_city] |},
               Ok {| r_day := day'; r_traveled_km := traveled;
                     r_remaining_leg_km := 0;
                     r_at_city := Some arrival_city;
                     r_reached_destination := true |})
            else
              ({| nodes := nodes self; adjacency := adjacency self;
                  start_city := start_city self;
                  destination_city := destination_city self;
                  current_city := current_city self;
                  active_leg := Some leg';
                  day := day';
                  total_traveled_km := total';
                  log := log' |},
               Ok {| r_day := day'; r_traveled_km := traveled;
                     r_remaining_leg_km := remaining_km leg';
                     r_at_city := current_city self;
                     r_reached_destination := false |})
        end
  end.

End WithFloatParser.

End Travel.

(** ** graph_editor.py: the file format and the forms *)

Module Editor.

(** The one-character strings of a string, [list(s)]. *)
Fixpoint chars (s : string) : list value :=
  match s with
  | EmptyString => []
  | String c s' => VStr (String c EmptyString) :: chars s'
  end.

(** [v if isinstance(v, list) else list(v)] *)
Definition py_list (v : value) : res value :=
  match v with
  | VList l => Ok (VList l)
  | VStr s => Ok (VList (chars s))
  | VNull | VBool _ | VNum _ => Raise TypeError
  end.

(** The attributes [GraphData.load] keeps of a node. *)
Definition node_attrs (n : bag) : bag :=
  let attrs := delete "id" n in
  match attrs !! "is_port" with
  | Some v => <["is_port" := VBool (Travel.truthy v)]> attrs
  | None => attrs
  end.

(** The body of [for n in data.get("nodes", [])]. *)
Definition load_node (nodes : gmap string bag) (n : bag) : res (gmap string bag) :=
  let attrs := node_attrs n in
  match n !! "id" with
  | None => Raise KeyError
  | Some (VStr node_id) => Ok (<[node_id := attrs]> nodes)
  | Some (VList _) => Raise TypeError
  | Some (VNull | VBool _ | VNum _) => Raise Unmodelled
  end.

(** [d[key] = v] on a dict, which keeps its keys in the order in which
    they were first set. *)
Fixpoint dict_set {V} (d : list ((string * string) * V)) (key : string * string)
    (v : V) : list ((string * string) * V) :=
  match d with
  | [] => [(key, v)]
  | (k, x) :: d' =>
      if String.eqb k.1 key.1 && String.eqb k.2 key.2 then (k, v) :: d'
      else (k, x) :: dict_set d' key v
  end.

(** The attributes [GraphData.load] keeps of an edge. *)
Definition edge_attrs (e : bag) : res bag :=
  let attrs := delete "target" (delete "source" (delete "nodes" e)) in
  match attrs !! "allowed_modes" with
  | Some v => modes ← py_list v; Ok (<["allowed_modes" := modes]> attrs)
  | None => Ok attrs
  end.

(** The body of [for e in data.get("edges", [])].  [sorted((a, b))]
    compares the endpoints: two strings and two numbers compare, a
    string and a number do not, nor does [None]; a list is no key. *)
Definition load_edge (edges : list ((string * string) * bag)) (e : bag)
    : res (list ((string * string) * bag)) :=
  '(a, b) ← endpoints e;
  match a, b with
  | VStr a, VStr b =>
      let key := sorted_pair a b in
      attrs ← edge_attrs e;
      Ok (dict_set edges key
            (Graph.merged {[ "nodes" := VList [VStr key.1; VStr key.2] ]} attrs))
  | (VNum _ | VBool _), (VNum _ | VBool _) =>
      attrs ← edge_attrs e; Raise Unmodelled
  | _, _ => Raise TypeError
  end.

(** [GraphData.load], from the document [json.load] returns. *)
Definition load (data : document) : res GraphData.t :=
  nodes ← res_fold load_node ∅ (doc_nodes data);
  edges ← res_fold load_edge [] (doc_edges data);
  Ok {| GraphData.nodes := nodes; GraphData.edges := edges.*2 |}.

(** [GraphData.save], up to the document given to [json.dump]. *)
Definition save (self : GraphData.t) : document :=
  {| doc_nodes :=
       omap (λ nid, (λ attrs, Graph.merged {[ "id" := VStr nid ]} attrs)
                      <$> GraphData.nodes self !! nid)
            (merge_sort str_le (map_to_list (GraphData.nodes self)).*1);
     doc_edges := GraphData.edges self |}.

(** [label.endswith(suffix)] *)
Fixpoint endswith (label suffix : string) : bool :=
  String.eqb label suffix ||
  match label with
  | EmptyString => false
  | String _ label' => endswith label' suffix
  end.

(** [GraphEditorApp._strip_port_suffix] *)
Definition strip_port_suffix (label : string) : string :=
  if endswith label " (port)"
  then String.substring 0 (String.length label - 7) label
  else label.

(** [self.graph.nodes.get(nid, {}).get("is_port")], as a condition. *)
Definition is_port (graph : GraphData.t) (nid : string) : bool :=
  match GraphData.nodes graph !! nid with
  | Some attrs => Travel.truthy (default VNull (attrs !! "is_port"))
  | None => false
  end.

(** The line of a node in the list of [refresh_lists]. *)
Definition node_label (graph : GraphData.t) (nid : string) : string :=
  nid +:+ (if is_port graph nid then " (port)" else "").

(** *** The forms *)

Definition ROUTE_TYPES : list string :=
  ["road"; "trail"; "mountain_pass"; "sea"; "shore"].

Definition ALLOWED_MODES : list string := ["foot"; "horse"; "boat"; "ship"].

(** The fields of the edge form: the text of the two node boxes and of
    the distance box, the state of the check boxes. *)
Record edge_form : Type := {
  edge_a_var : string;
  edge_b_var : string;
  edge_undirected_var : bool;
  route_type_vars : string → bool;   (* one box for each of ROUTE_TYPES *)
  distance_var : string;
  mode_vars : string → bool          (* one box for each of ALLOWED_MODES *)
}.

(** What a handler lets the user know: the title of the dialog shown,
    or the status line once the graph is changed; nothing when the user
    answered no. *)
Inductive notice : Type :=
  | ShowWarning (title : string)
  | ShowError (title : string)
  | Declined
  | SavedNode (node_id : string)
  | SavedEdge (a b : string).

Section Forms.

(** [str.strip] and the parser of float literals of Python; they are
    not part of the repository. *)
Variable strip : string → string.
Variable float_of_str : string → option Q.

(** [GraphEditorApp.save_node]: what it does to [self.graph], given the
    text of the identifier box and the state of the port box. *)
Definition save_node (node_id_var : string) (node_port_var : bool)
    (graph : GraphData.t) : GraphData.t * notice :=
  let node_id := strip node_id_var in
  if String.eqb node_id "" then (graph, ShowWarning "Missing node id")
  else
    let existing := default ∅ (GraphData.nodes graph !! node_id) in
    let attrs := <["is_port" := VBool node_port_var]> existing in
    (GraphData.add_node graph node_id attrs, SavedNode node_id).

(** The attributes of the edge found for the pair, without [nodes]. *)
Definition existing_attrs (graph : GraphData.t) (a b : string) : res bag :=
  existing_idx ← GraphData.find_edge_index graph a b;
  match existing_idx with
  | Some existing_idx =>
      Ok (delete "nodes" (default ∅ (GraphData.edges graph !! existing_idx)))
  | None => Ok ∅
  end.

(** The route types chosen: the primary one is kept under [route_type]. *)
Definition with_route_types (selected_rtypes : list string) (attrs : bag) : bag :=
  match selected_rtypes with
  | first :: _ =>
      <["route_type" := VStr first]>
        (<["route_types" := VList (VStr <$> selected_rtypes)]> attrs)
  | [] =>
      let attrs := delete "route_types" attrs in
      match attrs !! "route_type" with
      | Some _ => attrs
      | None => <["route_type" := VStr "route"]> attrs
      end
  end.

(** [float(text) if text.strip() else None]; the outer [None] is the
    [ValueError] of [float]. *)
Definition distance_val (text : string) : option (option Q) :=
  if String.eqb (strip text) "" then Some None
  else match float_of_str text with
       | Some d => Some (Some d)
       | None => None
       end.

(** [GraphEditorApp.save_edge]: the graph after the call and what the
    call shows or raises, given the fields of the form and the answer
    to the question whether missing nodes are to be created (asked only
    when one is missing). *)
Definition save_edge (form : edge_form) (create_nodes : bool)
    (graph : GraphData.t) : GraphData.t * res notice :=
  let a := strip (edge_a_var form) in
  let b := strip (edge_b_var form) in
  if String.eqb a "" || String.eqb b "" then (graph, Ok (ShowWarning "Missing nodes"))
  else if String.eqb a b then (graph, Ok (ShowWarning "Invalid edge"))
  else
    match existing_attrs graph a b with
    | Raise e => (graph, Raise e)
    | Ok attrs =>
        let attrs := <["undirected" := VBool (edge_undirected_var form)]> attrs in
        let selected_rtypes := List.filter (route_type_vars form) ROUTE_TYPES in
        let attrs := with_route_types selected_rtypes attrs in
        match distance_val (distance_var form) with
        | None => (graph, Ok (ShowError "Invalid distance"))
        | Some distance =>
            let attrs :=
              match distance with
              | Some d => <["approx_distance_km" := VNum d]> attrs
              | None => attrs
              end in
            let allowed := List.filter (mode_vars form) ALLOWED_MODES in
            let attrs := <["allowed_modes" := VList (VStr <$> allowed)]> attrs in
            let missing :=
              negb (contains (GraphData.nodes graph) a)
              || negb (contains (GraphData.nodes graph) b) in
            if missing && negb create_nodes then (graph, Ok Declined)
            else
              let graph :=
                if missing
                then GraphData.ensure_node (GraphData.ensure_node graph a) b
                else graph in
              match GraphData.upsert_edge graph a b attrs with
              | Ok graph' => (graph', Ok (SavedEdge a b))
              | Raise e => (graph, Raise e)
              end
        end
    end.

End Forms.

End Editor.

(** ** map_graph_builder.py: distances on the map *)

Module MapBuilder.

(** What [GraphState.from_json] can raise: an exception of the core, or
    the [IndexError] of a position with fewer than two coordinates. *)
Inductive raised : Type :=
  | Exn (e : exn)
  | IndexError.

Section WithHypot.

(** [math.hypot] and the parser of float literals of Python; they are
    not part of the repository. *)
Variable hypot : Q → Q → Q.
Variable float_of_str : string → option Q.

(** [GraphState.upsert_edge]: the state after the call and the edge
    returned; a missing node raises before anything is stored. *)
Definition upsert_edge (self : GraphState.t) (a b : string)
    : res (GraphState.t * GraphState.Edge) :=
  let key := sorted_pair a b in
  match GraphState.nodes self !! a with
  | None => Raise KeyError
  | Some node_a =>
      match GraphState.nodes self !! b with
      | None => Raise KeyError
      | Some node_b =>
          let pixel_d := hypot (GraphState.x node_a - GraphState.x node_b)
                               (GraphState.y node_a - GraphState.y node_b) in
          let dist := (pixel_d * GraphState.scale self)%Q in
          let edge := {| GraphState.a := key.1; GraphState.b := key.2;
                         GraphState.pixel_distance := pixel_d;
                         GraphState.distance := dist |} in
          Ok ({| GraphState.nodes := GraphState.nodes self;
                 GraphState.edges := <[key := edge]> (GraphState.edges self);
                 GraphState.scale := GraphState.scale self |}, edge)
      end
  end.

(** [GraphState.recalc_edges]: [upsert_edge] for every key the edges
    had at the start; the state reached when a call raises is not kept. *)
Definition recalc_edges (self : GraphState.t) : res GraphState.t :=
  res_fold (λ st k, '(st', _) ← upsert_edge st k.1 k.2; Ok st') self
    (map_to_list (GraphState.edges self)).*1.

(** [self.state.scale = scale] of [MapBuilderApp.apply_scale]. *)
Definition set_scale (self : GraphState.t) (scale : Q) : GraphState.t :=
  {| GraphState.nodes := GraphState.nodes self;
     GraphState.edges := GraphState.edges self;
     GraphState.scale := scale |}.

(** [del self.state.edges[edge_key]] of [MapBuilderApp.delete_at]. *)
Definition delete_edge (self : GraphState.t) (edge_key : string * string)
    : res GraphState.t :=
  match GraphState.edges self !! edge_key with
  | None => Raise KeyError
  | Some _ =>
      Ok {| GraphState.nodes := GraphState.nodes self;
            GraphState.edges := delete edge_key (GraphState.edges self);
            GraphState.scale := GraphState.scale self |}
  end.

(** [MapBuilderApp.point_to_segment_dist]; [None] is the
    [ZeroDivisionError] of [c1 / c2]. *)
Definition point_to_segment_dist (px py x1 y1 x2 y2 : Q) : option Q :=
  let vx := (x2 - x1)%Q in
  let vy := (y2 - y1)%Q in
  let wx := (px - x1)%Q in
  let wy := (py - y1)%Q in
  let c1 := (vx * wx + vy * wy)%Q in
  if Qle_bool c1 0 then Some (hypot (px - x1) (py - y1))
  else
    let c2 := (vx * vx + vy * vy)%Q in
    if Qle_bool c2 c1 then Some (hypot (px - x2) (py - y2))
    else if Qeq_bool c2 0 then None
    else
      let b := (c1 / c2)%Q in
      let bx := (x1 + b * vx)%Q in
      let by_ := (y1 + b * vy)%Q in
      Some (hypot (px - bx) (py - by_)).

(** [pos[i]] *)
Definition py_index (pos : value) (i : nat) : raised + value :=
  match pos with
  | VList l =>
      match l !! i with
      | Some v => inr v
      | None => inl IndexError
      end
  | VStr s =>
      match String.get i s with
      | Some c => inr (VStr (String c EmptyString))
      | None => inl IndexError
      end
  | VNull | VBool _ | VNum _ => inl (Exn TypeError)
  end.

(** [float(pos[i])] *)
Definition coordinate (pos : value) (i : nat) : raised + Q :=
  match py_index pos i with
  | inl r => inl r
  | inr v =>
      match Travel.py_float float_of_str v with
      | Ok q => inr q
      | Raise e => inl (Exn e)
      end
  end.

(** [node.get("pos_px") or node.get("pos") or [0, 0]] *)
Definition position (node : bag) : value :=
  Travel.py_or (Travel.py_or (default VNull (node !! "pos_px"))
               (default VNull (node !! "pos")))
        (VList [VNum 0; VNum 0]).

(** The body of [for node in data.get("nodes", [])]. *)
Definition from_json_node (gs : GraphState.t) (node : bag) : raised + GraphState.t :=
  match node !! "id" with
  | None => inl (Exn KeyError)
  | Some nid =>
      let pos := position node in
      match coordinate pos 0 with
      | inl r => inl r
      | inr x =>
          match coordinate pos 1 with
          | inl r => inl r
          | inr y =>
              match nid with
              | VStr nid => inr (GraphState.add_node gs nid x y)
              | VList _ => inl (Exn TypeError)
              | VNull | VBool _ | VNum _ => inl (Exn Unmodelled)
              end
          end
      end
  end.

(** [nodes.setdefault(a, Node(a, 0, 0))] *)
Definition setdefault_node (nodes : gmap string GraphState.Node) (a : string)
    : gmap string GraphState.Node :=
  match nodes !! a with
  | Some _ => nodes
  | None => <[a := {| GraphState.node_id := a; GraphState.x := 0;
                      GraphState.y := 0 |}]> nodes
  end.

(** The two [setdefault] calls and [upsert_edge] for the endpoints
    [a] and [b] of an edge: strings are connected; [sorted] compares
    two numbers but not a string and a number, nor [None]; a list is no
    key. *)
Definition connect (gs : GraphState.t) (a b : value) : raised + GraphState.t :=
  match a, b with
  | VStr a, VStr b =>
      let gs := {| GraphState.nodes :=
                     setdefault_node (setdefault_node (GraphState.nodes gs) a) b;
                   GraphState.edges := GraphState.edges gs;
                   GraphState.scale := GraphState.scale gs |} in
      match upsert_edge gs a b with
      | Ok (gs', _) => inr gs'
      | Raise e => inl (Exn e)
      end
  | (VNum _ | VBool _), (VNum _ | VBool _) => inl (Exn Unmodelled)
  | _, _ => inl (Exn TypeError)
  end.

(** The body of [for edge in data.get("edges", [])]: an edge without
    two entries under [nodes] is passed over. *)
Definition from_json_edge (gs : GraphState.t) (edge : bag) : raised + GraphState.t :=
  match edge !! "nodes" with
  | None => inr gs
  | Some (VList [a; b]) => connect gs a b
  | Some (VList _) => inr gs
  | Some (VStr (String a (String b EmptyString))) =>
      connect gs (VStr (String a EmptyString)) (VStr (String b EmptyString))
  | Some (VStr _) => inr gs
  | Some (VNull | VBool _ | VNum _) => inl (Exn TypeError)
  end.

(** [for x in l: gs = f gs x], stopping at the first exception. *)
Fixpoint load_fold {B} (f : GraphState.t → B → raised + GraphState.t)
    (gs : GraphState.t) (l : list B) : raised + GraphState.t :=
  match l with
  | [] => inr gs
  | x :: l' =>
      match f gs x with
      | inl r => inl r
      | inr gs' => load_fold f gs' l'
      end
  end.

(** [GraphState.from_json] *)
Definition from_json (data : document) (scale : Q) : raised + GraphState.t :=
  let gs := {| GraphState.nodes := ∅; GraphState.edges := ∅;
               GraphState.scale := scale |} in
  match load_fold from_json_node gs (doc_nodes data) with
  | inl r => inl r
  | inr gs => load_fold from_json_edge gs (doc_edges data)
  end.

End WithHypot.

End MapBuilder.


(** * Proofs *)

Import Travel.

(** ** Comparisons on [Q] *)

Lemma Qltb_lt (x y : Q) : Qltb x y = true ↔ (x < y)%Q.
Proof.
  unfold Qltb. rewrite negb_true_iff, <- not_true_iff_false, Qle_bool_iff.
  split; [apply Qnot_le_lt | apply Qlt_not_le].
Qed.

Lemma Qltb_ge (x y : Q) : Qltb x y = false ↔ (y <= x)%Q.
Proof.
  unfold Qltb. rewrite negb_false_iff. apply Qle_bool_iff.
Qed.

Lemma Qle_bool_gt (x y : Q) : Qle_bool x y = false ↔ (y < x)%Q.
Proof.
  rewrite <- not_true_iff_false, Qle_bool_iff.
  split; [apply Qnot_le_lt | apply Qlt_not_le].
Qed.

Lemma contains_true {A} (d : gmap string A) (k : string) :
  contains d k = true ↔ k ∈ dom d.
Proof.
  unfold contains. rewrite elem_of_dom.
  destruct (d !! k); split; (done || by intros [? ?] || by eexists).
Qed.

Lemma contains_false {A} (d : gmap string A) (k : string) :
  contains d k = false ↔ d !! k = None.
Proof. unfold contains. by destruct (d !! k). Qed.

Section TravelProofs.

Variable float_of_str : string → option Q.

Local Abbreviation py_float := (Travel.py_float float_of_str).
Local Abbreviation difficulty_for_edge := (Travel.difficulty_for_edge float_of_str).
Local Abbreviation relax := (Travel.relax float_of_str).
Local Abbreviation search_loop := (Travel.search_loop float_of_str).
Local Abbreviation shortest_path := (Travel.shortest_path float_of_str).

Section Simulator.

Variable format_float : nat → Q → string.
Variable format_value : value → string.

Local Abbreviation start_leg := (Travel.start_leg float_of_str format_float format_value).
Local Abbreviation travel_day := (Travel.travel_day float_of_str format_float).

(** ** Difficulty resolution *)

Lemma route_difficulty_other (route_type : string) :
  route_type ∉ ["road"; "trail"; "mountain_pass"; "shore"; "sea"] →
  ROUTE_DIFFICULTY !! route_type = None.
Proof.
  intros Hn. unfold ROUTE_DIFFICULTY. simpl.
  rewrite !lookup_insert_ne; [apply lookup_empty | ..];
    intros <-; apply Hn; set_solver.
Qed.

(** The weight the router gives an edge: [base * difficulty_for_edge(attrs)]. *)
Definition edge_weight (attrs : bag) : res Q :=
  d ← difficulty_for_edge attrs;
  b ← py_num (approx_distance_km attrs);
  Ok (b * d)%Q.

Lemma py_float_raises (v : value) (e : exn) :
  py_float v = Raise e → e = TypeError ∨ e = FloatParseError.
Proof.
  destruct v as [| |?|s|?]; simpl; try destruct (float_of_str s); naive_solver.
Qed.

Lemma difficulty_for_edge_raises (attrs : bag) (e : exn) :
  difficulty_for_edge attrs = Raise e → e = TypeError ∨ e = FloatParseError.
Proof.
  unfold Travel.difficulty_for_edge.
  destruct (attrs !! "difficulty_factor"); [apply py_float_raises|].
  destruct (attrs !! "difficulty_modifier"); [apply py_float_raises|].
  destruct (attrs !! "route_type") as [[]|]; naive_solver.
Qed.


(** ** The adjacency view of a document *)

Lemma res_fold_inv {A B} (P : A → Prop) (f : A → B → res A) (l : list B) :
  (∀ st x st', P st → f st x = Ok st' → P st') →
  ∀ st st', P st → res_fold f st l = Ok st' → P st'.
Proof.
  intros Hstep. induction l as [|x l IH]; intros st st' Hst; simpl.
  - by intros [= <-].
  - destruct (f st x) as [st1|] eqn:Hf; simpl; [|done]. eauto.
Qed.

(** Every route has a number for its distance. *)
Definition numeric_distances (adjacency : adjacency_t) : Prop :=
  ∀ u routes v a,
    adjacency !! u = Some routes → (v, a) ∈ routes →
    ∃ d, a !! "approx_distance_km" = Some (VNum d).

(** Every route is listed at both of its ends. *)
Definition symmetric (adjacency : adjacency_t) : Prop :=
  ∀ u routes v a,
    adjacency !! u = Some routes → (v, a) ∈ routes →
    (u, a) ∈ default [] (adjacency !! v).

Lemma append_route_Some a route adjacency u routes x :
  append_route a route adjacency !! u = Some routes → x ∈ routes →
  (u = a ∧ x = route) ∨ (∃ routes0, adjacency !! u = Some routes0 ∧ x ∈ routes0).
Proof.
  unfold append_route. destruct (decide (u = a)) as [->|Hu].
  - rewrite lookup_insert_eq. intros [= <-] [Hin| ->%list_elem_of_singleton]%elem_of_app.
    + right. destruct (adjacency !! a); simpl in Hin; [eauto|by apply elem_of_nil in Hin].
    + by left.
  - rewrite lookup_insert_ne by done. eauto.
Qed.

Lemma append_route_old a route adjacency u x :
  x ∈ default [] (adjacency !! u) →
  x ∈ default [] (append_route a route adjacency !! u).
Proof.
  unfold append_route. destruct (decide (u = a)) as [->|Hu].
  - rewrite lookup_insert_eq. simpl. set_solver.
  - by rewrite lookup_insert_ne.
Qed.

Lemma append_route_new a route adjacency :
  route ∈ default [] (append_route a route adjacency !! a).
Proof. unfold append_route. rewrite lookup_insert_eq. simpl. set_solver. Qed.

Lemma prepare_edge_Ok adjacency raw_edge adjacency' :
  prepare_edge float_of_str adjacency raw_edge = Ok adjacency' →
  ∃ a b d attrs,
    attrs !! "approx_distance_km" = Some (VNum d) ∧
    adjacency' = append_route b (a, attrs) (append_route a (b, attrs) adjacency).
Proof.
  unfold prepare_edge. destruct (endpoints raw_edge) as [[a b]|]; simpl; [|done].
  destruct (Travel.py_float _ _) as [d|]; simpl; [|done].
  destruct a as [| | |a|]; try done; destruct b as [| | |b|]; try done.
  intros [= <-]. eexists a, b, d, _. split; [|done]. apply lookup_insert_eq.
Qed.

(** The adjacency view [prepare_graph] builds holds a number for the
    distance of every route, and every route at both of its ends. *)
Lemma prepare_graph_adjacency (data : document) nodes adjacency :
  prepare_graph float_of_str data = Ok (nodes, adjacency) →
  numeric_distances adjacency ∧ symmetric adjacency.
Proof.
  unfold prepare_graph.
  destruct (res_fold prepare_node _ _) as [nodes'|]; simpl; [|done].
  destruct (res_fold (prepare_edge float_of_str) _ _) as [adjacency'|] eqn:Hfold;
    simpl; [|done].
  intros [= _ <-]. revert Hfold.
  apply (res_fold_inv (λ adj, numeric_distances adj ∧ symmetric adj));
    [|split; intros u routes v a Hu; by rewrite lookup_empty in Hu].
  intros adj e adj' [Hnum Hsym] (a & b & d & attrs & Hd & ->)%prepare_edge_Ok.
  split.
  - intros u routes v x Hu Hin.
    destruct (append_route_Some _ _ _ _ _ _ Hu Hin) as [[_ [= _ ->]]|(r1 & Hu1 & Hin1)];
      [by exists d|].
    destruct (append_route_Some _ _ _ _ _ _ Hu1 Hin1) as [[_ [= _ ->]]|(r0 & Hu0 & Hin0)];
      [by exists d|].
    by eapply Hnum.
  - intros u routes v x Hu Hin.
    destruct (append_route_Some _ _ _ _ _ _ Hu Hin) as [[-> [= -> ->]]|(r1 & Hu1 & Hin1)].
    { apply append_route_old, append_route_new. }
    destruct (append_route_Some _ _ _ _ _ _ Hu1 Hin1) as [[-> [= -> ->]]|(r0 & Hu0 & Hin0)].
    { apply append_route_new. }
    do 2 apply append_route_old. by eapply Hsym.
Qed.

Lemma numeric_py_float (attrs : bag) (d : Q) :
  attrs !! "approx_distance_km" = Some (VNum d) →
  py_float (approx_distance_km attrs) = Ok d ∧
  py_num (approx_distance_km attrs) = Ok d.
Proof. unfold approx_distance_km. by intros ->. Qed.

(** ** The trip simulator *)

Lemma dict_of_pairs_snoc (routes : list (string * bag)) neighbor attrs :
  dict_of_pairs (routes ++ [(neighbor, attrs)])
  = <[neighbor := attrs]> (dict_of_pairs routes).
Proof. unfold dict_of_pairs. by rewrite foldl_app. Qed.

Lemma dict_of_pairs_None (routes : list (string * bag)) k :
  dict_of_pairs routes !! k = None ↔ k ∉ routes.*1.
Proof.
  induction routes as [|[n a] routes IH] using rev_ind.
  - split; [set_solver|done].
  - rewrite dict_of_pairs_snoc, fmap_app, lookup_insert_None, IH. set_solver.
Qed.

(** The value of a key is the attribute bag of the last pair with it. *)
Lemma dict_of_pairs_Some (routes : list (string * bag)) k attrs :
  dict_of_pairs routes !! k = Some attrs ↔
  ∃ l1 l2, routes = l1 ++ (k, attrs) :: l2 ∧ k ∉ l2.*1.
Proof.
  induction routes as [|[n a] routes IH] using rev_ind.
  - split; [done|]. intros (l1 & l2 & H & _). by destruct l1.
  - rewrite dict_of_pairs_snoc. destruct (decide (n = k)) as [->|Hne].
    + rewrite lookup_insert_eq. split.
      * intros [= ->]. exists routes, []. split; [done|set_solver].
      * intros (l1 & l2 & H & Hn).
        destruct l2 as [|x l2 _] using rev_ind.
        -- apply app_inj_tail in H as [_ [= ->]]. done.
        -- rewrite app_comm_cons, app_assoc in H.
           apply app_inj_tail in H as [_ <-].
           rewrite fmap_app in Hn. set_solver.
    + rewrite lookup_insert_ne by done. rewrite IH. split.
      * intros (l1 & l2 & -> & Hn). exists l1, (l2 ++ [(n, a)]).
        split; [by rewrite <- app_assoc|]. rewrite fmap_app. set_solver.
      * intros (l1 & l2 & H & Hn).
        destruct l2 as [|x l2 _] using rev_ind.
        -- apply app_inj_tail in H as [_ [= -> ->]]. done.
        -- rewrite app_comm_cons, app_assoc in H.
           apply app_inj_tail in H as [-> <-].
           exists l1, l2. split; [done|]. rewrite fmap_app in Hn. set_solver.
Qed.

(** The remaining distance of a leg that has not overshot. *)
Lemma remaining_km_le (leg : ActiveLeg) :
  (traveled_km leg <= distance_km leg)%Q →
  (traveled_km leg + remaining_km leg == distance_km leg)%Q.
Proof.
  intros H. unfold remaining_km.
  destruct (Q.max_spec 0 (distance_km leg - traveled_km leg)) as [[_ ->]|[Hle ->]]; lra.
Qed.

Lemma remaining_km_nonneg (leg : ActiveLeg) : (0 <= remaining_km leg)%Q.
Proof. unfold remaining_km. apply Q.le_max_l. Qed.

(** The leg after a day on which [covered] km were made. *)
Definition advanced (leg : ActiveLeg) (covered : Q) : ActiveLeg :=
  {| origin := origin leg; destination := destination leg;
     attrs := attrs leg; distance_km := distance_km leg;
     traveled_km := (traveled_km leg + covered)%Q |}.

(** The sample trip of the leg clamp: one road of 50 km from A to B. *)
Definition clamp_routes : adjacency_t :=
  {[ "A" := [("B", {[ "approx_distance_km" := VNum 50 ]})];
     "B" := [("A", {[ "approx_distance_km" := VNum 50 ]})] ]}.

Definition clamp_session : TravelSession :=
  ((start_leg "B" (reset_trip "A" "B"
      (new_session {[ "A" := ∅; "B" := ∅ ]} clamp_routes)).1).1).

Definition clamp_leg : ActiveLeg :=
  {| origin := "A"; destination := "B";
     attrs := {[ "approx_distance_km" := VNum 50 ]};
     distance_km := 50; traveled_km := 0 |}.

Definition clamp_arrived : TravelSession :=
  {| nodes := {[ "A" := ∅; "B" := ∅ ]}; adjacency := clamp_routes;
     start_city := Some "A"; destination_city := Some "B";
     current_city := Some "B"; active_leg := None; day := 1;
     total_traveled_km := 50;
     log := [trip_begins "A" "B";
             departed format_float format_value "A" "B" 50 (VStr "route");
             day_entry format_float 1 "foot" 100 (45 # 10) 1 50;
             arrived "B"] |}.

(** C2. In the Traveling state, [travel_day(mode, hours)] with
    [hours > 0], on a leg whose difficulty factor resolves to a number,
    covers [min(speed(mode) * hours * difficulty, remaining)], so the
    distance traveled stays below the larger of what it was and the
    distance of the leg: a leg that had not overshot does not overshoot;
    when the distance traveled is close to or at least the distance of
    the leg, the current city becomes the destination of the leg and the
    leg is cleared, otherwise the leg stays active with the distance
    added, which is below the distance of the leg: no leg is active
    beyond its distance.  On a leg whose difficulty factor [float()]
    rejects, the call raises that error: the day is counted, nothing is
    covered and nothing is logged.  On a leg of 50 km, [travel_day("foot", 100)]
    covers 50 km, not 450, ends the leg and moves the traveller. *)
Theorem travel_day_clamps :
  (∀ (self : TravelSession) (leg : ActiveLeg) (mode : string) (hours d : Q),
     active_leg self = Some leg →
     (0 < hours)%Q →
     difficulty_for_edge (attrs leg) = Ok d →
     let covered := Qmin (speed_for_mode mode * hours * d) (remaining_km leg) in
     let leg' := advanced leg covered in
     ∃ self' r,
       travel_day mode hours self = (self', Ok r) ∧
       r_traveled_km r = covered ∧
       (covered <= remaining_km leg)%Q ∧
       (traveled_km leg' <= Qmax (traveled_km leg) (distance_km leg))%Q ∧
       ((traveled_km leg <= distance_km leg)%Q →
        (traveled_km leg' <= distance_km leg')%Q) ∧
       (isclose (traveled_km leg') (distance_km leg') = true ∨
        (distance_km leg' <= traveled_km leg')%Q →
        current_city self' = Some (destination leg) ∧
        active_leg self' = None ∧
        r_reached_destination r = true) ∧
       (isclose (traveled_km leg') (distance_km leg') = false ∧
        (traveled_km leg' < distance_km leg')%Q →
        current_city self' = current_city self ∧
        active_leg self' = Some leg' ∧
        r_reached_destination r = false) ∧
       (active_leg self' = None ∨
        active_leg self' = Some leg' ∧ (traveled_km leg' < distance_km leg')%Q)) ∧
  (∀ (self : TravelSession) (leg : ActiveLeg) (mode : string) (hours : Q) (e : exn),
     active_leg self = Some leg →
     (0 < hours)%Q →
     difficulty_for_edge (attrs leg) = Raise e →
     ∃ self',
       travel_day mode hours self = (self', Raise e) ∧
       e ∈ [TypeError; FloatParseError] ∧
       day self' = (day self + 1)%Z ∧
       active_leg self' = Some leg ∧
       current_city self' = current_city self ∧
       total_traveled_km self' = total_traveled_km self ∧
       log self' = log self) ∧
  (active_leg clamp_session = Some clamp_leg ∧
   current_city clamp_session = Some "A" ∧
   speed_for_mode "foot" = (45 # 10)%Q ∧
   travel_day "foot" 100 clamp_session =
     (clamp_arrived,
      Ok {| r_day := 1; r_traveled_km := 50; r_remaining_leg_km := 0;
            r_at_city := Some "B"; r_reached_destination := true |})).
Proof.
  split; [|split].
  - intros self leg mode hours d Hleg Hh Hd covered leg'.
    unfold Travel.travel_day. rewrite Hleg.
    apply Qle_bool_gt in Hh. rewrite Hh, Hd.
    fold covered. fold (advanced leg covered). fold leg'.
    assert (Hc : (covered <= remaining_km leg)%Q) by apply Q.le_min_r.
    assert (Hk : (traveled_km leg <= distance_km leg)%Q →
                 (traveled_km leg' <= distance_km leg')%Q).
    { intros Hle. pose proof (remaining_km_le leg Hle). simpl. lra. }
    assert (Hm : (traveled_km leg' <= Qmax (traveled_km leg) (distance_km leg))%Q).
    { simpl. unfold remaining_km in Hc.
      pose proof (Q.le_max_l (traveled_km leg) (distance_km leg)).
      pose proof (Q.le_max_r (traveled_km leg) (distance_km leg)).
      destruct (Q.max_spec 0 (distance_km leg - traveled_km leg)) as [[_ He]|[_ He]];
        rewrite He in Hc; lra. }
    destruct (isclose _ _ || Qle_bool _ _) eqn:Hr.
    + eexists _, _. split; [reflexivity|]. simpl. split_and!; try done.
      * intros [Hf Hlt]. apply orb_true_iff in Hr as [Hr|Hr]; simpl in *; [congruence|].
        apply Qle_bool_iff in Hr. lra.
      * by left.
    + apply orb_false_iff in Hr as [Hr1 Hr2].
      eexists _, _. split; [reflexivity|]. simpl. split_and!; try done.
      * intros [Ht|Hle]; simpl in *; [congruence|].
        apply Qle_bool_gt in Hr2. lra.
      * right. split; [done|]. apply Qle_bool_gt in Hr2. simpl in Hr2. lra.
  - intros self leg mode hours e Hleg Hh Hd.
    unfold Travel.travel_day. rewrite Hleg.
    apply Qle_bool_gt in Hh. rewrite Hh, Hd.
    eexists. split; [reflexivity|]. simpl. split_and!; try done.
    apply difficulty_for_edge_raises in Hd as [->| ->]; set_solver.
  - split_and!; vm_compute; reflexivity.
Qed.

(** C7. With a current city set, [start_leg(destination)] raises
    AlreadyTraveling exactly when a leg is active; with no leg active it
    raises SameLocation when the destination is the current city and
    NoSuchRoute when no route leaves the current city for it; otherwise
    the last route listed for the destination is taken.  Its distance is
    [float()] of the attribute: when [float()] accepts it, a leg starts
    from the current city with the attribute bag of that route, its
    distance and nothing traveled, and the departure is logged; when
    [float()] rejects it, the call raises that error and the session is
    as it was.  Over an adjacency view whose distances are numbers, as
    [prepare_graph] builds it, the call succeeds. *)
Theorem start_leg_outcomes (self : TravelSession) (current destination : string) :
  current_city self = Some current →
  current ≠ "" →
  let routes := default [] (adjacency self !! current) in
  (is_Some (active_leg self) ↔
   (start_leg destination self).2 = Raise AlreadyTraveling) ∧
  (active_leg self = None → destination = current →
   start_leg destination self = (self, Raise SameLocation)) ∧
  (active_leg self = None → destination ≠ current →
   destination ∉ routes.*1 →
   start_leg destination self = (self, Raise NoSuchRoute)) ∧
  (active_leg self = None → destination ≠ current →
   destination ∈ routes.*1 →
   ∃ before after edge_attrs,
     routes = before ++ (destination, edge_attrs) :: after ∧
     (destination ∉ after.*1) ∧
     (∀ distance,
        py_float (approx_distance_km edge_attrs) = Ok distance →
        let leg := {| origin := current; destination := destination;
                      attrs := edge_attrs; distance_km := distance;
                      traveled_km := 0 |} in
        ∃ self',
          start_leg destination self = (self', Ok leg) ∧
          active_leg self' = Some leg ∧
          current_city self' = Some current ∧
          day self' = day self ∧
          total_traveled_km self' = total_traveled_km self ∧
          log self' = log self ++
            [departed format_float format_value current destination distance
               (default (VStr "route") (edge_attrs !! "route_type"))]) ∧
     (∀ e,
        py_float (approx_distance_km edge_attrs) = Raise e →
        e ∈ [TypeError; FloatParseError] ∧
        start_leg destination self = (self, Raise e))) ∧
  (numeric_distances (adjacency self) →
   active_leg self = None → destination ≠ current →
   destination ∈ routes.*1 →
   ∃ self' leg,
     start_leg destination self = (self', Ok leg) ∧
     active_leg self' = Some leg ∧
     origin leg = current ∧ Travel.destination leg = destination ∧
     traveled_km leg = 0%Q ∧
     (destination, attrs leg) ∈ routes ∧
     attrs leg !! "approx_distance_km" = Some (VNum (distance_km leg))).
Proof.
  intros Hcur Hne routes.
  assert (Hav : available_routes self = routes).
  { unfold available_routes, falsy. rewrite Hcur.
    destruct (String.eqb_spec current ""); done. }
  split_and!.
  - unfold Travel.start_leg. destruct (active_leg self) as [leg|].
    { split; [done|by eexists]. }
    split; [by intros [? ?]|]. intros H. exfalso. revert H.
    destruct (is_city _ _); [done|]. rewrite Hav, Hcur.
    destruct (dict_of_pairs routes !! destination); [|done].
    destruct (py_float _) eqn:Hf; [done|]. simpl. intros [= ->].
    apply py_float_raises in Hf as [?|?]; done.
  - intros Hleg ->. unfold Travel.start_leg. rewrite Hleg, Hcur. simpl.
    by rewrite String.eqb_refl.
  - intros Hleg Hd Hnot. unfold Travel.start_leg. rewrite Hleg, Hcur, Hav. simpl.
    rewrite (proj2 (String.eqb_neq _ _) Hd).
    apply dict_of_pairs_None in Hnot. by rewrite Hnot.
  - intros Hleg Hd Hin.
    destruct (dict_of_pairs routes !! destination) as [edge_attrs|] eqn:Hopt;
      [|by apply dict_of_pairs_None in Hopt].
    pose proof Hopt as Hopt'.
    apply dict_of_pairs_Some in Hopt' as (before & after & Hr & Hafter).
    exists before, after, edge_attrs. split_and!; [done..| |].
    + intros distance Hdist leg. unfold Travel.start_leg.
      rewrite Hleg, Hcur, Hav, Hopt, Hdist. simpl.
      rewrite (proj2 (String.eqb_neq _ _) Hd).
      eexists. split; [reflexivity|]. done.
    + intros e Hdist. split.
      * apply py_float_raises in Hdist as [->| ->]; set_solver.
      * unfold Travel.start_leg.
        rewrite Hleg, Hcur, Hav, Hopt, Hdist. simpl.
        by rewrite (proj2 (String.eqb_neq _ _) Hd).
  - intros Hnum Hleg Hd Hin.
    destruct (dict_of_pairs routes !! destination) as [edge_attrs|] eqn:Hopt;
      [|by apply dict_of_pairs_None in Hopt].
    pose proof Hopt as Hopt'.
    apply dict_of_pairs_Some in Hopt' as (before & after & Hr & Hafter).
    assert (Hmem : (destination, edge_attrs) ∈ routes) by (rewrite Hr; set_solver).
    destruct (adjacency self !! current) as [routes'|] eqn:Hadj;
      [|by apply elem_of_nil in Hmem].
    destruct (Hnum current routes' destination edge_attrs Hadj Hmem) as [d Hdist].
    destruct (numeric_py_float edge_attrs d Hdist) as [Hfloat _].
    unfold Travel.start_leg.
    rewrite Hleg, Hcur, Hav, Hopt, Hfloat. simpl.
    rewrite (proj2 (String.eqb_neq _ _) Hd).
    eexists _, _. split; [reflexivity|]. done.
Qed.

(** C10. A call of [reset_trip] or [start_leg] that raises leaves the
    session as it was, and so does a call of [travel_day] that raises
    NoActiveLeg or NonPositiveHours; these are the only exceptions the
    source raises by name (UnknownNode, AlreadyTraveling, SameLocation,
    NoSuchRoute, NoActiveLeg, NonPositiveHours). *)
Theorem typed_failures_atomic (self : TravelSession) (e : exn) :
  (∀ start destination,
     (reset_trip start destination self).2 = Raise e →
     e = UnknownNode ∧ (reset_trip start destination self).1 = self) ∧
  (∀ destination,
     (start_leg destination self).2 = Raise e →
     (start_leg destination self).1 = self) ∧
  (∀ mode hours,
     (travel_day mode hours self).2 = Raise e →
     e ∈ [UnknownNode; AlreadyTraveling; SameLocation; NoSuchRoute;
          NoActiveLeg; NonPositiveHours] →
     (travel_day mode hours self).1 = self).
Proof.
  split_and!.
  - intros start destination. unfold reset_trip.
    destruct (_ || _); simpl; [by intros [= <-]|done].
  - intros destination. unfold Travel.start_leg.
    destruct (active_leg self); [done|].
    destruct (is_city _ _); [done|].
    destruct (dict_of_pairs _ !! _); [|done].
    destruct (current_city self); [|done].
    by destruct (py_float _).
  - intros mode hours. unfold Travel.travel_day.
    destruct (active_leg self) as [leg|]; [|done].
    destruct (Qle_bool hours 0); [done|].
    destruct (difficulty_for_edge (attrs leg)) eqn:Hd.
    + by destruct (_ || _).
    + simpl. intros [= ->] Hin.
      apply difficulty_for_edge_raises in Hd as [->| ->]; set_solver.
Qed.

(** *** The bounds of the active leg *)

Lemma speed_for_mode_pos (mode : string) : (0 < speed_for_mode mode)%Q.
Proof.
  unfold speed_for_mode. destruct (SPEEDS_KMH !! mode) as [q|] eqn:H; [|done].
  apply elem_of_list_to_map_2 in H. simpl.
  repeat (apply elem_of_cons in H as [[= _ ->]|H]; [reflexivity|]).
  by apply elem_of_nil in H.
Qed.

(** Every route has a distance and a difficulty factor that are not
    negative, where they are numbers at all. *)
Definition nonneg_routes (adjacency : adjacency_t) : Prop :=
  ∀ node routes neighbor attrs,
    adjacency !! node = Some routes → (neighbor, attrs) ∈ routes →
    (∀ d, py_float (approx_distance_km attrs) = Ok d → (0 <= d)%Q) ∧
    (∀ f, difficulty_for_edge attrs = Ok f → (0 <= f)%Q).

Definition leg_bounded (leg : ActiveLeg) : Prop :=
  (0 <= traveled_km leg)%Q ∧ (traveled_km leg <= distance_km leg)%Q.

(** One call on the session, whatever it returns or raises. *)
Inductive call : TravelSession → TravelSession → Prop :=
  | call_reset_trip self start destination :
      call self (reset_trip start destination self).1
  | call_start_leg self destination :
      call self (start_leg destination self).1
  | call_travel_day self mode hours :
      call self (travel_day mode hours self).1.

Definition leg_inv (adj : adjacency_t) (self : TravelSession) : Prop :=
  adjacency self = adj ∧
  ∀ leg, active_leg self = Some leg →
    leg_bounded leg ∧ ∀ f, difficulty_for_edge (attrs leg) = Ok f → (0 <= f)%Q.

Lemma travel_day_bounded (self : TravelSession) (leg leg' : ActiveLeg) mode hours :
  active_leg self = Some leg →
  leg_bounded leg →
  (∀ f, difficulty_for_edge (attrs leg) = Ok f → (0 <= f)%Q) →
  active_leg (travel_day mode hours self).1 = Some leg' →
  leg_bounded leg' ∧ attrs leg' = attrs leg.
Proof.
  intros Hleg [H0 H1] Hf. unfold Travel.travel_day. rewrite Hleg.
  destruct (Qle_bool hours 0) eqn:Hh; simpl.
  { rewrite Hleg. by intros [= <-]. }
  destruct (difficulty_for_edge (attrs leg)) as [f|] eqn:Hd; simpl.
  2:{ by intros [= <-]. }
  destruct (_ || _) eqn:Hr; [done|]. simpl. intros [= <-].
  split; [|done]. unfold leg_bounded. simpl.
  apply Qle_bool_gt in Hh. specialize (Hf f eq_refl).
  pose proof (speed_for_mode_pos mode) as Hs.
  pose proof (remaining_km_nonneg leg) as Hrem.
  pose proof (remaining_km_le leg H1) as Hsum.
  assert (0 <= speed_for_mode mode * hours * f)%Q as Hp.
  { apply Qmult_le_0_compat; [apply Qmult_le_0_compat|]; lra. }
  pose proof (Q.le_min_r (speed_for_mode mode * hours * f) (remaining_km leg)) as Hc.
  pose proof (Q.min_glb _ _ _ Hp Hrem) as Hc0.
  split; lra.
Qed.

Lemma call_leg_inv (adj : adjacency_t) (self self' : TravelSession) :
  nonneg_routes adj → leg_inv adj self → call self self' → leg_inv adj self'.
Proof.
  intros Hadj Hself Hcall. pose proof Hself as [Ha Hinv].
  destruct Hcall as [self start dest|self dest|self mode hours].
  - unfold reset_trip. destruct (_ || _); simpl; [done|]. by split.
  - unfold Travel.start_leg.
    destruct (active_leg self) eqn:Hleg; [done|].
    destruct (is_city _ _); [done|].
    destruct (dict_of_pairs _ !! _) as [edge_attrs|] eqn:Hopt; [|done].
    destruct (current_city self) as [current|] eqn:Hcur; [|done].
    destruct (py_float _) as [d|] eqn:Hd; [|done]. simpl.
    split; [done|]. intros leg [= <-]. simpl.
    apply dict_of_pairs_Some in Hopt as (l1 & l2 & Hroutes & _).
    unfold available_routes in Hroutes. rewrite Hcur in Hroutes. simpl in Hroutes.
    destruct (String.eqb current ""); [by destruct l1|].
    destruct (adjacency self !! current) as [routes|] eqn:Hr; simpl in Hroutes;
      [|by destruct l1].
    rewrite Ha in Hr.
    destruct (Hadj current routes dest edge_attrs Hr) as [Hdist Hdiff].
    { rewrite Hroutes. set_solver. }
    split; [|done]. split; simpl; [lra|by apply Hdist].
  - split.
    { rewrite <- Ha. unfold Travel.travel_day.
      destruct (active_leg self); [|done].
      destruct (Qle_bool hours 0); [done|].
      destruct (difficulty_for_edge _); [|done]. by destruct (_ || _). }
    intros leg' Hleg'.
    destruct (active_leg self) as [leg|] eqn:Hleg.
    + destruct (Hinv leg eq_refl) as [Hb Hf].
      destruct (travel_day_bounded self leg leg' mode hours Hleg Hb Hf Hleg') as [? Heq].
      split; [done|]. by rewrite Heq.
    + unfold Travel.travel_day in Hleg'. rewrite Hleg in Hleg'. simpl in Hleg'.
      congruence.
Qed.

(** C9, as the code has it.  Over routes whose distances and difficulty
    factors are not negative, after any sequence of calls of
    [reset_trip], [start_leg] and [travel_day] on a new session, an
    active leg has [0 <= traveled_km <= distance_km]; and every call of
    [travel_day] on a leg within these bounds, with a difficulty factor
    that is not negative, leaves the leg (when it stays active) within
    them. *)
Theorem active_leg_bounds (nodes : gmap string bag) (adj : adjacency_t) :
  nonneg_routes adj →
  (∀ self leg,
     rtc call (new_session nodes adj) self →
     active_leg self = Some leg →
     (0 <= traveled_km leg)%Q ∧ (traveled_km leg <= distance_km leg)%Q) ∧
  (∀ self leg leg' mode hours,
     active_leg self = Some leg →
     (0 <= traveled_km leg)%Q ∧ (traveled_km leg <= distance_km leg)%Q →
     (∀ f, difficulty_for_edge (attrs leg) = Ok f → (0 <= f)%Q) →
     active_leg (travel_day mode hours self).1 = Some leg' →
     (0 <= traveled_km leg')%Q ∧ (traveled_km leg' <= distance_km leg')%Q).
Proof.
  intros Hadj. split.
  - intros self leg Hreach Hleg.
    enough (leg_inv adj self) as [_ Hinv] by (by destruct (Hinv leg Hleg)).
    clear leg Hleg. revert self Hreach.
    apply (rtc_ind_r (leg_inv adj) (new_session nodes adj)).
    + by split.
    + intros s s' _ Hcall Hs. by eapply call_leg_inv.
  - intros self leg leg' mode hours Hleg Hb Hf Hleg'.
    by destruct (travel_day_bounded self leg leg' mode hours Hleg Hb Hf Hleg').
Qed.

End Simulator.

(** ** The router *)

(** *** The priority queue *)

Lemma entry_ltb_true (x y : entry) : entry_ltb x y = true → (x.1 <= y.1)%Q.
Proof.
  unfold entry_ltb. destruct (x.1 ?= y.1)%Q eqn:H; intros Hb; try done.
  - apply Qeq_alt in H. lra.
  - apply Qlt_alt in H. lra.
Qed.

Lemma entry_ltb_false (x y : entry) : entry_ltb x y = false → (y.1 <= x.1)%Q.
Proof.
  unfold entry_ltb. destruct (x.1 ?= y.1)%Q eqn:H; intros Hb; try done.
  - apply Qeq_alt in H. lra.
  - apply Qgt_alt in H. lra.
Qed.

Lemma heap_min_spec (x : entry) (h : list entry) (m : entry) (r : list entry) :
  heap_min x h = (m, r) →
  m :: r ≡ₚ x :: h ∧ ∀ e, e ∈ x :: h → (m.1 <= e.1)%Q.
Proof.
  revert x m r. induction h as [|y h IH]; intros x m r; simpl.
  - intros [= <- <-]. split; [done|]. intros e ->%list_elem_of_singleton. lra.
  - destruct (entry_ltb y x) eqn:Hyx.
    + destruct (heap_min y h) as [m' r'] eqn:Hm. intros [= <- <-].
      destruct (IH y m' r' Hm) as [Hp Hle]. split.
      * etrans; [apply Permutation_swap|]. by rewrite Hp.
      * intros e [->|He]%elem_of_cons; [|by apply Hle].
        apply entry_ltb_true in Hyx.
        specialize (Hle y ltac:(set_solver)). lra.
    + destruct (heap_min x h) as [m' r'] eqn:Hm. intros [= <- <-].
      destruct (IH x m' r' Hm) as [Hp Hle]. split.
      * etrans; [apply Permutation_swap|]. rewrite Hp. apply Permutation_swap.
      * intros e [->|[->|He]%elem_of_cons]%elem_of_cons.
        -- apply Hle. set_solver.
        -- apply entry_ltb_false in Hyx.
           specialize (Hle x ltac:(set_solver)). lra.
        -- apply Hle. set_solver.
Qed.

Lemma heappop_spec (h : list entry) (m : entry) (r : list entry) :
  heappop h = Some (m, r) →
  m :: r ≡ₚ h ∧ ∀ e, e ∈ h → (m.1 <= e.1)%Q.
Proof.
  destruct h as [|x h]; simpl; [done|]. intros [= H]. by apply heap_min_spec.
Qed.

(** *** Routes and their weights *)

(** [route u r v]: from [u], taking the steps of [r] one after another
    leads to [v]; a step is a pair [(neighbor, attrs)] of the adjacency
    list of the node it leaves. *)
Inductive route (adjacency : adjacency_t) (u : string)
    : list (string * bag) → string → Prop :=
  | route_nil : route adjacency u [] u
  | route_snoc r v routes x a :
      route adjacency u r v →
      adjacency !! v = Some routes → (x, a) ∈ routes →
      route adjacency u (r ++ [(x, a)]) x.

Definition weight_of (attrs : bag) : Q :=
  match edge_weight attrs with
  | Ok w => w
  | Raise _ => 0
  end.

Definition distance_of (attrs : bag) : Q :=
  match py_num (approx_distance_km attrs) with
  | Ok b => b
  | Raise _ => 0
  end.

(** The weighted cost and the physical distance of a route. *)
Definition route_weight (r : list (string * bag)) : Q :=
  foldr (λ e acc, weight_of e.2 + acc)%Q 0%Q r.

Definition route_distance (r : list (string * bag)) : Q :=
  foldr (λ e acc, distance_of e.2 + acc)%Q 0%Q r.

Lemma route_weight_snoc r e :
  (route_weight (r ++ [e]) == route_weight r + weight_of e.2)%Q.
Proof. induction r as [|e' r IH]; simpl; [|rewrite IH]; lra. Qed.

Lemma route_distance_snoc r e :
  (route_distance (r ++ [e]) == route_distance r + distance_of e.2)%Q.
Proof. induction r as [|e' r IH]; simpl; [|rewrite IH]; lra. Qed.

(** Every edge has a weight, and no weight is negative. *)
Definition weighted (adjacency : adjacency_t) : Prop :=
  ∀ u routes v a,
    adjacency !! u = Some routes → (v, a) ∈ routes →
    ∃ w, edge_weight a = Ok w ∧ (0 <= w)%Q.

(** Two routes between the same two nodes have the same attributes. *)
Definition simple (adjacency : adjacency_t) : Prop :=
  ∀ u routes v a a',
    adjacency !! u = Some routes → (v, a) ∈ routes → (v, a') ∈ routes → a = a'.

Lemma edge_weight_Ok (attrs : bag) (w : Q) :
  edge_weight attrs = Ok w →
  ∃ d b, difficulty_for_edge attrs = Ok d ∧
         py_num (approx_distance_km attrs) = Ok b ∧ w = (b * d)%Q.
Proof.
  unfold edge_weight. destruct (difficulty_for_edge attrs) as [d|]; simpl; [|done].
  destruct (py_num (approx_distance_km attrs)) as [b|]; simpl; [|done].
  intros [= <-]. by exists d, b.
Qed.

Lemma relax_weight cost node st neigh attrs w :
  edge_weight attrs = Ok w →
  relax cost node st (neigh, attrs) =
    Ok (if improves (cost + w) (dist st !! neigh)
        then {| dist := <[neigh := (cost + w)%Q]> (dist st);
                prev := <[neigh := node]> (prev st);
                heap := (cost + w, neigh)%Q :: heap st |}
        else st).
Proof.
  intros (d & b & Hd & Hb & ->)%edge_weight_Ok. unfold Travel.relax.
  rewrite Hd. simpl. rewrite Hb. simpl. by destruct (improves _ _).
Qed.

Lemma res_fold_cons {A B} (f : A → B → res A) (st : A) (x : B) (l : list B) :
  res_fold f st (x :: l) = f st x ≫= λ st', res_fold f st' l.
Proof. done. Qed.

Lemma res_bind_Ok {A B} (a : A) (f : A → res B) : Ok a ≫= f = f a.
Proof. done. Qed.

(** *** The invariant of the search *)

Section Search.

Variable adjacency : adjacency_t.
Variables start dest : string.
Hypothesis Hweighted : weighted adjacency.

(** [adjacency.get(u, [])] *)
Definition routes_of (u : string) : list (string * bag) :=
  default [] (adjacency !! u).

Lemma routes_of_weight u v a :
  (v, a) ∈ routes_of u → ∃ w, edge_weight a = Ok w ∧ (0 <= w)%Q.
Proof.
  unfold routes_of. destruct (adjacency !! u) as [routes|] eqn:Hu; simpl.
  - intros Hin. by eapply Hweighted.
  - by intros ?%elem_of_nil.
Qed.

(** [S] lists the nodes whose routes have been scanned, the last one
    first; [scanned u] are the routes of [u] scanned so far. *)
Record inv (S : list string) (scanned : string → list (string * bag))
    (st : search) : Prop := {
  inv_start : dist st !! start = Some 0%Q;
  inv_dest : dest ∉ S;
  inv_nonneg v d : dist st !! v = Some d → (0 <= d)%Q;
  inv_heap c v : (c, v) ∈ heap st → ∃ d, dist st !! v = Some d ∧ (d <= c)%Q;
  inv_open v d : dist st !! v = Some d → v ∉ S → (d, v) ∈ heap st;
  inv_mono u du c v :
    u ∈ S → dist st !! u = Some du → (c, v) ∈ heap st → (du <= c)%Q;
  inv_closed u du v a w :
    u ∈ S → dist st !! u = Some du → (v, a) ∈ scanned u →
    edge_weight a = Ok w →
    ∃ dv, dist st !! v = Some dv ∧ (dv <= du + w)%Q;
  inv_prev v dv :
    dist st !! v = Some dv → v ≠ start →
    ∃ u du a w,
      prev st !! v = Some u ∧ u ∈ S ∧ dist st !! u = Some du ∧
      (v, a) ∈ routes_of u ∧ edge_weight a = Ok w ∧ (dv == du + w)%Q ∧
      ∀ S1 S2, S = S1 ++ v :: S2 → u ∈ S2;
  inv_settled u : u ∈ S → is_Some (dist st !! u)
}.

Lemma inv_ext S scanned scanned' st :
  (∀ u, scanned u = scanned' u) → inv S scanned st → inv S scanned' st.
Proof.
  intros Heq [].
  split; try done. intros u du v a w ? ? Hin. rewrite <- Heq in Hin. eauto.
Qed.

Lemma inv_init :
  inv [] routes_of {| dist := {[ start := 0%Q ]}; prev := ∅; heap := [(0%Q, start)] |}.
Proof.
  split; simpl.
  - apply lookup_singleton_eq.
  - apply not_elem_of_nil.
  - intros v d [<- <-]%lookup_singleton_Some. lra.
  - intros c v [= -> ->]%list_elem_of_singleton. exists 0%Q.
    split; [apply lookup_singleton_eq|lra].
  - intros v d [<- <-]%lookup_singleton_Some _. set_solver.
  - intros u du c v Hu. by apply elem_of_nil in Hu.
  - intros u du v a w Hu. by apply elem_of_nil in Hu.
  - intros v dv [<- <-]%lookup_singleton_Some. done.
  - intros u Hu. by apply elem_of_nil in Hu.
Qed.

(** The routes of [u] are being scanned with the cost [c] of its entry. *)
Definition upd (u : string) (done : list (string * bag)) (x : string)
    : list (string * bag) :=
  if decide (x = u) then done else routes_of x.

Record scanning (S : list string) (u : string) (c : Q)
    (done : list (string * bag)) (st : search) : Prop := {
  sc_inv : inv (u :: S) (upd u done) st;
  sc_cur : ∃ du, dist st !! u = Some du ∧ (c <= du)%Q;
  sc_le s ds : s ∈ u :: S → dist st !! s = Some ds → (ds <= c)%Q
}.

Lemma improves_false c old :
  improves c old = false ↔ ∃ d, old = Some d ∧ (d <= c)%Q.
Proof.
  destruct old as [d|]; simpl.
  - rewrite Qltb_ge. naive_solver.
  - naive_solver.
Qed.

Lemma improves_true c old :
  improves c old = true ↔ ∀ d, old = Some d → (c < d)%Q.
Proof.
  destruct old as [d|]; simpl.
  - rewrite Qltb_lt. naive_solver.
  - naive_solver.
Qed.

Lemma relax_step S u c done st v a :
  scanning S u c done st → (v, a) ∈ routes_of u →
  ∃ st', relax c u st (v, a) = Ok st' ∧
         scanning S u c (done ++ [(v, a)]) st' ∧
         (length (heap st') <= Datatypes.S (length (heap st)))%nat.
Proof.
  intros [Hinv (du & Hdu & Hcdu) Hle] Hva.
  destruct (routes_of_weight u v a Hva) as (w & Hw & Hw0).
  rewrite (relax_weight c u st v a w Hw).
  pose proof (Hle u du ltac:(set_solver) Hdu) as Hduc.
  pose proof (inv_nonneg _ _ _ Hinv u du Hdu) as Hdu0.
  destruct (improves (c + w) (dist st !! v)) eqn:Himp.
  - (* the neighbor gets a new cost *)
    rewrite improves_true in Himp.
    assert (Hv : v ∉ u :: S).
    { intros Hin. destruct (inv_settled _ _ _ Hinv v Hin) as [dv Hdv].
      specialize (Himp dv Hdv). specialize (Hle v dv Hin Hdv). lra. }
    assert (Hvs : v ≠ start).
    { intros ->. specialize (Himp _ (inv_start _ _ _ Hinv)). lra. }
    assert (Hvu : v ≠ u) by set_solver.
    assert (Hset : ∀ s, s ∈ u :: S → s ≠ v) by (intros s Hs ->; done).
    eexists. split; [done|]. split; [|simpl; lia].
    split.
    + split; simpl.
      * rewrite lookup_insert_ne by done. apply Hinv.
      * apply Hinv.
      * intros x d. destruct (decide (x = v)) as [->|Hx].
        -- rewrite lookup_insert_eq. intros [= <-]. lra.
        -- rewrite lookup_insert_ne by done. apply Hinv.
      * intros c' x [[= -> ->]|Hin]%elem_of_cons.
        -- rewrite lookup_insert_eq. eexists. split; [done|lra].
        -- destruct (inv_heap _ _ _ Hinv c' x Hin) as (d & Hd & Hdc).
           destruct (decide (x = v)) as [->|Hx].
           ++ rewrite lookup_insert_eq. eexists. split; [done|].
              specialize (Himp d Hd). lra.
           ++ rewrite lookup_insert_ne by done. eauto.
      * intros x d Hx Hxs. destruct (decide (x = v)) as [->|Hxv].
        -- rewrite lookup_insert_eq in Hx. injection Hx as <-. set_solver.
        -- rewrite lookup_insert_ne in Hx by done.
           apply elem_of_cons. right. by apply Hinv.
      * intros s ds c' x Hs Hds [[= -> ->]|Hin]%elem_of_cons.
        -- rewrite lookup_insert_ne in Hds by (by apply not_eq_sym, Hset).
           specialize (Hle s ds Hs Hds). lra.
        -- rewrite lookup_insert_ne in Hds by (by apply not_eq_sym, Hset).
           by eapply (inv_mono _ _ _ Hinv).
      * intros s ds x a' w' Hs Hds Hin Hw'.
        rewrite lookup_insert_ne in Hds by (by apply not_eq_sym, Hset).
        assert (Hold : (∃ dx, dist st !! x = Some dx ∧ (dx <= ds + w')%Q) ∨
                       (x = v ∧ s = u ∧ w' = w)).
        { unfold upd in Hin. destruct (decide (s = u)) as [->|Hsu].
          - apply elem_of_app in Hin as [Hin|[= -> ->]%list_elem_of_singleton].
            + left. eapply (inv_closed _ _ _ Hinv); [done..| |done].
              unfold upd. by rewrite decide_True.
            + right. split_and!; try done. congruence.
          - left. eapply (inv_closed _ _ _ Hinv); [done..| |done].
            unfold upd. by rewrite decide_False. }
        destruct Hold as [(dx & Hdx & Hdxs)|(-> & -> & ->)].
        -- destruct (decide (x = v)) as [->|Hx].
           ++ rewrite lookup_insert_eq. eexists. split; [done|].
              specialize (Himp dx Hdx). lra.
           ++ rewrite lookup_insert_ne by done. eauto.
        -- rewrite lookup_insert_eq. eexists. split; [done|].
           assert (ds = du) as -> by congruence. lra.
      * intros x dx Hx Hxs. destruct (decide (x = v)) as [->|Hxv].
        -- rewrite lookup_insert_eq in Hx. injection Hx as <-.
           exists u, du, a, w. rewrite lookup_insert_eq.
           rewrite lookup_insert_ne by done.
           split_and!; try done; [set_solver|lra|].
           intros S1 S2 HS. exfalso. apply Hv. rewrite HS. set_solver.
        -- rewrite lookup_insert_ne in Hx by done.
           destruct (inv_prev _ _ _ Hinv x dx Hx Hxs)
             as (p & dp & a' & w' & Hp & HpS & Hdp & Ha' & Hw' & Heq & Hord).
           exists p, dp, a', w'. rewrite !lookup_insert_ne; [|by apply not_eq_sym, Hset|done].
           done.
      * intros s Hs. rewrite lookup_insert_ne by (by apply not_eq_sym, Hset).
        by apply Hinv.
    + simpl. exists du. by rewrite lookup_insert_ne.
    + simpl. intros s ds Hs. rewrite lookup_insert_ne by (by apply not_eq_sym, Hset).
      by apply Hle.
  - (* nothing changes *)
    rewrite improves_false in Himp. destruct Himp as (dv & Hdv & Hdvc).
    eexists. split; [done|]. split; [|lia].
    split; [|by exists du|done].
    destruct Hinv. split; try done.
    intros s ds x a' w' Hs Hds Hin Hw'.
    unfold upd in Hin. destruct (decide (s = u)) as [->|Hsu].
    + apply elem_of_app in Hin as [Hin|[= -> ->]%list_elem_of_singleton].
      * eapply inv_closed0; [done..| |done]. unfold upd. by rewrite decide_True.
      * exists dv. split; [done|].
        assert (ds = du) as -> by congruence.
        assert (w' = w) as -> by congruence. lra.
    + eapply inv_closed0; [done..| |done]. unfold upd. by rewrite decide_False.
Qed.

Lemma relax_all S u c done todo st :
  scanning S u c done st → (∀ e, e ∈ todo → e ∈ routes_of u) →
  ∃ st', res_fold (relax c u) st todo = Ok st' ∧
         scanning S u c (done ++ todo) st' ∧
         (length (heap st') <= length todo + length (heap st))%nat.
Proof.
  revert done st. induction todo as [|[v a] todo IH]; intros done st Hsc Hin.
  - exists st. rewrite app_nil_r. split_and!; [done|done|simpl; lia].
  - destruct (relax_step S u c done st v a Hsc) as (st1 & Hr & Hsc1 & Hlen1);
      [apply Hin; set_solver|].
    destruct (IH (done ++ [(v, a)]) st1 Hsc1) as (st' & Hf & Hsc' & Hlen');
      [intros e He; apply Hin; set_solver|].
    exists st'. rewrite res_fold_cons, Hr, res_bind_Ok. rewrite <- app_assoc in Hsc'.
    split_and!; [done|done|simpl; lia].
Qed.

(** Scanning a node again changes nothing. *)
Lemma relax_settled S u du c todo st :
  inv S routes_of st → u ∈ S → dist st !! u = Some du → (du <= c)%Q →
  (∀ e, e ∈ todo → e ∈ routes_of u) →
  res_fold (relax c u) st todo = Ok st.
Proof.
  intros Hinv Hu Hdu Hc. induction todo as [|[v a] todo IH]; intros Hin; [done|].
  assert (Hva : (v, a) ∈ routes_of u) by (apply Hin; set_solver).
  destruct (routes_of_weight u v a Hva) as (w & Hw & Hw0).
  rewrite res_fold_cons, (relax_weight c u st v a w Hw).
  destruct (inv_closed _ _ _ Hinv u du v a w Hu Hdu Hva Hw) as (dv & Hdv & Hle).
  assert (improves (c + w) (dist st !! v) = false) as ->.
  { apply improves_false. exists dv. split; [done|lra]. }
  rewrite res_bind_Ok. apply IH. intros e He. apply Hin. set_solver.
Qed.

(** The state after [heappop]. *)
Definition popped (st : search) (h' : list entry) : search :=
  {| dist := dist st; prev := prev st; heap := h' |}.

Lemma pop_stale S st c u h' :
  inv S routes_of st → heappop (heap st) = Some ((c, u), h') →
  stale c (dist st !! u) = true → inv S routes_of (popped st h').
Proof.
  intros Hinv [Hp Hmin]%heappop_spec Hst.
  assert (Hsub : ∀ e, e ∈ h' → e ∈ heap st).
  { intros e He. rewrite <- Hp. set_solver. }
  destruct Hinv. split; simpl; try done.
  - intros c' v Hin. apply inv_heap0. by apply Hsub.
  - intros v d Hv HvS. specialize (inv_open0 v d Hv HvS).
    rewrite <- Hp in inv_open0. apply elem_of_cons in inv_open0 as [[= -> ->]|]; [|done].
    rewrite Hv in Hst. simpl in Hst. apply Qltb_lt in Hst. lra.
  - intros s ds c' v Hs Hds Hin. eapply inv_mono0; [done..|]. by apply Hsub.
Qed.

Lemma pop_settled S st c u h' :
  inv S routes_of st → heappop (heap st) = Some ((c, u), h') →
  u ∈ S → inv S routes_of (popped st h').
Proof.
  intros Hinv [Hp Hmin]%heappop_spec Hu.
  assert (Hsub : ∀ e, e ∈ h' → e ∈ heap st).
  { intros e He. rewrite <- Hp. set_solver. }
  destruct Hinv. split; simpl; try done.
  - intros c' v Hin. apply inv_heap0. by apply Hsub.
  - intros v d Hv HvS. specialize (inv_open0 v d Hv HvS).
    rewrite <- Hp in inv_open0. apply elem_of_cons in inv_open0 as [[= -> ->]|]; done.
  - intros s ds c' v Hs Hds Hin. eapply inv_mono0; [done..|]. by apply Hsub.
Qed.

Lemma pop_fresh S st c u h' :
  inv S routes_of st → heappop (heap st) = Some ((c, u), h') →
  u ≠ dest → stale c (dist st !! u) = false → u ∉ S →
  scanning S u c [] (popped st h').
Proof.
  intros Hinv [Hp Hmin]%heappop_spec Hud Hst Hu.
  assert (Hsub : ∀ e, e ∈ h' → e ∈ heap st).
  { intros e He. rewrite <- Hp. set_solver. }
  assert (Hcu : (c, u) ∈ heap st) by (rewrite <- Hp; set_solver).
  destruct (inv_heap _ _ _ Hinv c u Hcu) as (du & Hdu & Hduc).
  rewrite Hdu in Hst. simpl in Hst. apply Qltb_ge in Hst.
  split; [|by exists du|].
  - destruct Hinv. split; simpl; try done.
    + set_solver.
    + intros c' v Hin. apply inv_heap0. by apply Hsub.
    + intros v d Hv HvS. specialize (inv_open0 v d Hv ltac:(set_solver)).
      rewrite <- Hp in inv_open0.
      apply elem_of_cons in inv_open0 as [[= -> ->]|]; [set_solver|done].
    + intros s ds c' v [->|Hs]%elem_of_cons Hds Hin.
      * assert (ds = du) as -> by congruence.
        specialize (Hmin (c', v) (Hsub _ Hin)). simpl in Hmin. lra.
      * eapply inv_mono0; [done..|]. by apply Hsub.
    + intros s ds v a w [->|Hs]%elem_of_cons Hds Hin Hw.
      * unfold upd in Hin. rewrite decide_True in Hin by done.
        by apply elem_of_nil in Hin.
      * unfold upd in Hin. rewrite decide_False in Hin by (by intros ->).
        by eapply inv_closed0.
    + intros v dv Hv Hvs.
      destruct (inv_prev0 v dv Hv Hvs) as (p & dp & a & w & ? & ? & ? & ? & ? & ? & Hord).
      exists p, dp, a, w. split_and!; try done; [set_solver|].
      intros [|x S1] S2; simpl; intros [= HS1 HS2].
      * by subst.
      * by eapply Hord.
    + intros s [->|Hs]%elem_of_cons; [by eexists|by apply inv_settled0].
  - simpl. intros s ds [->|Hs]%elem_of_cons Hds.
    + by assert (ds = du) as -> by congruence.
    + by eapply (inv_mono _ _ _ Hinv).
Qed.

Lemma scanning_done S u c st :
  scanning S u c (routes_of u) st → inv (u :: S) routes_of st.
Proof.
  intros [Hinv _ _]. eapply inv_ext; [|done].
  intros x. unfold upd. case_decide; by subst.
Qed.

(** A route from [start] costs at least the distance reached at its end
    when that node is scanned, and else at least a distance in the
    queue. *)
Lemma route_lower_bound S st r x :
  inv S routes_of st → route adjacency start r x →
  ∃ y d, dist st !! y = Some d ∧ (d <= route_weight r)%Q ∧ (y ∈ S → y = x).
Proof.
  intros Hinv. induction 1 as [|r v routes x a Hr IH Hv Hin].
  - exists start, 0%Q. split_and!; [apply Hinv|simpl; lra|done].
  - destruct IH as (y & d & Hy & Hd & HyS).
    assert (Hva : (x, a) ∈ routes_of v) by (unfold routes_of; by rewrite Hv).
    destruct (routes_of_weight v x a Hva) as (w & Hw & Hw0).
    assert (Hrw : (route_weight (r ++ [(x, a)]) == route_weight r + w)%Q).
    { rewrite route_weight_snoc. unfold weight_of. simpl. by rewrite Hw. }
    destruct (decide (y ∈ S)) as [Hin'|Hnin].
    + specialize (HyS Hin'). subst y.
      destruct (inv_closed _ _ _ Hinv v d x a w Hin' Hy Hva Hw) as (dx & Hdx & Hle).
      exists x, dx. split_and!; [done|lra|done].
    + exists y, d. split_and!; [done|lra|done].
Qed.

(** *** Termination of the search *)

(** The routes still to be scanned: those of the nodes outside [S]. *)
Definition unscanned (S : list string) (p : string * list (string * bag)) : nat :=
  if decide (p.1 ∈ S) then 0%nat else length p.2.

Definition budget (S : list string) : nat :=
  sum_list (unscanned S <$> map_to_list adjacency).

Lemma sum_unscanned_settle (L : list (string * list (string * bag))) u S routes :
  NoDup L.*1 → u ∉ S →
  (u, routes) ∈ L ∨ (routes = [] ∧ u ∉ L.*1) →
  (sum_list (unscanned (u :: S) <$> L) + length routes
   <= sum_list (unscanned S <$> L))%nat.
Proof.
  intros Hnd Hu. revert routes.
  induction L as [|[k rs] L IH]; intros routes Hin.
  - destruct Hin as [Hin|[-> _]]; [by apply elem_of_nil in Hin|simpl; lia].
  - simpl in Hnd. apply NoDup_cons in Hnd as [Hk Hnd].
    specialize (IH Hnd). rewrite !fmap_cons.
    change (sum_list (unscanned (u :: S) (k, rs) :: (unscanned (u :: S) <$> L)))
      with (unscanned (u :: S) (k, rs) + sum_list (unscanned (u :: S) <$> L))%nat.
    change (sum_list (unscanned S (k, rs) :: (unscanned S <$> L)))
      with (unscanned S (k, rs) + sum_list (unscanned S <$> L))%nat.
    destruct (decide (k = u)) as [->|Hku].
    + assert (routes = rs) as ->.
      { destruct Hin as [[[=]|Hin]%elem_of_cons|[_ Hn]]; [done| |set_solver].
        exfalso. apply Hk. apply list_elem_of_fmap. by exists (u, routes). }
      assert (sum_list (unscanned (u :: S) <$> L) + length (@nil (string * bag))
              <= sum_list (unscanned S <$> L))%nat as IH'.
      { apply IH. right. done. }
      assert (unscanned (u :: S) (u, rs) = 0%nat) as ->.
      { unfold unscanned. simpl. by rewrite decide_True by set_solver. }
      assert (unscanned S (u, rs) = length rs) as ->.
      { unfold unscanned. simpl. by rewrite decide_False by done. }
      simpl in IH'. lia.
    + assert (unscanned (u :: S) (k, rs) = unscanned S (k, rs)) as ->.
      { unfold unscanned. simpl. destruct (decide (k ∈ S)).
        - by rewrite decide_True by set_solver.
        - by rewrite decide_False by set_solver. }
      assert (sum_list (unscanned (u :: S) <$> L) + length routes
              <= sum_list (unscanned S <$> L))%nat; [|lia].
      apply IH. destruct Hin as [[[=]|Hin]%elem_of_cons|[-> Hn]].
      * congruence.
      * by left.
      * right. split; [done|]. set_solver.
Qed.

Lemma budget_settle u S :
  u ∉ S → (budget (u :: S) + length (routes_of u) <= budget S)%nat.
Proof.
  intros Hu. apply sum_unscanned_settle; [apply NoDup_fst_map_to_list|done|].
  unfold routes_of. destruct (adjacency !! u) as [routes|] eqn:Hr; simpl.
  - left. by apply elem_of_map_to_list.
  - right. split; [done|]. intros ([k x] & -> & Hin)%list_elem_of_fmap.
    apply elem_of_map_to_list in Hin. simpl in Hr. congruence.
Qed.

(** The search stops with the queue empty, or with an entry of the
    destination that is least in the queue. *)
Definition at_exit (st : search) : Prop :=
  heap st = [] ∨ ∃ c, (c, dest) ∈ heap st ∧ ∀ e, e ∈ heap st → (c <= e.1)%Q.

Lemma search_loop_exits (fuel : nat) (S : list string) (st : search) :
  inv S routes_of st → (length (heap st) + budget S < fuel)%nat →
  ∃ S' st0 st',
    search_loop fuel adjacency dest st = Some (Ok st') ∧
    inv S' routes_of st0 ∧ dist st' = dist st0 ∧ prev st' = prev st0 ∧
    at_exit st0 ∧
    (length S' <= length S + length (heap st) + budget S)%nat.
Proof.
  revert S st. induction fuel as [|fuel IH]; intros S st Hinv Hfuel; [lia|].
  simpl. destruct (heappop (heap st)) as [[[c u] h']|] eqn:Hpop.
  2:{ exists S, st, st. split_and!; try done; [|lia].
      left. by destruct (heap st). }
  pose proof Hpop as [Hperm Hmin]%heappop_spec.
  assert (Hlen : length (heap st) = Datatypes.S (length h')).
  { by rewrite <- Hperm. }
  assert (Hcu : (c, u) ∈ heap st) by (rewrite <- Hperm; set_solver).
  destruct (String.eqb_spec u dest) as [->|Hud].
  { exists S, st, (popped st h'). split_and!; try done; [|lia].
    right. exists c. split; [done|]. intros e He. by apply (Hmin e). }
  fold (popped st h'). change (dist (popped st h')) with (dist st).
  destruct (stale c (dist st !! u)) eqn:Hst.
  { destruct (IH S (popped st h')) as (S' & st0 & st' & ? & ? & ? & ? & ? & ?).
    - by eapply pop_stale.
    - simpl. lia.
    - exists S', st0, st'. split_and!; try done. simpl in *. lia. }
  fold (routes_of u).
  destruct (decide (u ∈ S)) as [Hu|Hu].
  { destruct (inv_heap _ _ _ Hinv c u Hcu) as (du & Hdu & Hduc).
    rewrite (relax_settled S u du c (routes_of u) (popped st h')); try done;
      [|by eapply pop_settled].
    destruct (IH S (popped st h')) as (S' & st0 & st' & ? & ? & ? & ? & ? & ?).
    - by eapply pop_settled.
    - simpl. lia.
    - exists S', st0, st'. split_and!; try done. simpl in *. lia. }
  pose proof (pop_fresh S st c u h' Hinv Hpop Hud Hst Hu) as Hsc.
  destruct (relax_all S u c [] (routes_of u) (popped st h') Hsc)
    as (st1 & -> & Hsc1 & Hlen1); [done|].
  simpl in Hsc1, Hlen1. apply scanning_done in Hsc1.
  pose proof (budget_settle u S Hu) as Hb.
  destruct (IH (u :: S) st1 Hsc1) as (S' & st0 & st' & ? & ? & ? & ? & ? & ?); [lia|].
  exists S', st0, st'. split_and!; try done. simpl in *. lia.
Qed.

(** *** The reconstruction of the path *)

(** The distance added is that of the first route listed for [v]. *)
Lemma add_first_distance_listed routes v a total :
  (v, a) ∈ routes →
  (∀ a', (v, a') ∈ routes → ∃ b, py_num (approx_distance_km a') = Ok b) →
  ∃ total',
    add_first_distance v total routes = Ok total' ∧
    ((∀ a', (v, a') ∈ routes → a' = a) → total' = (total + distance_of a)%Q).
Proof.
  intros Hin Hnum. induction routes as [|[n a'] routes IH]; simpl.
  - by apply elem_of_nil in Hin.
  - destruct (String.eqb_spec n v) as [->|Hn].
    + destruct (Hnum a') as [b Hb]; [set_solver|]. rewrite Hb. simpl.
      eexists. split; [done|]. intros Hsame.
      rewrite <- (Hsame a') by set_solver. unfold distance_of. by rewrite Hb.
    + destruct IH as (total' & -> & Hsame').
      * apply elem_of_cons in Hin as [[=]|]; done.
      * intros a'' Ha''. apply Hnum. set_solver.
      * exists total'. split; [done|]. intros Hsame. apply Hsame'.
        intros a'' Ha''. apply Hsame. set_solver.
Qed.

(** [rebuilt st n v dv]: a route of at most [n] steps leads from
    [start] to [v] at the cost [dv], and the reconstruction follows it
    back from [v]. *)
Definition rebuilt (st : search) (n : nat) (v : string) (dv : Q) : Prop :=
  ∃ r, route adjacency start r v ∧ (route_weight r == dv)%Q ∧
       (length r <= n)%nat ∧
       ∀ fuel path total, (length r <= fuel)%nat →
       ∃ total',
         rebuild fuel adjacency (prev st) start v path total
           = Some (Ok (path ++ rev r.*1, total')) ∧
         (simple adjacency → (total' == total + route_distance r)%Q).

Lemma rebuilt_start st n : rebuilt st n start 0%Q.
Proof.
  exists []. split_and!; [constructor|done|simpl; lia|].
  intros fuel path total _. exists total.
  split; [|simpl; lra].
  destruct fuel; simpl; rewrite String.eqb_refl; by rewrite app_nil_r.
Qed.

Lemma rebuilt_step st n u du v dv a w :
  v ≠ start → prev st !! v = Some u → (v, a) ∈ routes_of u →
  edge_weight a = Ok w → (dv == du + w)%Q →
  rebuilt st n u du → rebuilt st (Datatypes.S n) v dv.
Proof.
  intros Hvs Hprev Hva Hw Hdv (r & Hr & Hrw & Hlen & Hreb).
  assert (∃ routes, adjacency !! u = Some routes ∧ (v, a) ∈ routes)
    as (routes & Hu & Hin).
  { unfold routes_of in Hva. destruct (adjacency !! u) as [routes|]; simpl in Hva.
    - by exists routes.
    - by apply elem_of_nil in Hva. }
  exists (r ++ [(v, a)]). split_and!.
  - by eapply route_snoc.
  - rewrite route_weight_snoc. unfold weight_of. simpl. rewrite Hw. lra.
  - rewrite length_app. simpl. lia.
  - intros fuel path total Hfuel.
    rewrite length_app in Hfuel. simpl in Hfuel.
    destruct fuel as [|fuel]; [lia|]. simpl.
    destruct (String.eqb_spec v start) as [|_]; [done|].
    rewrite Hprev, Hu. simpl.
    destruct (add_first_distance_listed routes v a total Hin) as (total1 & -> & Hfirst).
    { intros a' Ha'. destruct (Hweighted u routes v a' Hu Ha') as (w' & Hw' & _).
      destruct (edge_weight_Ok a' w' Hw') as (d & b & _ & Hb & _). by exists b. }
    destruct (Hreb fuel (path ++ [v]) total1) as (total' & -> & Ht); [lia|].
    exists total'. split.
    + rewrite fmap_app, rev_app_distr. simpl. by rewrite <- app_assoc.
    + intros Hsimple. rewrite (Ht Hsimple), route_distance_snoc. simpl.
      rewrite Hfirst; [lra|]. intros a' Ha'. symmetry. by eapply Hsimple.
Qed.

Lemma rebuilt_settled S st :
  inv S routes_of st →
  ∀ S2 S1 v dv, S = S1 ++ S2 → v ∈ S2 → dist st !! v = Some dv →
  rebuilt st (length S2) v dv.
Proof.
  intros Hinv. induction S2 as [|x S2 IH]; intros S1 v dv HS Hv Hdv.
  - by apply elem_of_nil in Hv.
  - assert (HS' : S = (S1 ++ [x]) ++ S2) by (by rewrite <- app_assoc).
    destruct (decide (v ∈ S2)) as [Hin|Hnin].
    { destruct (IH (S1 ++ [x]) v dv HS' Hin Hdv) as (r & ? & ? & ? & ?).
      exists r. split_and!; try done. simpl. lia. }
    assert (v = x) as <- by set_solver.
    destruct (decide (v = start)) as [->|Hvs].
    { assert (dv = 0%Q) as ->.
      { pose proof (inv_start _ _ _ Hinv). congruence. }
      apply rebuilt_start. }
    destruct (inv_prev _ _ _ Hinv v dv Hdv Hvs)
      as (u & du & a & w & Hp & Hu & Hdu & Ha & Hw & Heq & Hord).
    simpl. eapply rebuilt_step; try done.
    eapply (IH (S1 ++ [v])); [done| |done]. by eapply Hord.
Qed.

Lemma rebuilt_any S st v dv :
  inv S routes_of st → dist st !! v = Some dv →
  rebuilt st (Datatypes.S (length S)) v dv.
Proof.
  intros Hinv Hdv.
  destruct (decide (v = start)) as [->|Hvs].
  { assert (dv = 0%Q) as ->.
    { pose proof (inv_start _ _ _ Hinv). congruence. }
    apply rebuilt_start. }
  destruct (inv_prev _ _ _ Hinv v dv Hdv Hvs)
    as (u & du & a & w & Hp & Hu & Hdu & Ha & Hw & Heq & Hord).
  eapply rebuilt_step; try done.
  by eapply (rebuilt_settled S st Hinv S []).
Qed.

End Search.

(** *** The result of [shortest_path] *)

(** The number of pairs in the adjacency lists. *)
Definition edge_count (adjacency : adjacency_t) : nat :=
  sum_list ((λ p, length p.2) <$> map_to_list adjacency).

Lemma budget_nil (adjacency : adjacency_t) : budget adjacency [] = edge_count adjacency.
Proof.
  unfold budget, edge_count. f_equal.
Qed.

Lemma search_result (adjacency : adjacency_t) (start dest : string) (fuel : nat) :
  weighted adjacency → (edge_count adjacency + 2 <= fuel)%nat →
  ∃ S st0 st',
    search_loop fuel adjacency dest
      {| dist := {[ start := 0%Q ]}; prev := ∅; heap := [(0%Q, start)] |}
      = Some (Ok st') ∧
    inv adjacency start dest S (routes_of adjacency) st0 ∧
    dist st' = dist st0 ∧ prev st' = prev st0 ∧
    at_exit dest st0 ∧
    (length S <= edge_count adjacency + 1)%nat.
Proof.
  intros Hw Hfuel.
  destruct (search_loop_exits adjacency start dest Hw fuel []
              {| dist := {[ start := 0%Q ]}; prev := ∅; heap := [(0%Q, start)] |})
    as (S & st0 & st' & ? & ? & ? & ? & ? & Hlen).
  - by apply inv_init.
  - rewrite budget_nil. simpl. lia.
  - exists S, st0, st'. split_and!; try done.
    rewrite budget_nil in Hlen. simpl in Hlen. lia.
Qed.

Lemma falsy_Some (s : string) : s ≠ "" → falsy (Some s) = false.
Proof. intros Hs. simpl. by destruct (String.eqb_spec s ""). Qed.

Lemma shortest_path_reachable (adjacency : adjacency_t) (start dest : string)
    (fuel : nat) :
  weighted adjacency →
  start ≠ "" → dest ≠ "" → start ≠ dest →
  (∃ r, route adjacency start r dest) →
  (edge_count adjacency + 2 <= fuel)%nat →
  ∃ r total weighted_cost,
    shortest_path fuel adjacency (Some start) (Some dest)
      = Some (Ok (start :: r.*1, total, weighted_cost)) ∧
    route adjacency start r dest ∧
    (weighted_cost == route_weight r)%Q ∧
    (∀ r', route adjacency start r' dest → (weighted_cost <= route_weight r')%Q) ∧
    (simple adjacency → (total == route_distance r)%Q).
Proof.
  intros Hw Hs Hd Hsd [r0 Hr0] Hfuel.
  unfold Travel.shortest_path. rewrite !falsy_Some by done. simpl.
  destruct (String.eqb_spec start dest) as [|_]; [done|].
  destruct (search_result adjacency start dest fuel Hw Hfuel)
    as (S & st0 & st' & -> & Hinv & Hdist & Hprev & Hexit & Hlen).
  assert (Hopen : ∀ r', route adjacency start r' dest →
            ∃ y d, (d, y) ∈ heap st0 ∧ (d <= route_weight r')%Q).
  { intros r' Hr'.
    destruct (route_lower_bound adjacency start dest Hw S st0 r' dest Hinv Hr')
      as (y & d & Hy & Hle & HyS).
    exists y, d. split; [|done]. apply (inv_open _ _ _ _ _ _ Hinv); [done|].
    intros Hin. apply (inv_dest _ _ _ _ _ _ Hinv). by rewrite <- (HyS Hin). }
  destruct Hexit as [Hnil|(c & Hc & Hmin)].
  { destruct (Hopen r0 Hr0) as (y & d & Hin & _). rewrite Hnil in Hin.
    by apply elem_of_nil in Hin. }
  destruct (inv_heap _ _ _ _ _ _ Hinv c dest Hc) as (dd & Hdd & Hddc).
  rewrite Hdist, Hdd, Hprev.
  destruct (rebuilt_any adjacency start dest Hw S st0 dest dd Hinv Hdd)
    as (r & Hr & Hrw & Hrlen & Hreb).
  destruct (Hreb fuel [] 0%Q) as (total & -> & Htotal); [lia|].
  exists r, total, dd. split_and!.
  - simpl. rewrite rev_app_distr. simpl. by rewrite rev_involutive.
  - done.
  - lra.
  - intros r' Hr'. destruct (Hopen r' Hr') as (y & d & Hin & Hle).
    specialize (Hmin (d, y) Hin). simpl in Hmin. lra.
  - intros Hsimple. rewrite (Htotal Hsimple). lra.
Qed.

Lemma shortest_path_unreachable (adjacency : adjacency_t) (start dest : string)
    (fuel : nat) :
  weighted adjacency →
  start ≠ "" → dest ≠ "" → start ≠ dest →
  (∀ r, ¬ route adjacency start r dest) →
  (edge_count adjacency + 2 <= fuel)%nat →
  shortest_path fuel adjacency (Some start) (Some dest) = Some (Ok ([], 0%Q, 0%Q)).
Proof.
  intros Hw Hs Hd Hsd Hno Hfuel.
  unfold Travel.shortest_path. rewrite !falsy_Some by done. simpl.
  destruct (String.eqb_spec start dest) as [|_]; [done|].
  destruct (search_result adjacency start dest fuel Hw Hfuel)
    as (S & st0 & st' & -> & Hinv & Hdist & Hprev & Hexit & Hlen).
  rewrite Hdist. destruct (dist st0 !! dest) as [dd|] eqn:Hdd; [|done].
  destruct (rebuilt_any adjacency start dest Hw S st0 dest dd Hinv Hdd)
    as (r & Hr & _). by destruct (Hno r).
Qed.

(** More fuel does not change a result. *)
Lemma search_loop_more (fuel fuel' : nat) (adjacency : adjacency_t) dest st r :
  search_loop fuel adjacency dest st = Some r → (fuel <= fuel')%nat →
  search_loop fuel' adjacency dest st = Some r.
Proof.
  revert fuel' st. induction fuel as [|fuel IH]; intros fuel' st; [done|].
  destruct fuel' as [|fuel']; [lia|]. simpl. intros H Hle.
  destruct (heappop (heap st)) as [[[cost node] h']|]; [|done].
  destruct (String.eqb node dest); [done|].
  destruct (stale cost _); [apply IH; [done|lia]|].
  destruct (res_fold _ _ _); [apply IH; [done|lia]|done].
Qed.

Lemma rebuild_more (fuel fuel' : nat) (adjacency : adjacency_t) prev start cur
    path total r :
  rebuild fuel adjacency prev start cur path total = Some r → (fuel <= fuel')%nat →
  rebuild fuel' adjacency prev start cur path total = Some r.
Proof.
  revert fuel' cur path total.
  induction fuel as [|fuel IH]; intros fuel' cur path total.
  - simpl. destruct fuel'; simpl; destruct (String.eqb cur start); done.
  - destruct fuel' as [|fuel']; [lia|]. simpl. intros H Hle.
    destruct (String.eqb cur start); [done|].
    destruct (prev !! cur); [|done].
    destruct (add_first_distance _ _ _); [apply IH; [done|lia]|done].
Qed.

Lemma shortest_path_more (fuel fuel' : nat) (adjacency : adjacency_t) start dest r :
  shortest_path fuel adjacency start dest = Some r → (fuel <= fuel')%nat →
  shortest_path fuel' adjacency start dest = Some r.
Proof.
  unfold Travel.shortest_path. intros H Hle.
  destruct (falsy start || falsy dest); [done|].
  destruct start as [start|], dest as [dest|]; try done.
  destruct (String.eqb start dest); [done|].
  destruct (search_loop fuel _ _ _) as [[st|e]|] eqn:Hloop; [| |done].
  - rewrite (search_loop_more _ _ _ _ _ _ Hloop Hle).
    destruct (dist st !! dest); [|done].
    destruct (rebuild fuel _ _ _ _ _ _) as [[[path total]|e]|] eqn:Hreb; [| |done].
    + by rewrite (rebuild_more _ _ _ _ _ _ _ _ _ Hreb Hle).
    + by rewrite (rebuild_more _ _ _ _ _ _ _ _ _ Hreb Hle).
  - by rewrite (search_loop_more _ _ _ _ _ _ Hloop Hle).
Qed.

(** A node that has no routes and is the neighbor of no node. *)
Definition absent (adjacency : adjacency_t) (x : string) : Prop :=
  routes_of adjacency x = [] ∧
  ∀ u routes, adjacency !! u = Some routes → x ∉ routes.*1.

Lemma route_absent (adjacency : adjacency_t) (start dest : string) r :
  start ≠ dest → absent adjacency start ∨ absent adjacency dest →
  ¬ route adjacency start r dest.
Proof.
  intros Hsd Habs Hr.
  assert (Hfirst : ∀ r x, route adjacency start r x →
            x = start ∨ routes_of adjacency start ≠ []).
  { clear. induction 1 as [|r v routes x a Hr IH Hv Hin]; [by left|].
    right. destruct IH as [->|IH]; [|done].
    unfold routes_of. rewrite Hv. simpl. intros ->. by apply elem_of_nil in Hin. }
  destruct Habs as [[Hnone _]|[_ Hin]].
  - destruct (Hfirst r dest Hr) as [->|]; done.
  - destruct Hr as [|r v routes x a Hr Hv Ha]; [done|].
    apply (Hin v routes Hv). apply list_elem_of_fmap. by exists (x, a).
Qed.

(** The line A - B - C - D of three routes of 10 km, the middle one
    with a difficulty factor of 0.5. *)
Definition plain_route : bag := {[ "approx_distance_km" := VNum 10 ]}.

Definition hard_route : bag :=
  {[ "approx_distance_km" := VNum 10; "difficulty_factor" := VNum (1 # 2) ]}.

Definition line_routes : adjacency_t :=
  {[ "A" := [("B", plain_route)];
     "B" := [("A", plain_route); ("C", hard_route)];
     "C" := [("B", hard_route); ("D", plain_route)];
     "D" := [("C", plain_route)] ]}.

(** C1, as the code has it.  Over an adjacency view in which every
    route has a weight that is not negative, for distinct non-empty
    [start] and [dest] with [dest] reachable, [shortest_path] (given
    fuel for as many rounds as there are routes, and two more) returns
    the nodes of a route from [start] to [dest], [start] and [dest]
    included, and the weighted cost of that route, which no route from
    [start] to [dest] undercuts; where two routes between the same nodes
    have the same attributes, the distance it returns is the sum of the
    physical distances of the steps of that route.  On the line
    A - B - C - D with distances 10, 10, 10 and a difficulty factor of
    0.5 between B and C the weighted cost is 25 and the physical
    distance 30. *)
Theorem shortest_path_minimal :
  (∀ (adjacency : adjacency_t) (start dest : string) (fuel : nat),
     weighted adjacency →
     start ≠ "" → dest ≠ "" → start ≠ dest →
     (∃ r, route adjacency start r dest) →
     (edge_count adjacency + 2 <= fuel)%nat →
     ∃ r total weighted_cost,
       shortest_path fuel adjacency (Some start) (Some dest)
         = Some (Ok (start :: r.*1, total, weighted_cost)) ∧
       route adjacency start r dest ∧
       (weighted_cost == route_weight r)%Q ∧
       (∀ r', route adjacency start r' dest →
              (weighted_cost <= route_weight r')%Q) ∧
       (simple adjacency → (total == route_distance r)%Q)) ∧
  (shortest_path 8 line_routes (Some "A") (Some "D")
     = Some (Ok (["A"; "B"; "C"; "D"], 30, 50 # 2)%Q) ∧
   (50 # 2 == 25)%Q).
Proof.
  split.
  - apply shortest_path_reachable.
  - split; [vm_compute; reflexivity|reflexivity].
Qed.

(** C5, as the code has it.  [shortest_path] returns the empty path
    and two zero distances, and raises nothing, when [start] or [dest]
    is unset ([None] or the empty string), and when they are set and
    distinct, every route has a weight that is not negative, and no
    route leads from [start] to [dest] (given fuel for as many rounds as
    there are routes, and two more); no route leads from or to a node
    that is absent from the adjacency view. *)
Theorem shortest_path_no_route :
  (∀ (fuel : nat) (adjacency : adjacency_t) (start dest : option string),
     falsy start = true ∨ falsy dest = true →
     shortest_path fuel adjacency start dest = Some (Ok ([], 0%Q, 0%Q))) ∧
  (∀ (fuel : nat) (adjacency : adjacency_t) (start dest : string),
     weighted adjacency →
     start ≠ "" → dest ≠ "" → start ≠ dest →
     (∀ r, ¬ route adjacency start r dest) →
     (edge_count adjacency + 2 <= fuel)%nat →
     shortest_path fuel adjacency (Some start) (Some dest)
       = Some (Ok ([], 0%Q, 0%Q))) ∧
  (∀ (adjacency : adjacency_t) (start dest : string) r,
     start ≠ dest →
     absent adjacency start ∨ absent adjacency dest →
     ¬ route adjacency start r dest).
Proof.
  split_and!.
  - intros fuel adjacency start dest H. unfold Travel.shortest_path.
    by destruct H as [-> | ->]; rewrite ?orb_true_r.
  - intros. by apply shortest_path_unreachable.
  - intros. by apply route_absent.
Qed.

End TravelProofs.

(** ** The graph model *)

Lemma sorted_pair_comm (a b : string) : sorted_pair a b = sorted_pair b a.
Proof.
  unfold sorted_pair, String.ltb. rewrite (String.compare_antisym a b).
  destruct (String.compare b a) eqn:H; simpl; try done.
  apply String.compare_eq_iff in H. by subst.
Qed.

Lemma sorted_pair_idem (a b : string) :
  sorted_pair (sorted_pair a b).1 (sorted_pair a b).2 = sorted_pair a b.
Proof.
  unfold sorted_pair. destruct (String.ltb b a) eqn:H; simpl.
  - unfold String.ltb in *. rewrite (String.compare_antisym a b).
    by destruct (String.compare b a).
  - by rewrite H.
Qed.

Lemma merged_lookup (a b : bag) (k : string) :
  Graph.merged a b !! k = match b !! k with Some v => Some v | None => a !! k end.
Proof.
  unfold Graph.merged. rewrite lookup_union. by destruct (b !! k), (a !! k).
Qed.

Section GraphProofs.

Import Graph.

(** The marker fields [add_edge] writes before the caller's attributes. *)
Definition edge_marker (key : string * string) : bag :=
  {[ "nodes" := VList [VStr key.1; VStr key.2]; "undirected" := VBool true ]}.

Lemma add_edge_Ok (g g' : Graph.t) (a b : string) (attrs : bag) :
  add_edge g a b attrs = Ok g' →
  collides ["self"; "source"; "target"] attrs = false ∧
  a ∈ dom (nodes g) ∧ b ∈ dom (nodes g) ∧
  g' = {| nodes := nodes g;
          edges := <[sorted_pair a b :=
                       merged (default ∅ (edges g !! sorted_pair a b))
                         (merged (edge_marker (sorted_pair a b)) attrs)]> (edges g) |}.
Proof.
  unfold add_edge. destruct (collides _ attrs); [done|].
  destruct (contains (nodes g) a) eqn:Ha; [|done].
  destruct (contains (nodes g) b) eqn:Hb; [|done]. simpl.
  apply contains_true in Ha, Hb.
  destruct (edges g !! sorted_pair a b) as [old|] eqn:Hold; intros [= <-];
    split_and!; try done.
  simpl. unfold merged at 2. by rewrite (right_id_L ∅ (∪)).
Qed.

Lemma add_edge_comm (g : Graph.t) (a b : string) (attrs : bag) :
  add_edge g a b attrs = add_edge g b a attrs.
Proof.
  unfold add_edge. rewrite (sorted_pair_comm a b).
  destruct (collides _ attrs); [done|].
  by destruct (contains (nodes g) a), (contains (nodes g) b).
Qed.

(** *** The edge list of the editor *)

(** The test [f] returns true on [x]. *)
Definition holds {A} (f : A → res bool) (x : A) : bool :=
  match f x with
  | Ok b => b
  | Raise _ => false
  end.

Lemma find_index_Some {A} (f : A → res bool) (l : list A) (i : nat) :
  GraphData.find_index f l = Ok (Some i) →
  ∃ l1 x l2, l = l1 ++ x :: l2 ∧ length l1 = i ∧ f x = Ok true ∧
             Forall (λ y, f y = Ok false) l1.
Proof.
  revert i. induction l as [|y l IH]; intros i; simpl; [done|].
  destruct (f y) as [[|]|] eqn:Hy; simpl; [| |done].
  - intros [= <-]. by exists [], y, l.
  - destruct (GraphData.find_index f l) as [[j|]|]; simpl; [|done..].
    intros [= <-].
    destruct (IH j eq_refl) as (l1 & x & l2 & -> & Hlen & Hx & Hl1).
    exists (y :: l1), x, l2. simpl. rewrite Hlen. split_and!; try done.
    by apply Forall_cons.
Qed.

Lemma find_index_None {A} (f : A → res bool) (l : list A) :
  GraphData.find_index f l = Ok None → Forall (λ y, f y = Ok false) l.
Proof.
  induction l as [|y l IH]; simpl; [done|].
  destruct (f y) as [[|]|] eqn:Hy; simpl; [done| |done].
  destruct (GraphData.find_index f l) as [[j|]|]; simpl; [done| |done].
  intros _. apply Forall_cons. auto.
Qed.

Lemma find_index_app {A} (f : A → res bool) (l1 l2 : list A) (x : A) :
  Forall (λ y, f y = Ok false) l1 → f x = Ok true →
  GraphData.find_index f (l1 ++ x :: l2) = Ok (Some (length l1)).
Proof.
  intros Hl1 Hx. induction Hl1 as [|y l1 Hy _ IH]; simpl; [by rewrite Hx|].
  rewrite Hy. simpl. by rewrite IH.
Qed.

Lemma find_index_nil {A} (f : A → res bool) (l : list A) :
  Forall (λ y, f y = Ok false) l → GraphData.find_index f l = Ok None.
Proof.
  intros Hl. induction Hl as [|y l Hy _ IH]; simpl; [done|].
  rewrite Hy. simpl. by rewrite IH.
Qed.

(** A test that returns on every element finds something or nothing. *)
Lemma find_index_returns {A} (f : A → res bool) (l : list A) :
  Forall (λ y, ∃ b, f y = Ok b) l → ∃ i, GraphData.find_index f l = Ok i.
Proof.
  intros Hl. induction Hl as [|y l [b Hy] _ [i IH]]; simpl; [by eexists|].
  rewrite Hy. simpl. destruct b; [by eexists|]. rewrite IH. simpl. by eexists.
Qed.

Lemma filter_holds_nil {A} (f : A → res bool) (l : list A) :
  Forall (λ y, f y = Ok false) l → List.filter (holds f) l = [].
Proof.
  intros Hl. induction Hl as [|y l Hy _ IH]; simpl; [done|].
  unfold holds at 1. by rewrite Hy.
Qed.

Lemma filter_not_holds_id {A} (f : A → res bool) (l : list A) :
  Forall (λ y, f y = Ok false) l → List.filter (λ y, negb (holds f y)) l = l.
Proof.
  intros Hl. induction Hl as [|y l Hy _ IH]; simpl; [done|].
  unfold holds at 1. rewrite Hy. simpl. by rewrite IH.
Qed.

(** What a comprehension with a test that returns keeps. *)
Lemma reject_Ok {A} (f : A → res bool) (l kept : list A) :
  GraphData.reject f l = Ok kept ↔
  Forall (λ y, ∃ b, f y = Ok b) l ∧ kept = List.filter (λ y, negb (holds f y)) l.
Proof.
  revert kept. induction l as [|y l IH]; intros kept; simpl.
  - split; [by intros [= <-]|by intros [_ ->]].
  - unfold holds at 1. destruct (f y) as [b|e] eqn:Hy; simpl.
    + destruct (GraphData.reject f l) as [kept'|e] eqn:Hl; simpl.
      * destruct (IH kept') as [[Hall ->] _]; [done|]. split.
        -- intros [= <-]. split; [apply Forall_cons; eauto|]. by destruct b.
        -- intros [_ ->]. by destruct b.
      * split; [done|]. intros [[_ Hall]%Forall_cons _].
        by pose proof (proj2 (IH _) (conj Hall eq_refl)).
    + split; [done|]. intros [[[b Hb] _]%Forall_cons _]. congruence.
Qed.

Lemma reject_Raise {A} (f : A → res bool) (l : list A) (e : exn) :
  GraphData.reject f l = Raise e → ∃ y, y ∈ l ∧ f y = Raise e.
Proof.
  induction l as [|y l IH]; simpl; [done|].
  destruct (f y) as [b|e'] eqn:Hy; simpl.
  - destruct (GraphData.reject f l) as [kept'|e'] eqn:Hl; simpl; [done|].
    intros [= ->]. destruct (IH eq_refl) as (x & Hx & Hfx). exists x. set_solver.
  - intros [= ->]. exists y. set_solver.
Qed.

(** The edge [upsert_edge] stores. *)
Definition upserted (a b : string) (attrs : bag) : bag :=
  merged {[ "nodes" := VList [VStr (sorted_pair a b).1; VStr (sorted_pair a b).2] ]}
    attrs.

(** The pair of nodes of an edge that lists two strings under [nodes],
    in sorted order; [None] for any other edge. *)
Definition edge_pair (e : bag) : option (string * string) :=
  match e !! "nodes" with
  | Some (VList [VStr a; VStr b]) => Some (sorted_pair a b)
  | _ => None
  end.

(** An edge that holds a list of strings or a string under [nodes], or
    has no such field: the tests of [GraphData] return on it. *)
Definition plain_nodes (e : bag) : Prop :=
  match e !! "nodes" with
  | None | Some (VStr _) => True
  | Some (VList l) => forallb GraphData.is_string l = true
  | Some (VNull | VBool _ | VNum _) => False
  end.

(** An edge on which [in] does not raise. *)
Definition iterable (e : bag) : Prop :=
  match e !! "nodes" with
  | Some (VNull | VBool _ | VNum _) => False
  | _ => True
  end.

Lemma pair_eqb_eq (k key : string * string) :
  GraphData.pair_eqb k key = true ↔ k = key.
Proof.
  destruct k as [k1 k2], key as [x1 x2]. unfold GraphData.pair_eqb. simpl.
  rewrite andb_true_iff, !String.eqb_eq. naive_solver.
Qed.

Lemma has_key_pair (key k : string * string) (e : bag) :
  edge_pair e = Some k → GraphData.has_key key e = Ok (GraphData.pair_eqb k key).
Proof.
  unfold edge_pair, GraphData.has_key.
  destruct (e !! "nodes") as [[| | | |[|[| | |a|] [|[| | |b|] [|]]]]|]; try done.
  intros [= <-]. reflexivity.
Qed.

Lemma has_key_true (key : string * string) (e : bag) :
  edge_pair e = Some key → GraphData.has_key key e = Ok true.
Proof.
  intros H. rewrite (has_key_pair key key e H).
  by rewrite (proj2 (pair_eqb_eq key key)).
Qed.

Lemma has_key_plain (key : string * string) (e : bag) :
  plain_nodes e → ∃ b, GraphData.has_key key e = Ok b.
Proof.
  unfold plain_nodes, GraphData.has_key.
  destruct (e !! "nodes") as [[| | |s|l]|]; try done.
  - intros _. destruct s as [|c1 [|c2 [|]]]; eexists; reflexivity.
  - intros Hl. destruct l as [|x [|y l]]; [eexists; reflexivity..|].
    rewrite Hl. eexists; reflexivity.
  - eexists; reflexivity.
Qed.

Lemma references_iterable (X : string) (e : bag) :
  iterable e ↔ ∃ b, GraphData.references X e = Ok b.
Proof.
  unfold iterable, GraphData.references.
  destruct (e !! "nodes") as [[| | | |]|]; split; try done; try (by eexists);
    by intros [? ?].
Qed.

Lemma upserted_pair (a b : string) (attrs : bag) :
  attrs !! "nodes" = None → edge_pair (upserted a b attrs) = Some (sorted_pair a b).
Proof.
  intros Hn. unfold edge_pair, upserted.
  rewrite merged_lookup, Hn, lookup_singleton_eq.
  by rewrite sorted_pair_idem.
Qed.

Lemma upserted_key (a b : string) (attrs : bag) :
  attrs !! "nodes" = None →
  GraphData.has_key (sorted_pair a b) (upserted a b attrs) = Ok true.
Proof. intros Hn. by apply has_key_true, upserted_pair. Qed.

(** [upsert_edge] appends the edge when the test fails on every edge, and
    puts it in the place of the first edge on which it succeeds. *)
Lemma upsert_edge_shape (g g' : GraphData.t) (a b : string) (attrs : bag) :
  GraphData.upsert_edge g a b attrs = Ok g' →
  let key := sorted_pair a b in
  GraphData.nodes g' = GraphData.nodes g ∧
  ((GraphData.find_edge_index g a b = Ok None ∧
    Forall (λ e, GraphData.has_key key e = Ok false) (GraphData.edges g) ∧
    GraphData.edges g' = GraphData.edges g ++ [upserted a b attrs]) ∨
   (∃ l1 old l2,
      GraphData.find_edge_index g a b = Ok (Some (length l1)) ∧
      GraphData.edges g = l1 ++ old :: l2 ∧
      Forall (λ e, GraphData.has_key key e = Ok false) l1 ∧
      GraphData.has_key key old = Ok true ∧
      GraphData.edges g' = l1 ++ upserted a b attrs :: l2)).
Proof.
  intros Hg' key. unfold GraphData.upsert_edge in Hg'. fold key in Hg'.
  destruct (GraphData.find_edge_index g a b) as [[i|]|] eqn:Hi; simpl in Hg';
    [| |done]; injection Hg' as <-; (split; [done|]).
  - right. apply find_index_Some in Hi as (l1 & old & l2 & Hl & Hlen & Hold & Hl1).
    exists l1, old, l2. subst i. split_and!; try done. simpl. rewrite Hl.
    rewrite insert_app_r_alt by lia. by rewrite Nat.sub_diag.
  - left. split; [done|]. split; [|done]. by apply find_index_None in Hi.
Qed.

Lemma upsert_edge_returns (g : GraphData.t) (a b : string) (attrs : bag) :
  Forall plain_nodes (GraphData.edges g) →
  ∃ g', GraphData.upsert_edge g a b attrs = Ok g'.
Proof.
  intros Hg. unfold GraphData.upsert_edge, GraphData.find_edge_index.
  destruct (find_index_returns (GraphData.has_key (sorted_pair a b))
              (GraphData.edges g)) as [[i|] ->]; simpl; [|by eexists..].
  eapply Forall_impl; [exact Hg|]. intros e. apply has_key_plain.
Qed.

(** C4, as the code has it.  [add_edge(A, B, attrs)] and
    [add_edge(B, A, attrs)] have the same outcome, and so have the two
    calls of [upsert_edge]; both store the edge under the sorted pair.
    [add_edge] keeps the other edges and merges into the bag of the pair:
    a field of [attrs] takes its new value, the fields [nodes] and
    [undirected] are written afresh unless [attrs] has them, and every
    other field keeps the value it had.  [upsert_edge] returns on every
    graph whose edges hold a list of strings or a string under [nodes],
    or nothing.  When it returns, it has kept the nodes, the other edges
    and their order, and has put in the place of the first edge found
    for the pair, or at the end when none is found, an edge that holds
    [nodes] and the fields of [attrs] only: it keeps no field of the
    edge it replaces.  With no [nodes] field in [attrs], the edge stored
    is found for the pair, and no second edge is added for it. *)
Theorem edge_insert_canonical :
  (∀ (g : Graph.t) a b attrs, add_edge g a b attrs = add_edge g b a attrs) ∧
  (∀ (g g' : Graph.t) a b attrs,
     add_edge g a b attrs = Ok g' →
     let key := sorted_pair a b in
     let old := default ∅ (edges g !! key) in
     nodes g' = nodes g ∧
     dom (edges g') = {[ key ]} ∪ dom (edges g) ∧
     (∀ k, k ≠ key → edges g' !! k = edges g !! k) ∧
     ∃ stored,
       edges g' !! key = Some stored ∧
       ∀ field,
         stored !! field =
           match attrs !! field with
           | Some v => Some v
           | None =>
               match edge_marker key !! field with
               | Some v => Some v
               | None => old !! field
               end
           end) ∧
  (∀ (g : GraphData.t) a b attrs,
     GraphData.upsert_edge g a b attrs = GraphData.upsert_edge g b a attrs) ∧
  (∀ (g : GraphData.t) a b attrs,
     Forall plain_nodes (GraphData.edges g) →
     ∃ g', GraphData.upsert_edge g a b attrs = Ok g') ∧
  (∀ (g g' : GraphData.t) a b attrs,
     GraphData.upsert_edge g a b attrs = Ok g' →
     let key := sorted_pair a b in
     let stored := upserted a b attrs in
     let found := holds (GraphData.has_key key) in
     GraphData.nodes g' = GraphData.nodes g ∧
     stored ∈ GraphData.edges g' ∧
     (∀ field, stored !! field =
        match attrs !! field with
        | Some v => Some v
        | None => if decide (field = "nodes")
                  then Some (VList [VStr key.1; VStr key.2]) else None
        end) ∧
     match GraphData.find_edge_index g a b with
     | Ok (Some i) =>
         (i < length (GraphData.edges g))%nat ∧
         GraphData.edges g' = <[i := stored]> (GraphData.edges g)
     | _ => GraphData.edges g' = GraphData.edges g ++ [stored]
     end ∧
     length (GraphData.edges g')
       = match GraphData.find_edge_index g a b with
         | Ok None => S (length (GraphData.edges g))
         | _ => length (GraphData.edges g)
         end ∧
     (attrs !! "nodes" = None →
      GraphData.has_key key stored = Ok true ∧
      length (List.filter found (GraphData.edges g'))
        = Nat.max 1 (length (List.filter found (GraphData.edges g))) ∧
      List.filter (λ e, negb (found e)) (GraphData.edges g')
        = List.filter (λ e, negb (found e)) (GraphData.edges g))).
Proof.
  split_and!.
  - apply add_edge_comm.
  - intros g g' a b attrs H key old.
    apply add_edge_Ok in H as (_ & _ & _ & ->). simpl. fold key. fold old.
    split_and!.
    + done.
    + by rewrite dom_insert_L.
    + intros k Hk. by rewrite lookup_insert_ne.
    + eexists. split; [apply lookup_insert_eq|].
      intros field. rewrite !merged_lookup.
      by destruct (attrs !! field), (edge_marker key !! field).
  - intros g a b attrs. unfold GraphData.upsert_edge, GraphData.find_edge_index.
    by rewrite (sorted_pair_comm a b).
  - apply upsert_edge_returns.
  - intros g g' a b attrs Hg' key stored found.
    assert (Hfield : ∀ field, stored !! field =
        match attrs !! field with
        | Some v => Some v
        | None => if decide (field = "nodes")
                  then Some (VList [VStr key.1; VStr key.2]) else None
        end).
    { intros field. unfold stored, upserted. rewrite merged_lookup.
      destruct (attrs !! field); [done|]. case_decide as Hf.
      - subst field. by rewrite lookup_singleton_eq.
      - by rewrite lookup_singleton_ne. }
    destruct (upsert_edge_shape g g' a b attrs Hg')
      as [Hnodes [(Hfind & Hnone & Hedges)|(l1 & old & l2 & Hfind & Hg & Hl1 & Hold & Hedges)]];
      fold key in Hnone || fold key in Hl1, Hold; fold stored in Hedges;
      rewrite Hedges, Hfind.
    + split_and!; try done.
      * set_solver.
      * rewrite length_app. simpl. lia.
      * intros Hn. pose proof (upserted_key a b attrs Hn) as Hkey.
        fold key in Hkey. fold stored in Hkey.
        assert (Hfound : found stored = true) by (unfold found, holds; by rewrite Hkey).
        split_and!; [done| |].
        -- rewrite List.filter_app. unfold found.
           rewrite (filter_holds_nil _ _ Hnone). simpl. fold found. by rewrite Hfound.
        -- rewrite List.filter_app. simpl. rewrite Hfound. simpl. by rewrite app_nil_r.
    + rewrite Hg. split_and!; try done.
      * set_solver.
      * rewrite length_app. simpl. lia.
      * rewrite insert_app_r_alt by lia. by rewrite Nat.sub_diag.
      * rewrite !length_app. simpl. lia.
      * intros Hn. pose proof (upserted_key a b attrs Hn) as Hkey.
        fold key in Hkey. fold stored in Hkey.
        assert (Hfound : found stored = true) by (unfold found, holds; by rewrite Hkey).
        assert (Hfound' : found old = true) by (unfold found, holds; by rewrite Hold).
        split_and!; [done| |].
        -- rewrite !List.filter_app. simpl. rewrite Hfound, Hfound'. simpl.
           rewrite !length_app. simpl. lia.
        -- rewrite !List.filter_app. simpl. by rewrite Hfound, Hfound'.
Qed.

Lemma foldl_delete_lookup {A} (m : gmap (string * string) A)
    (l : list (string * string)) (k : string * string) :
  foldl (λ m k, delete k m) m l !! k = if decide (k ∈ l) then None else m !! k.
Proof.
  revert m. induction l as [|k' l IH]; intros m; cbn [foldl].
  - destruct (decide (k ∈ [])) as [H%elem_of_nil|]; done.
  - rewrite IH. destruct (decide (k ∈ l)).
    + by rewrite decide_True by set_solver.
    + destruct (decide (k = k')) as [->|Hk].
      * rewrite decide_True by set_solver. apply lookup_delete_eq.
      * rewrite decide_False by set_solver. by apply lookup_delete_ne.
Qed.

(** The same for the graph of the map builder: no key of [edges] has
    [X] left, and the edges between other nodes are kept. *)
Lemma map_remove_node_cascades (g : GraphState.t) (X : string) :
  let g' := GraphState.remove_node g X in
  (X ∉ dom (GraphState.nodes g')) ∧
  (∀ k e, GraphState.edges g' !! k = Some e → k.1 ≠ X ∧ k.2 ≠ X) ∧
  (∀ k, k.1 ≠ X → k.2 ≠ X →
        GraphState.edges g' !! k = GraphState.edges g !! k).
Proof.
  assert (Hin : ∀ k, k ∈ List.filter (GraphState.in_key X)
                          (map_to_list (GraphState.edges g)).*1 ↔
                (is_Some (GraphState.edges g !! k) ∧ (X = k.1 ∨ X = k.2))).
  { intros k. rewrite list_elem_of_In, List.filter_In, <- list_elem_of_In.
    unfold GraphState.in_key. rewrite orb_true_iff, !String.eqb_eq.
    rewrite list_elem_of_fmap. split.
    - intros [([k' e] & -> & He) Hk]. apply elem_of_map_to_list in He. eauto.
    - intros [[e He] Hk]. split; [|done]. exists (k, e).
      split; [done|]. by apply elem_of_map_to_list. }
  simpl. split_and!.
  - rewrite dom_delete_L. set_solver.
  - intros k e. rewrite foldl_delete_lookup. case_decide as Hk; [done|].
    intros He. rewrite Hin in Hk. split; intros <-; apply Hk; eauto.
  - intros k H1 H2. rewrite foldl_delete_lookup. rewrite decide_False; [done|].
    rewrite Hin. intros [_ [?|?]]; by subst.
Qed.

(** C6. After [remove_node(X)] the node collection has no [X], and the
    other nodes are as they were.  The call returns exactly when no edge
    holds [None], a boolean or a number under [nodes]; the edges kept
    are then, in their order, the edges on which [X in nodes] is false:
    no edge kept lists [X] among its endpoints.  Otherwise the call
    raises a [TypeError] with the node deleted and every edge kept. *)
Theorem remove_node_cascades (g : GraphData.t) (X : string) :
  let g' := (GraphData.remove_node g X).1 in
  let outcome := (GraphData.remove_node g X).2 in
  (X ∉ dom (GraphData.nodes g')) ∧
  (∀ k, k ≠ X → GraphData.nodes g' !! k = GraphData.nodes g !! k) ∧
  (outcome = Ok () ↔ Forall iterable (GraphData.edges g)) ∧
  (outcome = Ok () →
   GraphData.edges g'
     = List.filter (λ e, negb (holds (GraphData.references X) e)) (GraphData.edges g) ∧
   ∀ e, e ∈ GraphData.edges g' →
     GraphData.references X e = Ok false ∧
     ∀ l, e !! "nodes" = Some (VList l) → VStr X ∉ l) ∧
  (∀ err, outcome = Raise err →
     err = TypeError ∧ GraphData.edges g' = GraphData.edges g).
Proof.
  intros g' outcome. unfold g', outcome, GraphData.remove_node.
  destruct (GraphData.reject _ _) as [kept|err] eqn:Hkept; simpl.
  - apply reject_Ok in Hkept as [Hall ->]. split_and!.
    + rewrite dom_delete_L. set_solver.
    + intros k Hk. by rewrite lookup_delete_ne.
    + split; [intros _|done].
      eapply Forall_impl; [exact Hall|]. intros e. apply references_iterable.
    + intros _. split; [done|]. intros e He.
      apply list_elem_of_In, List.filter_In in He as [He Hneg].
      apply list_elem_of_In in He. rewrite Forall_forall in Hall.
      destruct (Hall e He) as [b Hb]. unfold holds in Hneg. rewrite Hb in Hneg.
      destruct b; [done|]. split; [done|]. intros l Hl Hin.
      unfold GraphData.references in Hb. rewrite Hl in Hb. injection Hb as Hb.
      assert (existsb (GraphData.is_str X) l = true); [|congruence].
      apply existsb_exists. exists (VStr X).
      split; [by apply list_elem_of_In|]. simpl. apply String.eqb_refl.
    + done.
  - split_and!.
    + rewrite dom_delete_L. set_solver.
    + intros k Hk. by rewrite lookup_delete_ne.
    + split; [done|]. intros Hall. exfalso.
      apply reject_Raise in Hkept as (e & He & Hraise).
      rewrite Forall_forall in Hall.
      destruct (proj1 (references_iterable X e) (Hall e He)) as [b Hb]. congruence.
    + done.
    + intros err' [= <-]. split; [|done].
      apply reject_Raise in Hkept as (e & He & Hraise).
      unfold GraphData.references in Hraise.
      destruct (e !! "nodes") as [[| | | |]|]; congruence.
Qed.

(** *** Serialization *)

(** Graphs built by calls of [add_node] whose attributes have no [id]
    field and calls of [add_edge] whose attributes have no [nodes]
    field. *)
Inductive built : Graph.t → Prop :=
  | built_empty : built empty
  | built_add_node g g' node_id attrs :
      built g → attrs !! "id" = None →
      add_node g node_id attrs = Ok g' → built g'
  | built_add_edge g g' a b attrs :
      built g → attrs !! "nodes" = None →
      add_edge g a b attrs = Ok g' → built g'.

Lemma collides_false (params : list string) (attrs : bag) :
  collides params attrs = false ↔ ∀ p, p ∈ params → attrs !! p = None.
Proof.
  unfold collides. induction params as [|q params IH]; simpl.
  - split; [intros _ p Hp; by apply elem_of_nil in Hp|done].
  - rewrite orb_false_iff, IH, contains_false.
    split.
    + intros [Hq Hps] p [->|Hp]%elem_of_cons; auto.
    + intros H. split; [apply H; set_solver|]. intros p Hp. apply H. set_solver.
Qed.

Record well_formed (g : Graph.t) : Prop := {
  wf_node k n :
    nodes g !! k = Some n →
    n !! "id" = Some (VStr k) ∧ n !! "self" = None ∧ n !! "node_id" = None;
  wf_edge k e :
    edges g !! k = Some e →
    e !! "nodes" = Some (VList [VStr k.1; VStr k.2]) ∧
    is_Some (e !! "undirected") ∧
    e !! "self" = None ∧ e !! "source" = None ∧ e !! "target" = None ∧
    k.1 ∈ dom (nodes g) ∧ k.2 ∈ dom (nodes g) ∧
    sorted_pair k.1 k.2 = k
}.

Lemma sorted_pair_cases (a b : string) :
  sorted_pair a b = (a, b) ∨ sorted_pair a b = (b, a).
Proof. unfold sorted_pair. destruct (String.ltb b a); auto. Qed.

Lemma built_well_formed (g : Graph.t) : built g → well_formed g.
Proof.
  induction 1 as [|g g' node_id attrs _ IH Hid Hadd|g g' a b attrs _ IH Hn Hadd].
  - split; intros k x; simpl; by rewrite lookup_empty.
  - unfold add_node in Hadd.
    destruct (collides _ attrs) eqn:Hc; [done|].
    rewrite collides_false in Hc.
    assert (Hself : attrs !! "self" = None) by (apply Hc; set_solver).
    assert (Hnid : attrs !! "node_id" = None) by (apply Hc; set_solver).
    assert (∃ old, (old = ∅ ∨ nodes g !! node_id = Some old) ∧
      g' = {| nodes := <[node_id := merged old (merged {[ "id" := VStr node_id ]} attrs)]>
                         (nodes g);
              edges := edges g |}) as (old & Hold & ->).
    { destruct (nodes g !! node_id) as [old|] eqn:Ho; injection Hadd as <-.
      - exists old. auto.
      - exists ∅. split; [auto|]. unfold merged at 2. by rewrite (right_id_L ∅ (∪)). }
    split; simpl.
    + intros k n. destruct (decide (k = node_id)) as [->|Hk].
      * rewrite lookup_insert_eq. intros [= <-]. rewrite !merged_lookup, Hid, Hself, Hnid.
        rewrite lookup_singleton_eq, !lookup_singleton_ne by done.
        destruct Hold as [->|Ho]; [by rewrite !lookup_empty|].
        by destruct (wf_node g IH _ _ Ho) as (_ & -> & ->).
      * rewrite lookup_insert_ne by done. apply IH.
    + intros k e He. destruct (wf_edge g IH k e He) as (? & ? & ? & ? & ? & ? & ? & ?).
      split_and!; try done; rewrite dom_insert_L; set_solver.
  - pose proof Hadd as Hadd'.
    apply add_edge_Ok in Hadd' as (Hc & Ha & Hb & ->).
    rewrite collides_false in Hc.
    assert (Hself : attrs !! "self" = None) by (apply Hc; set_solver).
    assert (Hsrc : attrs !! "source" = None) by (apply Hc; set_solver).
    assert (Htgt : attrs !! "target" = None) by (apply Hc; set_solver).
    split; simpl; [apply IH|].
    intros k e. destruct (decide (k = sorted_pair a b)) as [->|Hk].
    + rewrite lookup_insert_eq. intros [= <-].
      rewrite !merged_lookup, Hn, Hself, Hsrc, Htgt. unfold edge_marker.
      assert (Hold : default ∅ (edges g !! sorted_pair a b) !! "self" = None ∧
                     default ∅ (edges g !! sorted_pair a b) !! "source" = None ∧
                     default ∅ (edges g !! sorted_pair a b) !! "target" = None).
      { destruct (edges g !! sorted_pair a b) as [old|] eqn:Ho; simpl;
          [|by rewrite !lookup_empty].
        by destruct (wf_edge g IH _ _ Ho) as (_ & _ & ? & ? & ? & _). }
      destruct Hold as (-> & -> & ->).
      split_and!; try done.
      * destruct (attrs !! "undirected"); by eexists.
      * destruct (sorted_pair_cases a b) as [-> | ->]; done.
      * destruct (sorted_pair_cases a b) as [-> | ->]; done.
      * apply sorted_pair_idem.
    + rewrite lookup_insert_ne by done. apply IH.
Qed.

Lemma from_dict_node_stored (acc : Graph.t) (k : string) (n : bag) :
  n !! "id" = Some (VStr k) → n !! "self" = None → n !! "node_id" = None →
  nodes acc !! k = None →
  from_dict_node acc n = Ok {| nodes := <[k := n]> (nodes acc); edges := edges acc |}.
Proof.
  intros Hid Hself Hnid Hk. unfold from_dict_node, add_node. rewrite Hid, Hk.
  assert (collides ["self"; "node_id"] (delete "id" n) = false) as ->.
  { apply collides_false. intros p Hp. rewrite lookup_delete_None. set_solver. }
  do 3 f_equal. apply map_eq. intros field. rewrite merged_lookup.
  destruct (decide (field = "id")) as [->|Hf].
  - by rewrite lookup_delete_eq, lookup_singleton_eq.
  - rewrite lookup_delete_ne, lookup_singleton_ne by done.
    by destruct (n !! field).
Qed.

Lemma from_dict_nodes (g : Graph.t) (keys : list string) (acc : Graph.t) :
  well_formed g → NoDup keys →
  (∀ k, k ∈ keys → is_Some (nodes g !! k) ∧ nodes acc !! k = None) →
  ∃ acc',
    res_fold from_dict_node acc (omap (λ k, nodes g !! k) keys) = Ok acc' ∧
    edges acc' = edges acc ∧
    ∀ k, nodes acc' !! k = if decide (k ∈ keys) then nodes g !! k else nodes acc !! k.
Proof.
  intros Hwf. revert acc. induction keys as [|k keys IH]; intros acc Hnd Hkeys.
  - by exists acc.
  - apply NoDup_cons in Hnd as [Hk Hnd].
    destruct (Hkeys k) as [[n Hn] Hacc]; [set_solver|].
    destruct (wf_node g Hwf k n Hn) as (Hid & Hself & Hnid).
    simpl. rewrite Hn. simpl.
    rewrite (from_dict_node_stored acc k n) by done. simpl.
    destruct (IH {| nodes := <[k := n]> (nodes acc); edges := edges acc |} Hnd)
      as (acc' & Hfold & Hedges & Hnodes).
    { intros k' Hk'. destruct (Hkeys k') as [? ?]; [set_solver|].
      split; [done|]. simpl. rewrite lookup_insert_ne; [done|]. by intros ->. }
    exists acc'. split_and!; try done.
    intros k'. rewrite Hnodes. simpl.
    destruct (decide (k' = k)) as [->|Hne].
    + rewrite decide_False by done. rewrite decide_True by set_solver.
      by rewrite lookup_insert_eq.
    + rewrite lookup_insert_ne by done.
      destruct (decide (k' ∈ keys)).
      * by rewrite decide_True by set_solver.
      * by rewrite decide_False by set_solver.
Qed.

Lemma from_dict_edge_stored (acc : Graph.t) (k : string * string) (e : bag) :
  e !! "nodes" = Some (VList [VStr k.1; VStr k.2]) →
  is_Some (e !! "undirected") →
  e !! "self" = None → e !! "source" = None → e !! "target" = None →
  k.1 ∈ dom (nodes acc) → k.2 ∈ dom (nodes acc) →
  sorted_pair k.1 k.2 = k →
  edges acc !! k = None →
  from_dict_edge acc e = Ok {| nodes := nodes acc; edges := <[k := e]> (edges acc) |}.
Proof.
  intros Hn [u Hu] Hself Hsrc Htgt H1 H2 Hsort Hk.
  unfold from_dict_edge, endpoints. rewrite Hn. simpl.
  unfold add_edge_values, add_edge.
  assert (collides ["self"; "source"; "target"]
            (delete "target" (delete "source" (delete "nodes" e))) = false) as ->.
  { apply collides_false. intros p Hp. rewrite !lookup_delete_None. set_solver. }
  rewrite !(proj2 (contains_true _ _)) by done. simpl.
  rewrite Hsort, Hk. do 3 f_equal. apply map_eq. intros field.
  rewrite merged_lookup.
  destruct (decide (field = "target")) as [->|Ht].
  { by rewrite lookup_delete_eq, Htgt. }
  rewrite (lookup_delete_ne _ "target") by done.
  destruct (decide (field = "source")) as [->|Hs].
  { by rewrite lookup_delete_eq, Hsrc. }
  rewrite (lookup_delete_ne _ "source") by done.
  destruct (decide (field = "nodes")) as [->|Hnn].
  { by rewrite lookup_delete_eq, Hn. }
  rewrite (lookup_delete_ne _ "nodes") by done.
  destruct (e !! field) eqn:Hf; [done|].
  destruct (decide (field = "undirected")) as [->|Hun]; [congruence|].
  rewrite lookup_insert_ne by done. by rewrite lookup_singleton_ne.
Qed.

Lemma from_dict_edges (g : Graph.t) (keys : list (string * string)) (acc : Graph.t) :
  well_formed g → nodes acc = nodes g → NoDup keys →
  (∀ k, k ∈ keys → is_Some (edges g !! k) ∧ edges acc !! k = None) →
  ∃ acc',
    res_fold from_dict_edge acc (omap (λ k, edges g !! k) keys) = Ok acc' ∧
    nodes acc' = nodes acc ∧
    ∀ k, edges acc' !! k = if decide (k ∈ keys) then edges g !! k else edges acc !! k.
Proof.
  intros Hwf. revert acc. induction keys as [|k keys IH]; intros acc Hacc Hnd Hkeys.
  - by exists acc.
  - apply NoDup_cons in Hnd as [Hk Hnd].
    destruct (Hkeys k) as [[e He] Hnone]; [set_solver|].
    destruct (wf_edge g Hwf k e He) as (Hn & Hu & Hself & Hsrc & Htgt & H1 & H2 & Hs).
    simpl. rewrite He. simpl.
    rewrite (from_dict_edge_stored acc k e) by (by rewrite ?Hacc). simpl.
    destruct (IH {| nodes := nodes acc; edges := <[k := e]> (edges acc) |} Hacc Hnd)
      as (acc' & Hfold & Hnodes & Hedges).
    { intros k' Hk'. destruct (Hkeys k') as [? ?]; [set_solver|].
      split; [done|]. simpl. rewrite lookup_insert_ne; [done|]. by intros ->. }
    exists acc'. split_and!; try done.
    intros k'. rewrite Hedges. simpl.
    destruct (decide (k' = k)) as [->|Hne].
    + rewrite decide_False by done. rewrite decide_True by set_solver.
      by rewrite lookup_insert_eq.
    + rewrite lookup_insert_ne by done.
      destruct (decide (k' ∈ keys)).
      * by rewrite decide_True by set_solver.
      * by rewrite decide_False by set_solver.
Qed.

(** The keys of a dict, sorted. *)
Lemma sorted_keys {K} `{Countable K} {A} (R : relation K) `{!RelDecision R}
    (m : gmap K A) :
  NoDup (merge_sort R (map_to_list m).*1) ∧
  ∀ k, k ∈ merge_sort R (map_to_list m).*1 ↔ is_Some (m !! k).
Proof.
  split.
  - rewrite merge_sort_Permutation. apply NoDup_fst_map_to_list.
  - intros k. rewrite merge_sort_Permutation, list_elem_of_fmap. split.
    + intros ([k' x] & -> & Hin). apply elem_of_map_to_list in Hin. by eexists.
    + intros [x Hx]. exists (k, x). split; [done|]. by apply elem_of_map_to_list.
Qed.

(** C3, as the code has it.  For a graph built by [add_node] calls
    whose attributes have no [id] field and [add_edge] calls whose
    attributes have no [nodes] field, [from_dict(to_dict(g))] raises
    nothing and returns a graph with the nodes and the edges of [g],
    each with the attribute bag it has in [g]. *)
Theorem from_dict_to_dict (g : Graph.t) :
  built g → from_dict (to_dict g) = Ok g.
Proof.
  intros Hwf%built_well_formed. unfold from_dict, to_dict. simpl.
  destruct (sorted_keys str_le (nodes g)) as [Hnd Hin].
  destruct (from_dict_nodes g _ empty Hwf Hnd) as (g1 & -> & He1 & Hn1).
  { intros k Hk. split; [by apply Hin|apply lookup_empty]. }
  simpl.
  assert (Hnodes : nodes g1 = nodes g).
  { apply map_eq. intros k. rewrite Hn1. case_decide as Hk; [done|].
    simpl. rewrite lookup_empty. rewrite Hin in Hk.
    symmetry. by rewrite eq_None_not_Some. }
  destruct (sorted_keys pair_le (edges g)) as [Hnd' Hin'].
  destruct (from_dict_edges g _ g1 Hwf Hnodes Hnd') as (g2 & -> & Hn2 & He2).
  { intros k Hk. split; [by apply Hin'|]. rewrite He1. apply lookup_empty. }
  f_equal. destruct g2 as [n2 e2], g as [n e]. simpl in *. f_equal.
  - congruence.
  - apply map_eq. intros k. rewrite He2. case_decide as Hk; [done|].
    rewrite He1. simpl. rewrite lookup_empty. rewrite Hin' in Hk.
    symmetry. by rewrite eq_None_not_Some.
Qed.

End GraphProofs.

(** * Further properties *)

(** ** The adjacency view, route by route *)

Section TripProperties.

Variable float_of_str : string → option Q.
Variable format_float : nat → Q → string.
Variable format_value : value → string.

Local Abbreviation py_float := (Travel.py_float float_of_str).
Local Abbreviation difficulty_for_edge := (Travel.difficulty_for_edge float_of_str).
Local Abbreviation prepare_graph := (Travel.prepare_graph float_of_str).
Local Abbreviation prepare_edge := (Travel.prepare_edge float_of_str).
Local Abbreviation shortest_path := (Travel.shortest_path float_of_str).
Local Abbreviation start_leg := (Travel.start_leg float_of_str format_float format_value).
Local Abbreviation travel_day := (Travel.travel_day float_of_str format_float).
Local Abbreviation call := (call float_of_str format_float format_value).
Local Abbreviation route_weight := (route_weight float_of_str).
Local Abbreviation weighted := (weighted float_of_str).

(** The attributes of a raw edge without its endpoint fields. *)
Definition edge_fields (raw_edge : bag) : bag :=
  delete "target" (delete "source" (delete "nodes" raw_edge)).

(** [approx_distance_km or distance_km or 0.0] of a raw edge. *)
Definition raw_distance (raw_edge : bag) : value :=
  py_or (py_or (default VNull (edge_fields raw_edge !! "approx_distance_km"))
               (default VNull (edge_fields raw_edge !! "distance_km")))
        (VNum 0).

(** The route [prepare_graph] lists from [u] to [v] for a raw edge
    between them. *)
Definition listed (raw_edge : bag) (u v : string) (attrs : bag) : Prop :=
  ∃ a b dist,
    endpoints raw_edge = Ok (VStr a, VStr b) ∧
    ((u, v) = (a, b) ∨ (u, v) = (b, a)) ∧
    py_float (raw_distance raw_edge) = Ok dist ∧
    attrs = <["approx_distance_km" := VNum dist]> (edge_fields raw_edge).

Lemma prepare_edge_listed adjacency raw_edge adjacency' :
  prepare_edge adjacency raw_edge = Ok adjacency' →
  ∃ a b dist,
    endpoints raw_edge = Ok (VStr a, VStr b) ∧
    py_float (raw_distance raw_edge) = Ok dist ∧
    let attrs := <["approx_distance_km" := VNum dist]> (edge_fields raw_edge) in
    adjacency' = append_route b (a, attrs) (append_route a (b, attrs) adjacency).
Proof.
  unfold prepare_edge. destruct (endpoints raw_edge) as [[a b]|]; simpl; [|done].
  fold (edge_fields raw_edge). fold (raw_distance raw_edge).
  destruct (Travel.py_float _ _) as [d|]; simpl; [|done].
  destruct a as [| | |a|]; try done; destruct b as [| | |b|]; try done.
  intros [= <-]. by exists a, b, d.
Qed.

Lemma append_route_elem a route adjacency u x :
  x ∈ default [] (append_route a route adjacency !! u) ↔
  x ∈ default [] (adjacency !! u) ∨ (u = a ∧ x = route).
Proof.
  unfold append_route. destruct (decide (u = a)) as [->|Hu].
  - rewrite lookup_insert_eq. simpl. set_solver.
  - rewrite lookup_insert_ne by done. naive_solver.
Qed.

Lemma sum_list_fmap_with {A} (f : A → nat) (l : list A) :
  sum_list (f <$> l) = sum_list_with f l.
Proof. induction l as [|x l IH]; [done|]. rewrite fmap_cons. simpl. by rewrite IH. Qed.

Lemma edge_count_append a route (adjacency : adjacency_t) :
  edge_count (append_route a route adjacency) = S (edge_count adjacency).
Proof.
  unfold edge_count, append_route. rewrite !sum_list_fmap_with.
  destruct (adjacency !! a) as [l|] eqn:Ha; simpl.
  - rewrite <- (insert_delete_eq adjacency a).
    rewrite map_to_list_insert by apply lookup_delete_eq.
    rewrite <- (sum_list_with_Permutation_proper _ _ _ (map_to_list_delete _ _ _ Ha)).
    simpl. rewrite length_app. simpl. lia.
  - rewrite map_to_list_insert by done. done.
Qed.

Lemma prepare_edges_listed (edges : list bag) (adjacency0 adjacency : adjacency_t) :
  res_fold prepare_edge adjacency0 edges = Ok adjacency →
  (∀ u v attrs,
     (v, attrs) ∈ default [] (adjacency !! u) ↔
     (v, attrs) ∈ default [] (adjacency0 !! u) ∨
     ∃ raw_edge, raw_edge ∈ edges ∧ listed raw_edge u v attrs) ∧
  edge_count adjacency = (edge_count adjacency0 + 2 * length edges)%nat.
Proof.
  revert adjacency0. induction edges as [|e edges IH]; intros adjacency0; simpl.
  - intros [= <-]. split; [|lia]. intros u v attrs. split; [by left|].
    intros [?|(raw & []%elem_of_nil & _)]. done.
  - destruct (prepare_edge adjacency0 e) as [adjacency1|] eqn:He; simpl; [|done].
    intros [Hin Hcount]%IH.
    apply prepare_edge_listed in He as (a & b & dist & Hab & Hdist & ->).
    split.
    + intros u v attrs. rewrite Hin, !append_route_elem. split.
      * intros [[[H|[-> [= -> ->]]]|[-> [= -> ->]]]|(raw & Hraw & Hl)].
        -- by left.
        -- right. exists e. split; [set_solver|]. exists a, b, dist. naive_solver.
        -- right. exists e. split; [set_solver|]. exists a, b, dist. naive_solver.
        -- right. exists raw. split; [set_solver|done].
      * intros [H|(raw & [->|Hraw]%elem_of_cons & Hl)].
        -- by left; left; left.
        -- destruct Hl as (a' & b' & dist' & Hab' & Huv & Hdist' & ->).
           rewrite Hab in Hab'. injection Hab' as <- <-.
           rewrite Hdist in Hdist'. injection Hdist' as <-.
           destruct Huv as [[= -> ->]|[= -> ->]]; left; [left|]; by right.
        -- right. by exists raw.
    + rewrite Hcount, !edge_count_append. lia.
Qed.

Lemma prepare_nodes_ids (l : list bag) (nodes0 nodes : gmap string bag) :
  res_fold prepare_node nodes0 l = Ok nodes →
  ∀ k n, nodes !! k = Some n →
    nodes0 !! k = Some n ∨ (n ∈ l ∧ n !! "id" = Some (VStr k)).
Proof.
  revert nodes0. induction l as [|x l IH]; intros nodes0; simpl.
  - intros [= <-]. by left.
  - destruct (prepare_node nodes0 x) as [nodes1|] eqn:Hx; simpl; [|done].
    intros Hfold k n Hk. destruct (IH _ Hfold k n Hk) as [H1|[Hin Hid]].
    + unfold prepare_node in Hx.
      destruct (x !! "id") as [[| | |node_id|]|] eqn:Hid; try done.
      injection Hx as <-. destruct (decide (k = node_id)) as [->|Hne].
      * rewrite lookup_insert_eq in H1. injection H1 as <-. right. set_solver.
      * rewrite lookup_insert_ne in H1 by done. by left.
    + right. set_solver.
Qed.

Lemma res_fold_snoc {A B} (f : A → B → res A) (st : A) (l : list B) (x : B) :
  res_fold f st (l ++ [x]) = res_fold f st l ≫= λ st', f st' x.
Proof.
  revert st. induction l as [|y l IH]; intros st; simpl.
  - by destruct (f st x).
  - destruct (f st y) as [st1|]; simpl; [apply IH|done].
Qed.

Lemma prepare_nodes_last (l : list bag) (nodes : gmap string bag) :
  res_fold prepare_node ∅ l = Ok nodes →
  ∀ k n, nodes !! k = Some n ↔
    ∃ l1 l2, l = l1 ++ n :: l2 ∧ n !! "id" = Some (VStr k) ∧
             ∀ m, m ∈ l2 → m !! "id" ≠ Some (VStr k).
Proof.
  revert nodes. induction l as [|x l IH] using rev_ind; intros nodes.
  - intros [= <-] k n. rewrite lookup_empty. split; [done|].
    intros (l1 & l2 & H & _). by destruct l1.
  - rewrite res_fold_snoc.
    destruct (res_fold prepare_node ∅ l) as [nodes0|]; simpl; [|done].
    specialize (IH nodes0 eq_refl). unfold prepare_node.
    destruct (x !! "id") as [[| | |node_id|]|] eqn:Hid; try done.
    intros [= <-] k n. destruct (decide (k = node_id)) as [->|Hne].
    + rewrite lookup_insert_eq. split.
      * intros [= <-]. exists l, []. split; [done|]. split; [done|].
        by intros m []%elem_of_nil.
      * intros (l1 & l2 & H & Hn & Hlast).
        destruct l2 as [|y l2 _] using rev_ind.
        -- by apply app_inj_tail in H as [_ ->].
        -- rewrite app_comm_cons, app_assoc in H.
           apply app_inj_tail in H as [_ <-].
           destruct (Hlast x); [set_solver|done].
    + rewrite lookup_insert_ne by done. rewrite IH. split.
      * intros (l1 & l2 & -> & Hn & Hlast). exists l1, (l2 ++ [x]).
        split; [by rewrite <- app_assoc|]. split; [done|].
        intros m [Hm| ->%list_elem_of_singleton]%elem_of_app; [by apply Hlast|].
        rewrite Hid. congruence.
      * intros (l1 & l2 & H & Hn & Hlast).
        destruct l2 as [|y l2 _] using rev_ind.
        -- apply app_inj_tail in H as [_ ->]. congruence.
        -- rewrite app_comm_cons, app_assoc in H.
           apply app_inj_tail in H as [-> <-].
           exists l1, l2. split; [done|]. split; [done|].
           intros m Hm. apply Hlast. set_solver.
Qed.

(** X1. The node table of [prepare_graph] maps an identifier to the
    last node of the document that carries it, the whole node with its
    [id] field: a later node replaces an earlier one of the same
    identifier, and nothing else is in the table. *)
Theorem prepare_graph_nodes (data : document) nodes adjacency :
  prepare_graph data = Ok (nodes, adjacency) →
  ∀ k n, nodes !! k = Some n ↔
    ∃ before after,
      doc_nodes data = before ++ n :: after ∧
      n !! "id" = Some (VStr k) ∧
      ∀ m, m ∈ after → m !! "id" ≠ Some (VStr k).
Proof.
  unfold Travel.prepare_graph.
  destruct (res_fold prepare_node _ _) as [nodes'|] eqn:Hnodes; simpl; [|done].
  destruct (res_fold prepare_edge _ _) as [adjacency'|]; simpl; [|done].
  intros [= <- _]. by apply prepare_nodes_last.
Qed.

(** X2. The adjacency view of [prepare_graph] lists every edge of the
    document at both of its ends and nothing else: the routes from [u]
    to [v] are the edges between [u] and [v], each with its attributes
    without the endpoint fields and with
    [float(approx_distance_km or distance_km or 0.0)] written under
    [approx_distance_km] (a field [distance_km] stays as it is); there
    are twice as many routes as the document has edges. *)
Theorem prepare_graph_routes (data : document) nodes adjacency :
  prepare_graph data = Ok (nodes, adjacency) →
  (∀ u v attrs,
     (v, attrs) ∈ default [] (adjacency !! u) ↔
     ∃ raw_edge, raw_edge ∈ doc_edges data ∧ listed raw_edge u v attrs) ∧
  edge_count adjacency = (2 * length (doc_edges data))%nat.
Proof.
  unfold Travel.prepare_graph.
  destruct (res_fold prepare_node _ _) as [nodes'|]; simpl; [|done].
  destruct (res_fold prepare_edge _ _) as [adjacency'|] eqn:Hfold; simpl; [|done].
  intros [= _ <-]. apply prepare_edges_listed in Hfold as [Hin Hcount].
  split.
  - intros u v attrs. rewrite Hin, lookup_empty. simpl. set_solver.
  - rewrite Hcount. unfold edge_count. by rewrite map_to_list_empty.
Qed.

(** ** The way back *)

(** The route the simulator takes from [a] to [b] is the route it takes
    from [b] to [a]. *)
Definition mirrored (adjacency : adjacency_t) : Prop :=
  ∀ a b, dict_of_pairs (default [] (adjacency !! a)) !! b
       = dict_of_pairs (default [] (adjacency !! b)) !! a.

Lemma dict_of_pairs_append a b attrs (adjacency : adjacency_t) u :
  dict_of_pairs (default [] (append_route a (b, attrs) adjacency !! u))
  = if decide (u = a) then <[b := attrs]> (dict_of_pairs (default [] (adjacency !! u)))
    else dict_of_pairs (default [] (adjacency !! u)).
Proof.
  unfold append_route. destruct (decide (u = a)) as [->|Hu].
  - rewrite lookup_insert_eq. simpl. apply dict_of_pairs_snoc.
  - by rewrite lookup_insert_ne.
Qed.

Lemma prepare_graph_mirrored (data : document) nodes adjacency :
  prepare_graph data = Ok (nodes, adjacency) → mirrored adjacency.
Proof.
  unfold Travel.prepare_graph.
  destruct (res_fold prepare_node _ _) as [nodes'|]; simpl; [|done].
  destruct (res_fold prepare_edge _ _) as [adjacency'|] eqn:Hfold; simpl; [|done].
  intros [= _ <-]. revert Hfold.
  apply (res_fold_inv mirrored); [|by intros a b; rewrite !lookup_empty].
  intros adj e adj' Hadj (x & y & d & _ & _ & ->)%prepare_edge_listed a b.
  rewrite !dict_of_pairs_append.
  repeat case_decide; subst; simplify_map_eq; try done; try apply Hadj.
Qed.

(** X3. Over the adjacency view of [prepare_graph], a leg that can be
    started from [a] to [b] can be started from [b] to [a] (by a session
    that stands at [b], a city with a name, and has no leg active), and
    the leg back has the attributes and the distance of the leg out. *)
Theorem return_leg (data : document) nodes adjacency
    (out back out' : TravelSession) (a b : string) (leg : ActiveLeg) :
  prepare_graph data = Ok (nodes, adjacency) →
  Travel.adjacency out = adjacency → Travel.adjacency back = adjacency →
  current_city out = Some a →
  current_city back = Some b → b ≠ "" → active_leg back = None →
  start_leg b out = (out', Ok leg) →
  ∃ back' leg',
    start_leg a back = (back', Ok leg') ∧
    origin leg' = b ∧ destination leg' = a ∧
    attrs leg' = attrs leg ∧ distance_km leg' = distance_km leg.
Proof.
  intros Hmirrored%prepare_graph_mirrored Hout Hback Ha Hb Hbne Hidle.
  unfold Travel.start_leg. rewrite Hidle, Ha, Hb. simpl.
  destruct (active_leg out); [done|].
  destruct (String.eqb_spec b a) as [->|Hne]; [done|].
  destruct (String.eqb_spec a b) as [->|_]; [done|].
  unfold available_routes. rewrite Ha, Hb, Hout, Hback. simpl.
  destruct (String.eqb_spec b "") as [->|_]; [done|].
  destruct (String.eqb_spec a "") as [->|_]; [done|].
  rewrite <- (Hmirrored a b).
  destruct (dict_of_pairs (default [] (adjacency !! a)) !! b) as [attrs|]; [|done].
  destruct (Travel.py_float _ _) as [distance|]; [|done].
  intros [= _ <-]. by eexists _, _.
Qed.

(** ** The planner in both directions *)

Lemma route_cons (adjacency : adjacency_t) (u v w : string) routes a r :
  adjacency !! u = Some routes → (v, a) ∈ routes →
  route adjacency v r w → route adjacency u ((v, a) :: r) w.
Proof.
  intros Hu Hin Hr. induction Hr as [|r x routes' y a' Hr IH Hx Hy].
  - apply (route_snoc _ _ [] u routes); [constructor|done..].
  - rewrite app_comm_cons. by eapply route_snoc.
Qed.

Lemma route_weight_cons e r :
  (route_weight (e :: r) == weight_of float_of_str e.2 + route_weight r)%Q.
Proof. done. Qed.

(** Over a symmetric adjacency view a route can be walked back at the
    same cost. *)
Lemma route_back (adjacency : adjacency_t) (u v : string) r :
  symmetric adjacency → route adjacency u r v →
  ∃ r', route adjacency v r' u ∧ (route_weight r' == route_weight r)%Q.
Proof.
  intros Hsym Hr. induction Hr as [|r x routes y a Hr (r' & Hr' & Hw) Hx Hy].
  - exists []. split; [constructor|done].
  - pose proof (Hsym _ _ _ _ Hx Hy) as Hback.
    destruct (adjacency !! y) as [routes'|] eqn:Hy'; simpl in Hback;
      [|by apply elem_of_nil in Hback].
    exists ((x, a) :: r'). split; [by eapply route_cons|].
    rewrite route_weight_cons, route_weight_snoc, Hw. simpl. lra.
Qed.

(** Whether a route leads from [start] to [dest] is settled by the
    search. *)
Lemma route_decided (adjacency : adjacency_t) (start dest : string) :
  weighted adjacency →
  (∃ r, route adjacency start r dest) ∨ (∀ r, ¬ route adjacency start r dest).
Proof.
  intros Hw.
  destruct (search_result float_of_str adjacency start dest
              (edge_count adjacency + 2) Hw (le_n _))
    as (S & st0 & st' & _ & Hinv & _ & _ & Hexit & _).
  destruct (dist st0 !! dest) as [dd|] eqn:Hdd.
  - left.
    destruct (rebuilt_any float_of_str adjacency start dest Hw S st0 dest dd Hinv Hdd)
      as (r & Hr & _). by exists r.
  - right. intros r Hr.
    destruct (route_lower_bound float_of_str adjacency start dest Hw S st0 r dest Hinv Hr)
      as (y & d & Hy & Hle & HyS).
    assert (Hin : (d, y) ∈ heap st0).
    { eapply inv_open; [exact Hinv|done|]. intros Hin.
      eapply inv_dest; [exact Hinv|]. by rewrite <- (HyS Hin). }
    destruct Hexit as [Hnil|(c & Hc & _)].
    + rewrite Hnil in Hin. by apply elem_of_nil in Hin.
    + destruct (inv_heap _ _ _ _ _ _ _ Hinv c dest Hc) as (dd & Hdd' & _). congruence.
Qed.

(** X4. Over an adjacency view that lists every route at both of its
    ends (as [prepare_graph] builds it) and in which no weight is
    negative, [shortest_path] from [a] to [b] and from [b] to [a] (given
    fuel for as many rounds as there are routes, and two more) both
    return, and one finds a path exactly when the other does. *)
Theorem shortest_path_both_ways (adjacency : adjacency_t) (a b : string) (fuel : nat) :
  symmetric adjacency → weighted adjacency →
  a ≠ "" → b ≠ "" →
  (edge_count adjacency + 2 <= fuel)%nat →
  ∃ path total cost path' total' cost',
    shortest_path fuel adjacency (Some a) (Some b) = Some (Ok (path, total, cost)) ∧
    shortest_path fuel adjacency (Some b) (Some a) = Some (Ok (path', total', cost')) ∧
    (path = [] ↔ path' = []).
Proof.
  intros Hsym Hweighted Ha Hb Hfuel.
  destruct (decide (a = b)) as [->|Hne].
  { exists [b], 0%Q, 0%Q, [b], 0%Q, 0%Q.
    unfold Travel.shortest_path. rewrite falsy_Some by done. simpl.
    rewrite String.eqb_refl. done. }
  destruct (route_decided adjacency a b Hweighted) as [[r Hr]|Hno].
  - destruct (route_back adjacency a b r Hsym Hr) as (r' & Hr' & _).
    destruct (shortest_path_reachable float_of_str adjacency a b fuel)
      as (p & total & cost & -> & Hp & Hcost & Hmin & _); [done..|by exists r|done|].
    destruct (shortest_path_reachable float_of_str adjacency b a fuel)
      as (p' & total' & cost' & -> & Hp' & Hcost' & Hmin' & _);
      [done..|by exists r'|done|].
    exists (a :: p.*1), total, cost, (b :: p'.*1), total', cost'.
    split; [done|]. split; done.
  - assert (Hno' : ∀ r, ¬ route adjacency b r a).
    { intros r Hr. destruct (route_back adjacency b a r Hsym Hr) as (r' & Hr' & _).
      by destruct (Hno r'). }
    exists [], 0%Q, 0%Q, [], 0%Q, 0%Q.
    rewrite !(shortest_path_unreachable float_of_str) by done. done.
Qed.

(** ** The trip, call after call *)

(** The difficulty factor of every route resolves to a number. *)
Definition resolvable (adjacency : adjacency_t) : Prop :=
  ∀ u routes v a,
    adjacency !! u = Some routes → (v, a) ∈ routes →
    ∃ f, difficulty_for_edge a = Ok f.

Record trip_inv (nodes0 : gmap string bag) (adj : adjacency_t)
    (self : TravelSession) : Prop := {
  ti_nodes : nodes self = nodes0;
  ti_adjacency : adjacency self = adj;
  ti_leg leg :
    active_leg self = Some leg →
    current_city self = Some (origin leg) ∧
    origin leg ≠ "" ∧ destination leg ≠ origin leg ∧
    (destination leg, attrs leg) ∈ default [] (adj !! origin leg) ∧
    py_float (approx_distance_km (attrs leg)) = Ok (distance_km leg);
  ti_ends c :
    start_city self = Some c ∨ destination_city self = Some c → c ∈ dom nodes0;
  ti_city c :
    current_city self = Some c →
    is_Some (start_city self) ∧
    (c ∈ dom nodes0 ∨ ∃ u, c ∈ (default [] (adj !! u)).*1)
}.

Lemma trip_inv_new nodes0 adj : trip_inv nodes0 adj (new_session nodes0 adj).
Proof. split; simpl; try done. - by intros c [?|?]. Qed.

Lemma trip_inv_call nodes0 adj self self' :
  trip_inv nodes0 adj self → call self self' → trip_inv nodes0 adj self'.
Proof.
  intros Hinv Hcall. destruct Hcall as [self start dest|self dest|self mode hours].
  - (* reset_trip *)
    unfold reset_trip.
    destruct (contains (nodes self) start) eqn:Hs; simpl; [|done].
    destruct (contains (nodes self) dest) eqn:Hd; simpl; [|done].
    apply contains_true in Hs, Hd. rewrite (ti_nodes _ _ _ Hinv) in Hs, Hd.
    split; simpl; try done; try apply Hinv.
    + by intros c [[= <-]|[= <-]].
    + intros c [= <-]. split; [done|by left].
  - (* start_leg *)
    unfold Travel.start_leg.
    destruct (active_leg self) as [leg0|] eqn:Hleg; [done|].
    destruct (is_city dest (current_city self)) eqn:Hcity; [done|].
    destruct (dict_of_pairs (available_routes self) !! dest) as [attrs|] eqn:Hopt;
      [|done].
    destruct (current_city self) as [current|] eqn:Hcur; [|done].
    destruct (Travel.py_float _ _) as [distance|] eqn:Hfloat; [|done].
    simpl. split; simpl; try apply Hinv.
    + intros leg [= <-]. simpl.
      unfold available_routes in Hopt. rewrite Hcur in Hopt. simpl in Hopt, Hcity.
      destruct (String.eqb_spec current "") as [->|Hne]; [done|].
      destruct (String.eqb_spec dest current) as [|Hdc]; [done|].
      apply (dict_of_pairs_Some float_of_str) in Hopt as (l1 & l2 & Hl & _).
      rewrite (ti_adjacency _ _ _ Hinv) in Hl.
      split_and!; try done. rewrite Hl. set_solver.
    + intros c Hc. rewrite <- Hcur in Hc. by apply Hinv.
  - (* travel_day *)
    unfold Travel.travel_day.
    destruct (active_leg self) as [leg|] eqn:Hleg; [|done].
    destruct (Qle_bool hours 0); [done|].
    destruct (ti_leg _ _ _ Hinv leg Hleg) as (Hcur & Hne & Hdo & Hin & Hfloat).
    destruct (Travel.difficulty_for_edge _ _) as [difficulty|e] eqn:Hdiff.
    + match goal with |- context [if ?b then _ else _] => destruct b end; simpl.
      * split; simpl; try apply Hinv.
        -- done.
        -- intros c [= <-]. split; [by eapply ti_city|]. right.
           exists (origin leg). apply list_elem_of_fmap. by exists (destination leg, attrs leg).
      * split; simpl; try apply Hinv.
        by intros leg' [= <-].
    + simpl. split; simpl; try apply Hinv.
      by intros leg0 [= <-].
Qed.

Lemma trip_inv_reachable nodes0 adj self :
  rtc call (new_session nodes0 adj) self → trip_inv nodes0 adj self.
Proof.
  intros H. revert self H.
  apply (rtc_ind_r (R := call) (trip_inv nodes0 adj) (new_session nodes0 adj)).
  - apply trip_inv_new.
  - intros y z _ Hyz Hy. by eapply trip_inv_call.
Qed.

(** The sessions a new session becomes, call after call, each with the
    records that [travel_day] has returned since the trip was last
    reset (a call of [reset_trip] that raises leaves the session as it
    is). *)
Inductive reported (nodes0 : gmap string bag) (adj : adjacency_t)
    : TravelSession → list day_result → Prop :=
  | reported_new : reported nodes0 adj (new_session nodes0 adj) []
  | reported_reset_trip self returned start destination self' :
      reported nodes0 adj self returned →
      reset_trip start destination self = (self', Ok ()) →
      reported nodes0 adj self' []
  | reported_start_leg self returned destination :
      reported nodes0 adj self returned →
      reported nodes0 adj (start_leg destination self).1 returned
  | reported_travel_day self returned mode hours self' r :
      reported nodes0 adj self returned →
      travel_day mode hours self = (self', Ok r) →
      reported nodes0 adj self' (returned ++ [r])
  | reported_travel_day_raises self returned mode hours self' e :
      reported nodes0 adj self returned →
      travel_day mode hours self = (self', Raise e) →
      reported nodes0 adj self' returned.

(** The distances of the records, added up in their order. *)
Definition km_returned (returned : list day_result) : Q :=
  foldl (λ total r, (total + r_traveled_km r)%Q) 0%Q returned.

Lemma reported_reachable nodes0 adj self returned :
  reported nodes0 adj self returned → rtc call (new_session nodes0 adj) self.
Proof.
  induction 1 as [|self returned start destination self' _ IH Hcall
                  |self returned destination _ IH
                  |self returned mode hours self' r _ IH Hcall
                  |self returned mode hours self' e _ IH Hcall].
  - apply rtc_refl.
  - eapply rtc_r; [exact IH|].
    replace self' with (reset_trip start destination self).1 by by rewrite Hcall.
    constructor.
  - eapply rtc_r; [exact IH|]. constructor.
  - eapply rtc_r; [exact IH|].
    replace self' with (travel_day mode hours self).1 by by rewrite Hcall.
    constructor.
  - eapply rtc_r; [exact IH|].
    replace self' with (travel_day mode hours self).1 by by rewrite Hcall.
    constructor.
Qed.

(** X5. After any sequence of calls of [reset_trip], [start_leg] and
    [travel_day] on a new session, the total distance traveled is the
    sum, in their order, of the distances that the calls of
    [travel_day] have returned since the trip was last reset; the day
    counter is at least the number of records and at least the day of
    the last record.  When the difficulty factor of every route
    resolves to a number, the day counter is the number of records and
    the records carry the days 1, 2, ... in their order (a call of
    [travel_day] that raises on the factor has counted its day and
    returned nothing). *)
Theorem trip_totals_account (nodes0 : gmap string bag) (adj : adjacency_t)
    (self : TravelSession) (returned : list day_result) :
  reported nodes0 adj self returned →
  total_traveled_km self = km_returned returned ∧
  (Z.of_nat (length returned) <= day self)%Z ∧
  (∀ r, last returned = Some r → (r_day r <= day self)%Z) ∧
  (resolvable adj →
   day self = Z.of_nat (length returned) ∧
   ∀ i r, returned !! i = Some r → r_day r = Z.of_nat (S i)).
Proof.
  induction 1 as [|self returned start destination self' _ IH Hcall
                  |self returned destination _ IH
                  |self returned mode hours self' r Hrep IH Hcall
                  |self returned mode hours self' e Hrep IH Hcall].
  - split_and!; try done; intros _; (split; [done|]); by intros i r.
  - unfold reset_trip in Hcall. destruct (_ || _); [done|].
    injection Hcall as <-. simpl.
    split_and!; try done; intros _; (split; [done|]); by intros i r.
  - assert (Hsame : total_traveled_km (start_leg destination self).1
                      = total_traveled_km self ∧
                    day (start_leg destination self).1 = day self).
    { unfold Travel.start_leg. destruct (active_leg self); [done|].
      destruct (is_city _ _); [done|].
      destruct (dict_of_pairs _ !! _); [|done].
      destruct (current_city self); [|done].
      by destruct (Travel.py_float _ _). }
    destruct Hsame as [-> ->]. exact IH.
  - destruct IH as (Htotal & Hdays & Hlast & Hres).
    unfold Travel.travel_day in Hcall.
    destruct (active_leg self) as [leg|]; [|done].
    destruct (Qle_bool hours 0); [done|].
    destruct (Travel.difficulty_for_edge _ _) as [difficulty|]; [|done].
    assert (Hr : total_traveled_km self' = (total_traveled_km self + r_traveled_km r)%Q
                 ∧ day self' = (day self + 1)%Z ∧ r_day r = (day self + 1)%Z).
    { revert Hcall.
      match goal with |- context [if ?b then _ else _] => destruct b end;
        by intros [= <- <-]. }
    destruct Hr as (Ht & Hd & Hrd).
    split_and!.
    + unfold km_returned. rewrite foldl_app. simpl.
      fold (km_returned returned). by rewrite Ht, Htotal.
    + rewrite length_app. simpl. lia.
    + intros r'. rewrite last_snoc. intros [= <-]. lia.
    + intros Hresolvable. destruct (Hres Hresolvable) as [Hday Hnth].
      split; [rewrite length_app; simpl; lia|].
      intros i r' Hi. apply lookup_app_Some in Hi as [Hi|[Hlen Hi]]; [by apply Hnth|].
      apply list_lookup_singleton_Some in Hi as [Hi <-].
      rewrite Hrd, Hday. lia.
  - destruct IH as (Htotal & Hdays & Hlast & Hres).
    pose proof (trip_inv_reachable _ _ _ (reported_reachable _ _ _ _ Hrep)) as Hinv.
    unfold Travel.travel_day in Hcall.
    destruct (active_leg self) as [leg|] eqn:Hleg; [|by injection Hcall as <- _].
    destruct (Qle_bool hours 0); [by injection Hcall as <- _|].
    destruct (Travel.difficulty_for_edge _ _) as [difficulty|e'] eqn:Hdiff.
    { revert Hcall.
      match goal with |- context [if ?b then _ else _] => destruct b end; done. }
    injection Hcall as <- _. simpl. split_and!; [done|lia| |].
    + intros r' Hr'. specialize (Hlast r' Hr'). lia.
    + intros Hresolvable. exfalso.
      destruct (ti_leg _ _ _ Hinv leg Hleg) as (_ & _ & _ & Hin & _).
      destruct (adj !! origin leg) as [routes|] eqn:Hroutes; simpl in Hin;
        [|by apply elem_of_nil in Hin].
      destruct (Hresolvable _ _ _ _ Hroutes Hin) as [f Hf]. congruence.
Qed.

(** X6. After any sequence of calls on a new session the node table
    and the adjacency view are the ones the session was made with, the
    start and the destination of the trip are nodes of the table, and an
    active leg leaves the current city along a route that the adjacency
    view lists for it, to another place, over the distance that route
    gives. *)
Theorem traveller_on_route (nodes0 : gmap string bag) (adj : adjacency_t)
    (self : TravelSession) :
  rtc call (new_session nodes0 adj) self →
  nodes self = nodes0 ∧ adjacency self = adj ∧
  (∀ c, start_city self = Some c ∨ destination_city self = Some c →
        c ∈ dom nodes0) ∧
  (∀ leg, active_leg self = Some leg →
     current_city self = Some (origin leg) ∧
     destination leg ≠ origin leg ∧
     (destination leg, attrs leg) ∈ default [] (adj !! origin leg) ∧
     py_float (approx_distance_km (attrs leg)) = Ok (distance_km leg)).
Proof.
  intros Hinv%trip_inv_reachable. split_and!; [apply Hinv..|].
  intros leg Hleg. destruct (ti_leg _ _ _ Hinv leg Hleg) as (? & ? & ? & ? & ?).
  done.
Qed.

(** *** Days to arrival *)

Lemma travel_day_idle mode hours self :
  active_leg self = None → (travel_day mode hours self).1 = self.
Proof. unfold Travel.travel_day. by intros ->. Qed.

(** [n] days of travel, whatever each call returns. *)
Definition days (n : nat) (mode : string) (hours : Q) (self : TravelSession)
    : TravelSession :=
  Nat.iter n (λ s, (travel_day mode hours s).1) self.

Lemma days_idle n mode hours self :
  active_leg self = None → days n mode hours self = self.
Proof.
  intros H. unfold days. induction n as [|n IH]; [done|].
  simpl. rewrite IH. by apply travel_day_idle.
Qed.

(** A day of travel ends the leg or covers the whole
    [speed * hours * difficulty]. *)
Lemma travel_day_progress mode hours d self leg :
  active_leg self = Some leg →
  (traveled_km leg <= distance_km leg)%Q →
  (0 < hours)%Q →
  difficulty_for_edge (attrs leg) = Ok d →
  let self' := (travel_day mode hours self).1 in
  (active_leg self' = None ∧ current_city self' = Some (destination leg)) ∨
  (∃ leg', active_leg self' = Some leg' ∧
           attrs leg' = attrs leg ∧ destination leg' = destination leg ∧
           distance_km leg' = distance_km leg ∧
           (traveled_km leg' == traveled_km leg + speed_for_mode mode * hours * d)%Q ∧
           (traveled_km leg' < distance_km leg')%Q).
Proof.
  intros Hleg Hbound Hh Hd. unfold Travel.travel_day. rewrite Hleg.
  destruct (Qle_bool hours 0) eqn:Hle; [apply Qle_bool_iff in Hle; lra|].
  rewrite Hd.
  set (p := (speed_for_mode mode * hours * d)%Q).
  set (covered := Qmin p (remaining_km leg)).
  match goal with |- context [if ?b then _ else _] => destruct b eqn:Hreached end;
    simpl; [by left|right].
  apply orb_false_iff in Hreached as [_ Hlt]. simpl in Hlt.
  apply Qle_bool_gt in Hlt.
  pose proof (remaining_km_le leg Hbound) as Hrem.
  eexists. split; [done|]. simpl. split_and!; try done.
  fold covered. unfold covered.
  destruct (Q.min_spec p (remaining_km leg)) as [[_ ->]|[Hle' H]]; [done|].
  fold covered in H, Hlt. lra.
Qed.

(** X7. A leg that has not overshot is over after [n] calls of
    [travel_day(mode, hours)], for [hours > 0] and a difficulty factor
    [d], once [n >= 1] and [n * speed(mode) * hours * d] is at least the
    distance that remained: no leg is active and the current city is
    the destination of the leg. *)
Theorem arrival_within (n : nat) (mode : string) (hours d : Q)
    (self : TravelSession) (leg : ActiveLeg) :
  active_leg self = Some leg →
  (traveled_km leg <= distance_km leg)%Q →
  (0 < hours)%Q →
  difficulty_for_edge (attrs leg) = Ok d →
  (1 <= n)%nat →
  (distance_km leg - traveled_km leg
   <= inject_Z (Z.of_nat n) * (speed_for_mode mode * hours * d))%Q →
  active_leg (days n mode hours self) = None ∧
  current_city (days n mode hours self) = Some (destination leg).
Proof.
  revert self leg.
  induction n as [|n IH]; intros self leg Hleg Hbound Hh Hd Hn Hfar; [lia|].
  unfold days. rewrite Nat.iter_succ_r.
  fold (days n mode hours (travel_day mode hours self).1).
  destruct (travel_day_progress mode hours d self leg Hleg Hbound Hh Hd)
    as [[Hidle Hcity]|(leg' & Hleg' & Hattrs & Hdest & Hdist & Htrav & Hlt)].
  - by rewrite days_idle.
  - rewrite <- Hdest. destruct n as [|n].
    { change (inject_Z (Z.of_nat 1)) with 1%Q in Hfar. rewrite Hdist in Hlt. lra. }
    apply IH; try done.
    + lra.
    + by rewrite Hattrs.
    + lia.
    + rewrite Nat2Z.inj_succ, <- Z.add_1_r, inject_Z_plus in Hfar.
      change (inject_Z 1) with 1%Q in Hfar. rewrite Hdist. lra.
Qed.

End TripProperties.

(** ** The order of strings *)

Lemma ascii_compare_N (a b : Ascii.ascii) :
  Ascii.compare a b = N.compare (Ascii.N_of_ascii a) (Ascii.N_of_ascii b).
Proof. done. Qed.

Lemma string_compare_refl (s : string) : String.compare s s = Eq.
Proof.
  induction s as [|c s IH]; [done|]. simpl.
  by rewrite ascii_compare_N, N.compare_refl.
Qed.

Lemma string_compare_lt_trans (s1 s2 s3 : string) :
  String.compare s1 s2 = Lt → String.compare s2 s3 = Lt → String.compare s1 s3 = Lt.
Proof.
  revert s2 s3. induction s1 as [|c1 s1 IH]; intros [|c2 s2] [|c3 s3]; simpl; try done.
  rewrite !ascii_compare_N.
  destruct (N.compare_spec (Ascii.N_of_ascii c1) (Ascii.N_of_ascii c2)) as [H12|H12|H12];
    destruct (N.compare_spec (Ascii.N_of_ascii c2) (Ascii.N_of_ascii c3)) as [H23|H23|H23];
    try done; intros H1 H2.
  - rewrite H12, H23, N.compare_refl. by eapply IH.
  - rewrite H12. by apply N.compare_lt_iff in H23 as ->.
  - rewrite <- H23. by apply N.compare_lt_iff in H12 as ->.
  - assert (H13 : (Ascii.N_of_ascii c1 < Ascii.N_of_ascii c3)%N) by lia.
    by apply N.compare_lt_iff in H13 as ->.
Qed.

Lemma string_ltb_leb (a b : string) : String.ltb a b = true → String.leb a b = true.
Proof. unfold String.ltb, String.leb. by destruct (String.compare a b). Qed.

Lemma string_leb_cases (a b : string) :
  String.leb a b = true ↔ String.ltb a b = true ∨ a = b.
Proof.
  unfold String.ltb, String.leb. destruct (String.compare a b) eqn:H.
  - apply String.compare_eq_iff in H. naive_solver.
  - naive_solver.
  - split; [done|]. intros [?| ->]; [done|]. by rewrite string_compare_refl in H.
Qed.

Lemma string_ltb_trans (a b c : string) :
  String.ltb a b = true → String.ltb b c = true → String.ltb a c = true.
Proof.
  unfold String.ltb. intros H1 H2.
  destruct (String.compare a b) eqn:Hab; try done.
  destruct (String.compare b c) eqn:Hbc; try done.
  by rewrite (string_compare_lt_trans a b c).
Qed.

Lemma string_ltb_irrefl (a : string) : String.ltb a a = false.
Proof. unfold String.ltb. by rewrite string_compare_refl. Qed.

#[global] Instance str_le_trans : Transitive str_le.
Proof.
  intros a b c. unfold str_le. rewrite !Is_true_true, !string_leb_cases.
  intros [H1| ->] [H2| ->]; eauto using string_ltb_trans.
Qed.

#[global] Instance str_le_total : Total str_le.
Proof.
  intros a b. unfold str_le. rewrite !Is_true_true. apply String.leb_total.
Qed.

#[global] Instance pair_le_trans : Transitive pair_le.
Proof.
  intros [a1 a2] [b1 b2] [c1 c2]. unfold pair_le. simpl. rewrite !Is_true_true.
  intros [H1|[-> H1]] [H2|[-> H2]].
  - left. by eapply string_ltb_trans.
  - by left.
  - by left.
  - right. split; [done|]. apply Is_true_true. apply Is_true_true in H1, H2.
    by apply (str_le_trans a2 b2 c2).
Qed.

#[global] Instance pair_le_total : Total pair_le.
Proof.
  intros [a1 a2] [b1 b2]. unfold pair_le. simpl. rewrite !Is_true_true.
  destruct (String.leb_total a1 b1) as [[H| ->]%string_leb_cases|[H| ->]%string_leb_cases];
    try by auto.
  - destruct (String.leb_total a2 b2) as [H|H]; auto.
  - destruct (String.leb_total a2 b2) as [H|H]; auto.
Qed.

(** ** The graph model, further *)

Section GraphProperties.

Import Graph.

(** X8. [add_node(node_id, attrs)] raises exactly when [attrs] has a
    field named as one of its parameters ([self], [node_id]), and then a
    [TypeError]; otherwise it leaves the edges and the other nodes as
    they were and merges into the bag of the node: a field of [attrs]
    takes its new value, [id] is written afresh unless [attrs] has it,
    and every other field keeps the value it had.  A second call with
    the same arguments changes nothing. *)
Theorem add_node_merges (g : Graph.t) (node_id : string) (attrs : bag) :
  (∀ e, add_node g node_id attrs = Raise e ↔
        e = TypeError ∧
        (is_Some (attrs !! "self") ∨ is_Some (attrs !! "node_id"))) ∧
  (∀ g', add_node g node_id attrs = Ok g' →
     edges g' = edges g ∧
     (∀ k, k ≠ node_id → nodes g' !! k = nodes g !! k) ∧
     (∃ stored,
        nodes g' !! node_id = Some stored ∧
        ∀ field,
          stored !! field =
            match attrs !! field with
            | Some v => Some v
            | None => if decide (field = "id") then Some (VStr node_id)
                      else default ∅ (nodes g !! node_id) !! field
            end) ∧
     add_node g' node_id attrs = Ok g').
Proof.
  unfold add_node. destruct (collides _ attrs) eqn:Hc.
  - split; [|done]. intros e. split.
    + intros [= <-]. split; [done|]. unfold collides in Hc. simpl in Hc.
      unfold contains in Hc.
      destruct (attrs !! "self"); [by left; eexists|].
      destruct (attrs !! "node_id"); [by right; eexists|done].
    + by intros [-> _].
  - split.
    { intros e. split; [by destruct (nodes g !! node_id)|].
      intros [_ H]. rewrite collides_false in Hc.
      destruct H as [[v H]|[v H]]; rewrite Hc in H; set_solver. }
    intros g' Hg'.
    assert (g' = {| nodes := <[node_id :=
                      merged (default ∅ (nodes g !! node_id))
                        (merged {[ "id" := VStr node_id ]} attrs)]> (nodes g);
                    edges := edges g |}) as ->.
    { destruct (nodes g !! node_id) as [old|]; injection Hg' as <-; [done|].
      simpl. unfold merged at 2. by rewrite (right_id_L ∅ (∪)). }
    simpl. split; [done|]. split; [by intros k Hk; rewrite lookup_insert_ne|].
    split.
    + eexists. split; [apply lookup_insert_eq|]. intros field.
      rewrite !merged_lookup. destruct (attrs !! field); [done|].
      case_decide as Hf; [by subst; rewrite lookup_singleton_eq|].
      by rewrite lookup_singleton_ne.
    + rewrite lookup_insert_eq. do 2 f_equal. rewrite insert_insert_eq.
      f_equal. unfold merged. by rewrite (assoc_L (∪)), (idemp_L (∪)).
Qed.

Lemma omap_lookup_Forall2 {K} `{Countable K} {A} (m : gmap K A) (keys : list K) :
  (∀ k, k ∈ keys → is_Some (m !! k)) →
  Forall2 (λ k x, m !! k = Some x) keys (omap (λ k, m !! k) keys).
Proof.
  induction keys as [|k keys IH]; intros Hin; simpl; [constructor|].
  destruct (Hin k) as [x Hx]; [set_solver|]. rewrite Hx.
  constructor; [done|]. apply IH. set_solver.
Qed.

(** X9. [to_dict] lists every node once, in the ascending order of the
    identifiers, and every edge once, in the ascending order of the
    sorted pairs (by first node, then by second). *)
Theorem to_dict_sorted (g : Graph.t) :
  (∃ ids,
     StronglySorted str_le ids ∧ NoDup ids ∧
     (∀ k, k ∈ ids ↔ k ∈ dom (nodes g)) ∧
     Forall2 (λ k n, nodes g !! k = Some n) ids (doc_nodes (to_dict g))) ∧
  (∃ pairs,
     StronglySorted pair_le pairs ∧ NoDup pairs ∧
     (∀ k, k ∈ pairs ↔ k ∈ dom (edges g)) ∧
     Forall2 (λ k e, edges g !! k = Some e) pairs (doc_edges (to_dict g))).
Proof.
  split.
  - exists (merge_sort str_le (map_to_list (nodes g)).*1).
    destruct (sorted_keys str_le (nodes g)) as [Hnd Hin].
    split_and!; [apply StronglySorted_merge_sort; apply _|done| |].
    + intros k. by rewrite Hin, elem_of_dom.
    + apply omap_lookup_Forall2. intros k. apply Hin.
  - exists (merge_sort pair_le (map_to_list (edges g)).*1).
    destruct (sorted_keys pair_le (edges g)) as [Hnd Hin].
    split_and!; [apply StronglySorted_merge_sort; apply _|done| |].
    + intros k. by rewrite Hin, elem_of_dom.
    + apply omap_lookup_Forall2. intros k. apply Hin.
Qed.

(** *** Loading *)

Lemma well_formed_round_trip (g : Graph.t) :
  well_formed g → from_dict (to_dict g) = Ok g.
Proof.
  intros Hwf. unfold from_dict, to_dict. simpl.
  destruct (sorted_keys str_le (nodes g)) as [Hnd Hin].
  destruct (from_dict_nodes g _ empty Hwf Hnd) as (g1 & -> & He1 & Hn1).
  { intros k Hk. split; [by apply Hin|apply lookup_empty]. }
  simpl.
  assert (Hnodes : nodes g1 = nodes g).
  { apply map_eq. intros k. rewrite Hn1. case_decide as Hk; [done|].
    simpl. rewrite lookup_empty. rewrite Hin in Hk.
    symmetry. by rewrite eq_None_not_Some. }
  destruct (sorted_keys pair_le (edges g)) as [Hnd' Hin'].
  destruct (from_dict_edges g _ g1 Hwf Hnodes Hnd') as (g2 & -> & Hn2 & He2).
  { intros k Hk. split; [by apply Hin'|]. rewrite He1. apply lookup_empty. }
  f_equal. destruct g2 as [n2 e2], g as [n e]. simpl in *. f_equal.
  - congruence.
  - apply map_eq. intros k. rewrite He2. case_decide as Hk; [done|].
    rewrite He1. simpl. rewrite lookup_empty. rewrite Hin' in Hk.
    symmetry. by rewrite eq_None_not_Some.
Qed.

Lemma from_dict_node_built (acc acc' : Graph.t) (n : bag) :
  built acc → from_dict_node acc n = Ok acc' → built acc'.
Proof.
  intros Hacc. unfold from_dict_node.
  destruct (n !! "id") as [[| | |node_id|]|]; try done;
    try by destruct (collides _ _).
  apply built_add_node; [done|apply lookup_delete_eq].
Qed.

Lemma from_dict_edge_built (acc acc' : Graph.t) (e : bag) :
  built acc → from_dict_edge acc e = Ok acc' → built acc'.
Proof.
  intros Hacc. unfold from_dict_edge.
  destruct (endpoints e) as [[a b]|]; simpl; [|done].
  unfold add_edge_values. destruct (collides _ _); [done|].
  destruct a as [| | |a|]; try done; destruct b as [| | |b|]; try done.
  apply built_add_edge; [done|].
  rewrite !lookup_delete_ne by done. apply lookup_delete_eq.
Qed.

Lemma from_dict_built (data : document) (g : Graph.t) :
  from_dict data = Ok g → built g.
Proof.
  unfold from_dict.
  destruct (res_fold from_dict_node empty (doc_nodes data)) as [g1|] eqn:Hnodes;
    simpl; [|done].
  intros Hedges.
  assert (built g1).
  { revert Hnodes. apply (res_fold_inv built); [|constructor].
    intros st x st' ? ?. by eapply from_dict_node_built. }
  revert Hedges. apply (res_fold_inv built); [|done].
  intros st x st' ? ?. by eapply from_dict_edge_built.
Qed.

(** X10. A graph that [from_dict] has returned is written by [to_dict]
    as a document from which [from_dict] returns the same graph,
    whatever fields the document it came from had: [from_dict] passes no
    [id] field and no [nodes], [source] or [target] field on as an
    attribute. *)
Theorem loaded_round_trip (data : document) (g : Graph.t) :
  from_dict data = Ok g → from_dict (to_dict g) = Ok g.
Proof.
  intros Hbuilt%from_dict_built. by apply well_formed_round_trip, built_well_formed.
Qed.

(** *** Edges that lead nowhere *)

(** The document gives a node the identifier [k]. *)
Definition declares (data : document) (k : string) : Prop :=
  ∃ n, n ∈ doc_nodes data ∧ n !! "id" = Some (VStr k).

(** Every node has a string for its identifier and every edge strings
    for its endpoints, and no field is named as a parameter of the
    method that stores it. *)
Definition plain_node (n : bag) : Prop :=
  (∃ k, n !! "id" = Some (VStr k)) ∧ n !! "self" = None ∧ n !! "node_id" = None.

Definition plain_edge (e : bag) : Prop :=
  (∃ a b, endpoints e = Ok (VStr a, VStr b)) ∧ e !! "self" = None.

Lemma from_dict_node_plain (acc : Graph.t) (n : bag) (k : string) :
  n !! "id" = Some (VStr k) → n !! "self" = None → n !! "node_id" = None →
  ∃ stored, from_dict_node acc n
            = Ok {| nodes := <[k := stored]> (nodes acc); edges := edges acc |}.
Proof.
  intros Hk Hself Hnid. unfold from_dict_node. rewrite Hk. unfold add_node.
  assert (collides ["self"; "node_id"] (delete "id" n) = false) as ->.
  { apply collides_false. intros p Hp. rewrite lookup_delete_None. set_solver. }
  destruct (nodes acc !! k); by eexists.
Qed.

Lemma from_dict_edge_plain (acc : Graph.t) (e : bag) (a b : string) :
  endpoints e = Ok (VStr a, VStr b) → e !! "self" = None →
  (a ∈ dom (nodes acc) ∧ b ∈ dom (nodes acc) ∧
   ∃ stored, from_dict_edge acc e = Ok {| nodes := nodes acc; edges := stored |}) ∨
  (¬ (a ∈ dom (nodes acc) ∧ b ∈ dom (nodes acc)) ∧
   from_dict_edge acc e = Raise MissingEndpoint).
Proof.
  intros Hab Hself. unfold from_dict_edge. rewrite Hab. simpl.
  unfold add_edge_values, add_edge.
  assert (collides ["self"; "source"; "target"]
            (delete "target" (delete "source" (delete "nodes" e))) = false) as ->.
  { apply collides_false. intros p Hp. rewrite !lookup_delete_None. set_solver. }
  destruct (contains (nodes acc) a) eqn:Ha; simpl.
  2:{ right. split; [|done]. intros [Hin _]. apply contains_true in Hin. congruence. }
  destruct (contains (nodes acc) b) eqn:Hb; simpl.
  2:{ right. split; [|done]. intros [_ Hin]. apply contains_true in Hin. congruence. }
  apply contains_true in Ha, Hb. left. split_and!; [done..|].
  destruct (edges acc !! sorted_pair a b); by eexists.
Qed.

Lemma from_dict_nodes_dom (l : list bag) (acc : Graph.t) :
  Forall plain_node l →
  ∃ acc',
    res_fold from_dict_node acc l = Ok acc' ∧ edges acc' = edges acc ∧
    ∀ k, k ∈ dom (nodes acc') ↔
         k ∈ dom (nodes acc) ∨ ∃ n, n ∈ l ∧ n !! "id" = Some (VStr k).
Proof.
  intros Hl. revert acc. induction Hl as [|n l ([k Hk] & Hself & Hnid) _ IH]; intros acc.
  - exists acc. split_and!; [done..|]. intros k. set_solver.
  - rewrite res_fold_cons.
    destruct (from_dict_node_plain acc n k Hk Hself Hnid) as [stored ->].
    rewrite res_bind_Ok.
    destruct (IH {| nodes := <[k := stored]> (nodes acc); edges := edges acc |})
      as (acc' & -> & He & Hdom).
    exists acc'. split_and!; [done..|]. intros k'. rewrite Hdom. simpl.
    rewrite dom_insert_L. split.
    + intros [[->%elem_of_singleton|?]%elem_of_union|(m & ? & ?)].
      * right. exists n. set_solver.
      * by left.
      * right. exists m. set_solver.
    + intros [?|(m & [->|?]%elem_of_cons & Hm)].
      * left. set_solver.
      * left. rewrite Hk in Hm. injection Hm as ->. set_solver.
      * right. by exists m.
Qed.

Lemma from_dict_edges_dangling (l : list bag) (acc : Graph.t) :
  Forall plain_edge l →
  match res_fold from_dict_edge acc l with
  | Ok acc' =>
      nodes acc' = nodes acc ∧
      ∀ e a b, e ∈ l → endpoints e = Ok (VStr a, VStr b) →
               a ∈ dom (nodes acc) ∧ b ∈ dom (nodes acc)
  | Raise x =>
      x = MissingEndpoint ∧
      ∃ e a b, e ∈ l ∧ endpoints e = Ok (VStr a, VStr b) ∧
               ¬ (a ∈ dom (nodes acc) ∧ b ∈ dom (nodes acc))
  end.
Proof.
  intros Hl. revert acc. induction Hl as [|e l ((a & b & Hab) & Hself) _ IH]; intros acc.
  - simpl. split; [done|]. by intros e a b []%elem_of_nil.
  - rewrite res_fold_cons.
    destruct (from_dict_edge_plain acc e a b Hab Hself)
      as [(Ha & Hb & stored & ->)|[Hmissing ->]].
    + rewrite res_bind_Ok.
      specialize (IH {| nodes := nodes acc; edges := stored |}).
      destruct (res_fold from_dict_edge _ l) as [acc'|x]; simpl in IH.
      * destruct IH as [Hn Hall]. split; [done|].
        intros e' a' b' [->|Hin]%elem_of_cons He'; [|by eapply Hall].
        rewrite Hab in He'. by injection He' as <- <-.
      * destruct IH as (-> & e' & a' & b' & ? & ? & ?). split; [done|].
        exists e', a', b'. set_solver.
    + simpl. split; [done|]. exists e, a, b. set_solver.
Qed.

(** X11. For a document whose nodes have strings for identifiers and
    whose edges have strings for endpoints (no field being named as a
    parameter of [add_node] or [add_edge]), [from_dict] returns a graph
    exactly when both endpoints of every edge are identifiers of nodes
    of the document; the nodes of that graph are the identifiers the
    document gives, and when it raises, it raises the [ValueError] of
    [add_edge] for a missing node. *)
Theorem from_dict_dangling (data : document) :
  Forall plain_node (doc_nodes data) →
  Forall plain_edge (doc_edges data) →
  ((∃ g, from_dict data = Ok g) ↔
   ∀ e a b, e ∈ doc_edges data → endpoints e = Ok (VStr a, VStr b) →
            declares data a ∧ declares data b) ∧
  (∀ g, from_dict data = Ok g → ∀ k, k ∈ dom (nodes g) ↔ declares data k) ∧
  (∀ x, from_dict data = Raise x → x = MissingEndpoint).
Proof.
  intros Hnodes Hedges. unfold from_dict.
  destruct (from_dict_nodes_dom _ empty Hnodes) as (g1 & -> & _ & Hdom). simpl.
  assert (Hdecl : ∀ k, k ∈ dom (nodes g1) ↔ declares data k).
  { intros k. rewrite Hdom. simpl. rewrite dom_empty_L. unfold declares. set_solver. }
  pose proof (from_dict_edges_dangling _ g1 Hedges) as H.
  destruct (res_fold from_dict_edge g1 (doc_edges data)) as [g|x].
  - destruct H as [Hn Hall]. split_and!.
    + split; [|by eexists]. intros _ e a b He Hab. rewrite <- !Hdecl. by eapply Hall.
    + intros g' [= <-] k. by rewrite Hn.
    + done.
  - destruct H as (-> & e & a & b & He & Hab & Hmissing). split_and!.
    + split; [by intros [g ?]|]. intros Hall. destruct Hmissing.
      rewrite !Hdecl. by eapply Hall.
    + done.
    + by intros x [= <-].
Qed.

End GraphProperties.

(** ** From the graph builder to the planner *)

Section BuilderToPlanner.

Variable float_of_str : string → option Q.

Local Abbreviation py_float := (Travel.py_float float_of_str).
Local Abbreviation prepare_graph := (Travel.prepare_graph float_of_str).
Local Abbreviation prepare_edge := (Travel.prepare_edge float_of_str).

Lemma prepare_nodes_to_dict (g : Graph.t) (keys : list string)
    (acc : gmap string bag) :
  well_formed g → (∀ k, k ∈ keys → is_Some (Graph.nodes g !! k)) →
  ∃ acc',
    res_fold prepare_node acc (omap (λ k, Graph.nodes g !! k) keys) = Ok acc' ∧
    ∀ k, acc' !! k = if decide (k ∈ keys) then Graph.nodes g !! k else acc !! k.
Proof.
  intros Hwf. revert acc. induction keys as [|k keys IH]; intros acc Hin.
  - by exists acc.
  - destruct (Hin k) as [n Hn]; [set_solver|]. simpl. rewrite Hn.
    rewrite res_fold_cons. destruct (wf_node g Hwf k n Hn) as (Hid & _).
    assert (prepare_node acc n = Ok (<[k := n]> acc)) as ->
      by (unfold prepare_node; by rewrite Hid).
    rewrite res_bind_Ok.
    destruct (IH (<[k := n]> acc)) as (acc' & Hfold & Hacc'); [set_solver|].
    exists acc'. split; [exact Hfold|]. intros k'. rewrite Hacc'.
    destruct (decide (k' = k)) as [->|Hne].
    + rewrite lookup_insert_eq, Hn. rewrite (decide_True _ _ (list_elem_of_here _ _)).
      by destruct (decide _).
    + rewrite lookup_insert_ne by done.
      destruct (decide (k' ∈ keys)).
      * by rewrite decide_True by set_solver.
      * by rewrite decide_False by set_solver.
Qed.

Lemma prepare_edges_Ok (l : list bag) (acc : adjacency_t) :
  Forall (λ e, ∃ a b d, endpoints e = Ok (VStr a, VStr b) ∧
                        py_float (raw_distance e) = Ok d) l →
  ∃ adjacency, res_fold prepare_edge acc l = Ok adjacency.
Proof.
  intros Hl. revert acc. induction Hl as [|e l (a & b & d & Hab & Hd) _ IH]; intros acc.
  - by exists acc.
  - rewrite res_fold_cons.
    assert (∃ acc', prepare_edge acc e = Ok acc') as [acc' ->]; [|apply IH].
    unfold Travel.prepare_edge. rewrite Hab. simpl.
    fold (edge_fields e). fold (raw_distance e). rewrite Hd. simpl. by eexists.
Qed.

Lemma well_formed_endpoints (g : Graph.t) k e :
  well_formed g → Graph.edges g !! k = Some e →
  endpoints e = Ok (VStr k.1, VStr k.2).
Proof.
  intros Hwf He. destruct (wf_edge g Hwf k e He) as (Hn & _).
  unfold endpoints. by rewrite Hn.
Qed.


End BuilderToPlanner.

(** ** The editor's file format *)

Section EditorProperties.

Import Editor.

(** A graph as [load] returns it: no node has an [id] attribute and a
    port flag is a boolean; every edge names a sorted pair of nodes under
    [nodes], has no [source] or [target] field, and lists its modes; no
    two edges name the same pair. *)
Record normal_edge (e : bag) : Prop := {
  ne_nodes : ∃ a b, e !! "nodes" = Some (VList [VStr a; VStr b]) ∧
                    sorted_pair a b = (a, b);
  ne_source : e !! "source" = None;
  ne_target : e !! "target" = None;
  ne_modes v : e !! "allowed_modes" = Some v → ∃ l, v = VList l
}.

Record normal (g : GraphData.t) : Prop := {
  n_node k attrs :
    GraphData.nodes g !! k = Some attrs →
    attrs !! "id" = None ∧
    ∀ v, attrs !! "is_port" = Some v → ∃ b, v = VBool b;
  n_edge e : e ∈ GraphData.edges g → normal_edge e;
  n_unique : NoDup (omap edge_pair (GraphData.edges g))
}.

Lemma node_attrs_normal (n : bag) :
  node_attrs n !! "id" = None ∧
  ∀ v, node_attrs n !! "is_port" = Some v → ∃ b, v = VBool b.
Proof.
  unfold node_attrs. destruct (delete "id" n !! "is_port") as [p|] eqn:Hp.
  - split; [by rewrite lookup_insert_ne, lookup_delete_eq|].
    intros v. rewrite lookup_insert_eq. intros [= <-]. by eexists.
  - split; [apply lookup_delete_eq|]. intros v. by rewrite Hp.
Qed.

Lemma load_nodes_normal (l : list bag) (acc nodes : gmap string bag) :
  (∀ k attrs, acc !! k = Some attrs →
     attrs !! "id" = None ∧ ∀ v, attrs !! "is_port" = Some v → ∃ b, v = VBool b) →
  res_fold load_node acc l = Ok nodes →
  ∀ k attrs, nodes !! k = Some attrs →
    attrs !! "id" = None ∧ ∀ v, attrs !! "is_port" = Some v → ∃ b, v = VBool b.
Proof.
  intros Hacc. revert Hacc.
  apply (res_fold_inv (λ m : gmap string bag, ∀ k attrs, m !! k = Some attrs →
           attrs !! "id" = None ∧ ∀ v, attrs !! "is_port" = Some v → ∃ b, v = VBool b)).
  intros st n st' Hst. unfold load_node.
  destruct (n !! "id") as [[| | |node_id|]|]; try done.
  intros [= <-] k attrs. destruct (decide (k = node_id)) as [->|Hne].
  - rewrite lookup_insert_eq. intros [= <-]. apply node_attrs_normal.
  - rewrite lookup_insert_ne by done. apply Hst.
Qed.

Lemma pair_eqb_true (k key : string * string) :
  String.eqb k.1 key.1 && String.eqb k.2 key.2 = true ↔ k = key.
Proof.
  destruct k as [k1 k2], key as [x1 x2]. simpl.
  rewrite andb_true_iff, !String.eqb_eq. naive_solver.
Qed.

Lemma dict_set_elem {V} (d : list ((string * string) * V)) key v k x :
  NoDup d.*1 →
  (k, x) ∈ dict_set d key v ↔ (k = key ∧ x = v) ∨ (k ≠ key ∧ (k, x) ∈ d).
Proof.
  induction d as [|[k0 x0] d IH]; intros Hnd; simpl.
  - rewrite list_elem_of_singleton. split; [intros [= -> ->]; by left|].
    intros [[-> ->]|[_ []%elem_of_nil]]. done.
  - apply NoDup_cons in Hnd as [Hk0 Hnd].
    destruct (String.eqb k0.1 key.1 && String.eqb k0.2 key.2) eqn:Heq.
    + apply pair_eqb_true in Heq as ->. rewrite !elem_of_cons. split.
      * intros [[= -> ->]|Hin]; [by left|]. right. split; [|by right].
        intros ->. apply Hk0. apply list_elem_of_fmap. by exists (key, x).
      * intros [[-> ->]|[Hne [[= -> ->]|Hin]]]; [by left|done|by right].
    + assert (k0 ≠ key) by (intros Hk; apply pair_eqb_true in Hk; congruence).
      rewrite !elem_of_cons, IH by done. naive_solver.
Qed.

Lemma dict_set_keys {V} (d : list ((string * string) * V)) key v :
  (key ∈ d.*1 → (dict_set d key v).*1 = d.*1) ∧
  (key ∉ d.*1 → (dict_set d key v).*1 = d.*1 ++ [key]).
Proof.
  induction d as [|[k0 x0] d [IH1 IH2]]; simpl.
  - split; [by intros []%elem_of_nil|done].
  - destruct (String.eqb k0.1 key.1 && String.eqb k0.2 key.2) eqn:Heq.
    + apply pair_eqb_true in Heq as ->. simpl. split; [done|set_solver].
    + assert (k0 ≠ key) by (intros Hk; apply pair_eqb_true in Hk; congruence).
      simpl. split.
      * intros [?|Hin]%elem_of_cons; [done|]. f_equal. by apply IH1.
      * intros Hin. f_equal. apply IH2. set_solver.
Qed.

Lemma dict_set_NoDup {V} (d : list ((string * string) * V)) key v :
  NoDup d.*1 → NoDup (dict_set d key v).*1.
Proof.
  intros Hnd. destruct (dict_set_keys d key v) as [H1 H2].
  destruct (decide (key ∈ d.*1)) as [Hin|Hin]; [by rewrite H1|].
  rewrite H2 by done.
  apply NoDup_app. split_and!; [done|set_solver|apply NoDup_singleton].
Qed.

Lemma edge_attrs_Ok (e attrs : bag) :
  edge_attrs e = Ok attrs →
  attrs !! "nodes" = None ∧ attrs !! "source" = None ∧ attrs !! "target" = None ∧
  ∀ v, attrs !! "allowed_modes" = Some v → ∃ l, v = VList l.
Proof.
  unfold edge_attrs.
  set (a := delete "target" (delete "source" (delete "nodes" e))).
  assert (Ha : a !! "nodes" = None ∧ a !! "source" = None ∧ a !! "target" = None)
    by (unfold a; rewrite !lookup_delete_None; auto 10).
  destruct (a !! "allowed_modes") as [v|] eqn:Hv.
  - destruct (py_list v) as [modes|] eqn:Hmodes; simpl; [|done]. intros [= <-].
    rewrite !lookup_insert_ne by done. split_and!; try apply Ha.
    intros v'. rewrite lookup_insert_eq. intros [= <-].
    destruct v; simplify_eq/=; by eexists.
  - intros [= <-]. split_and!; try apply Ha. intros v'. by rewrite Hv.
Qed.

(** The edge [load] stores for the pair [key]. *)
Definition stored_edge (key : string * string) (attrs : bag) : bag :=
  Graph.merged {[ "nodes" := VList [VStr key.1; VStr key.2] ]} attrs.

Lemma stored_edge_normal (a b : string) (e attrs : bag) :
  edge_attrs e = Ok attrs →
  normal_edge (stored_edge (sorted_pair a b) attrs) ∧
  edge_pair (stored_edge (sorted_pair a b) attrs) = Some (sorted_pair a b).
Proof.
  intros (Hn & Hs & Ht & Hm)%edge_attrs_Ok.
  assert (Hnodes : stored_edge (sorted_pair a b) attrs !! "nodes"
            = Some (VList [VStr (sorted_pair a b).1; VStr (sorted_pair a b).2])).
  { unfold stored_edge. by rewrite merged_lookup, Hn, lookup_singleton_eq. }
  split.
  - split.
    + eexists _, _. split; [exact Hnodes|].
      rewrite sorted_pair_idem. by destruct (sorted_pair a b).
    + unfold stored_edge. by rewrite merged_lookup, Hs.
    + unfold stored_edge. by rewrite merged_lookup, Ht.
    + intros v. unfold stored_edge. rewrite merged_lookup.
      destruct (attrs !! "allowed_modes") as [v'|] eqn:Hv; [|done].
      intros [= <-]. by apply Hm.
  - unfold edge_pair. rewrite Hnodes.
    by rewrite sorted_pair_idem.
Qed.

Lemma load_edge_Ok (d d' : list ((string * string) * bag)) (e : bag) :
  load_edge d e = Ok d' →
  ∃ a b attrs,
    endpoints e = Ok (VStr a, VStr b) ∧ edge_attrs e = Ok attrs ∧
    d' = dict_set d (sorted_pair a b) (stored_edge (sorted_pair a b) attrs).
Proof.
  unfold load_edge. destruct (endpoints e) as [[a b]|]; simpl; [|done].
  destruct a as [|?|?|a|]; try done; destruct b as [|?|?|b|]; try done;
    try by destruct (edge_attrs e).
  destruct (edge_attrs e) as [attrs|]; simpl; [|done].
  intros [= <-]. by exists a, b, attrs.
Qed.

(** The edges read so far, under their pairs. *)
Definition keyed (d : list ((string * string) * bag)) : Prop :=
  NoDup d.*1 ∧
  ∀ k e, (k, e) ∈ d → normal_edge e ∧ edge_pair e = Some k.

Lemma load_edge_keyed (d d' : list ((string * string) * bag)) (e : bag) :
  keyed d → load_edge d e = Ok d' → keyed d'.
Proof.
  intros [Hnd Hd] (a & b & attrs & _ & Hattrs & ->)%load_edge_Ok.
  split; [by apply dict_set_NoDup|].
  intros k x [[-> ->]|[_ Hin]]%dict_set_elem; [|by apply Hd|done].
  by eapply stored_edge_normal.
Qed.

Lemma keyed_keys (d : list ((string * string) * bag)) :
  keyed d → omap edge_pair d.*2 = d.*1.
Proof.
  intros [_ Hd]. induction d as [|[k e] d IH]; [done|]. simpl.
  destruct (Hd k e) as [_ ->]; [set_solver|]. f_equal. apply IH.
  intros k' e' Hin. apply Hd. set_solver.
Qed.

Lemma load_normal (data : document) (g : GraphData.t) :
  load data = Ok g → normal g.
Proof.
  unfold load.
  destruct (res_fold load_node ∅ (doc_nodes data)) as [nodes|] eqn:Hnodes;
    simpl; [|done].
  destruct (res_fold load_edge [] (doc_edges data)) as [d|] eqn:Hedges;
    simpl; [|done].
  intros [= <-].
  assert (Hd : keyed d).
  { revert Hedges. apply (res_fold_inv keyed).
    - intros st x st'. apply load_edge_keyed.
    - split; [constructor|]. by intros k e []%elem_of_nil. }
  split; simpl.
  - eapply load_nodes_normal; [|done]. intros k attrs. by rewrite lookup_empty.
  - intros e (ke & -> & Hin)%list_elem_of_fmap. destruct ke as [k e].
    by apply (proj2 Hd k e).
  - rewrite keyed_keys by done. apply Hd.
Qed.

(** X13. A graph that [load] returns is in the normal form of the
    editor: no node has an [id] attribute, a port flag is a boolean,
    every edge names the sorted pair of its endpoints under [nodes], has
    no [source] or [target] field and lists its modes, and no two edges
    name the same pair. *)
Theorem loaded_graph_normal (data : document) (g : GraphData.t) :
  load data = Ok g →
  (∀ k attrs, GraphData.nodes g !! k = Some attrs →
     attrs !! "id" = None ∧
     ∀ v, attrs !! "is_port" = Some v → ∃ b, v = VBool b) ∧
  (∀ e, e ∈ GraphData.edges g →
     (∃ a b, e !! "nodes" = Some (VList [VStr a; VStr b]) ∧
             sorted_pair a b = (a, b) ∧
             edge_pair e = Some (a, b)) ∧
     e !! "source" = None ∧ e !! "target" = None ∧
     ∀ v, e !! "allowed_modes" = Some v → ∃ l, v = VList l) ∧
  NoDup (omap edge_pair (GraphData.edges g)).
Proof.
  intros Hg%load_normal. split_and!; [apply Hg| |apply Hg].
  intros e He%(n_edge g Hg). split_and!; [|apply He..].
  destruct He as [(a & b & Hn & Hab) _ _ _]. exists a, b. split_and!; [done..|].
  unfold edge_pair. by rewrite Hn, Hab.
Qed.

(** *** Saving and loading again *)

Lemma node_attrs_saved (k : string) (attrs : bag) :
  attrs !! "id" = None →
  (∀ v, attrs !! "is_port" = Some v → ∃ b, v = VBool b) →
  Graph.merged {[ "id" := VStr k ]} attrs !! "id" = Some (VStr k) ∧
  node_attrs (Graph.merged {[ "id" := VStr k ]} attrs) = attrs.
Proof.
  intros Hid Hport. split; [by rewrite merged_lookup, Hid, lookup_singleton_eq|].
  assert (Hdel : delete "id" (Graph.merged {[ "id" := VStr k ]} attrs) = attrs).
  { apply map_eq. intros f. destruct (decide (f = "id")) as [->|Hf].
    - by rewrite lookup_delete_eq.
    - rewrite lookup_delete_ne, merged_lookup, lookup_singleton_ne by done.
      by destruct (attrs !! f). }
  unfold node_attrs. rewrite Hdel.
  destruct (attrs !! "is_port") as [v|] eqn:Hv; [|done].
  destruct (Hport v eq_refl) as [b ->]. by apply insert_id.
Qed.

Lemma load_nodes_saved (g : GraphData.t) (keys : list string)
    (acc : gmap string bag) :
  normal g → (∀ k, k ∈ keys → is_Some (GraphData.nodes g !! k)) →
  ∃ acc',
    res_fold load_node acc
      (omap (λ nid, (λ attrs, Graph.merged {[ "id" := VStr nid ]} attrs)
                      <$> GraphData.nodes g !! nid) keys) = Ok acc' ∧
    ∀ k, acc' !! k = if decide (k ∈ keys) then GraphData.nodes g !! k else acc !! k.
Proof.
  intros Hg. revert acc. induction keys as [|k keys IH]; intros acc Hin.
  - by exists acc.
  - destruct (Hin k) as [attrs Hk]; [set_solver|]. simpl. rewrite Hk. simpl.
    destruct (n_node g Hg k attrs Hk) as [Hid Hport].
    destruct (node_attrs_saved k attrs Hid Hport) as [Hid' Hattrs].
    assert (load_node acc (Graph.merged {[ "id" := VStr k ]} attrs)
            = Ok (<[k := attrs]> acc)) as ->
      by (unfold load_node; by rewrite Hid', Hattrs).
    rewrite res_bind_Ok.
    destruct (IH (<[k := attrs]> acc)) as (acc' & Hfold & Hacc'); [set_solver|].
    exists acc'. split; [exact Hfold|]. intros k'. rewrite Hacc'.
    destruct (decide (k' = k)) as [->|Hne].
    + rewrite lookup_insert_eq, Hk. rewrite (decide_True _ _ (list_elem_of_here _ _)).
      by destruct (decide _).
    + rewrite lookup_insert_ne by done.
      destruct (decide (k' ∈ keys)).
      * by rewrite decide_True by set_solver.
      * by rewrite decide_False by set_solver.
Qed.

Lemma normal_edge_key (e : bag) :
  normal_edge e →
  ∃ a b, e !! "nodes" = Some (VList [VStr a; VStr b]) ∧
         sorted_pair a b = (a, b) ∧
         endpoints e = Ok (VStr a, VStr b) ∧
         edge_pair e = Some (a, b).
Proof.
  intros [(a & b & Hn & Hab) _ _ _]. exists a, b. split_and!; [done..| |].
  - unfold endpoints. by rewrite Hn.
  - unfold edge_pair. by rewrite Hn, Hab.
Qed.

Lemma load_edge_normal (d : list ((string * string) * bag)) (e : bag) key :
  normal_edge e → edge_pair e = Some key →
  load_edge d e = Ok (dict_set d key e).
Proof.
  intros He Hkey. destruct (normal_edge_key e He) as (a & b & Hn & Hab & Hends & Hkey').
  rewrite Hkey in Hkey'. injection Hkey' as ->.
  unfold load_edge. rewrite Hends. simpl. rewrite Hab.
  assert (edge_attrs e = Ok (delete "nodes" e)) as ->.
  { unfold edge_attrs.
    rewrite (delete_id (delete "nodes" e) "source")
      by (rewrite lookup_delete_ne by done; apply He).
    rewrite (delete_id (delete "nodes" e) "target")
      by (rewrite lookup_delete_ne by done; apply He).
    rewrite lookup_delete_ne by done.
    destruct (e !! "allowed_modes") as [v|] eqn:Hv; [|done].
    destruct (ne_modes e He v Hv) as [l ->]. simpl. f_equal.
    apply insert_id. by rewrite lookup_delete_ne. }
  simpl. do 2 f_equal. apply map_eq. intros f. rewrite merged_lookup.
  destruct (decide (f = "nodes")) as [->|Hf].
  - by rewrite lookup_delete_eq, lookup_singleton_eq.
  - rewrite lookup_delete_ne, lookup_singleton_ne by done. by destruct (e !! f).
Qed.

Lemma dict_set_fresh {V} (d : list ((string * string) * V)) key v :
  key ∉ d.*1 → dict_set d key v = d ++ [(key, v)].
Proof.
  induction d as [|[k0 x0] d IH]; intros Hk; simpl; [done|].
  destruct (String.eqb k0.1 key.1 && String.eqb k0.2 key.2) eqn:Heq.
  - apply pair_eqb_true in Heq as ->. set_solver.
  - f_equal. apply IH. set_solver.
Qed.

Lemma load_edges_saved (l : list bag) (d : list ((string * string) * bag)) :
  Forall normal_edge l → NoDup (d.*1 ++ omap edge_pair l) →
  ∃ d', res_fold load_edge d l = Ok d' ∧ d'.*2 = d.*2 ++ l.
Proof.
  intros Hl. revert d. induction Hl as [|e l He _ IH]; intros d Hnd.
  - exists d. by rewrite app_nil_r.
  - destruct (normal_edge_key e He) as (a & b & _ & _ & _ & Hkey).
    simpl in Hnd. rewrite Hkey in Hnd. rewrite res_fold_cons.
    rewrite (load_edge_normal d e (a, b)) by done. rewrite res_bind_Ok.
    apply NoDup_app in Hnd as (Hd & Hdisj & Hl').
    rewrite dict_set_fresh by (intros Hin; apply (Hdisj _ Hin); set_solver).
    destruct (IH (d ++ [((a, b), e)])) as (d' & -> & Hd').
    { rewrite fmap_app. simpl. rewrite <- app_assoc. simpl.
      apply NoDup_app. split_and!; [done| |done]. intros k Hk. by apply Hdisj. }
    exists d'. split; [done|]. rewrite Hd', fmap_app. simpl.
    by rewrite <- app_assoc.
Qed.

Lemma normal_reloads (g : GraphData.t) :
  normal g → load (save g) = Ok g.
Proof.
  intros Hg. unfold load, save. simpl.
  destruct (sorted_keys str_le (GraphData.nodes g)) as [_ Hin].
  destruct (load_nodes_saved g (merge_sort str_le (map_to_list (GraphData.nodes g)).*1)
              ∅ Hg) as (nodes' & -> & Hlookup); [by intros k ?%Hin|].
  assert (nodes' = GraphData.nodes g) as ->.
  { apply map_eq. intros k. rewrite Hlookup. case_decide as Hk; [done|].
    rewrite lookup_empty. rewrite Hin in Hk. symmetry. by rewrite eq_None_not_Some. }
  simpl.
  destruct (load_edges_saved (GraphData.edges g) []) as (d' & -> & Hd').
  { apply Forall_forall. apply Hg. }
  { apply Hg. }
  simpl. rewrite Hd'. by destruct g.
Qed.

(** X14. [save] writes the nodes in the ascending order of their
    identifiers, each with its identifier under [id], and the edges as
    they are; [load] reads a graph in normal form back from that
    document: every node with its attributes, and the edges in their
    order. *)
Theorem save_load (g : GraphData.t) :
  normal g →
  load (save g) = Ok g ∧
  doc_edges (save g) = GraphData.edges g ∧
  ∃ ids,
    StronglySorted str_le ids ∧
    (∀ k, k ∈ ids ↔ k ∈ dom (GraphData.nodes g)) ∧
    Forall2 (λ k n, ∃ attrs, GraphData.nodes g !! k = Some attrs ∧
                             n = Graph.merged {[ "id" := VStr k ]} attrs)
      ids (doc_nodes (save g)).
Proof.
  intros Hg. split; [by apply normal_reloads|]. split; [done|].
  exists (merge_sort str_le (map_to_list (GraphData.nodes g)).*1).
  destruct (sorted_keys str_le (GraphData.nodes g)) as [_ Hin].
  split_and!; [apply StronglySorted_merge_sort; apply _| |].
  - intros k. by rewrite Hin, elem_of_dom.
  - unfold save. simpl.
    assert (Hall : ∀ k, k ∈ merge_sort str_le (map_to_list (GraphData.nodes g)).*1 →
                        is_Some (GraphData.nodes g !! k)) by (intros k; apply Hin).
    revert Hall. generalize (merge_sort str_le (map_to_list (GraphData.nodes g)).*1).
    intros keys. induction keys as [|k keys IH]; intros Hall; [constructor|].
    destruct (Hall k) as [attrs Hk]; [set_solver|]. simpl. rewrite Hk. simpl.
    constructor; [by exists attrs|]. apply IH. intros k' Hk'. apply Hall. set_solver.
Qed.

(** *** An edge given twice *)

(** The pair [raw] is an edge of. *)
Definition raw_key (raw : bag) : option (string * string) :=
  match endpoints raw with
  | Ok (VStr a, VStr b) => Some (sorted_pair a b)
  | _ => None
  end.

Lemma load_edge_raw_key (d d' : list ((string * string) * bag)) (raw : bag) :
  load_edge d raw = Ok d' →
  ∃ key attrs, raw_key raw = Some key ∧ edge_attrs raw = Ok attrs ∧
               d' = dict_set d key (stored_edge key attrs).
Proof.
  intros (a & b & attrs & Hab & Hattrs & ->)%load_edge_Ok.
  exists (sorted_pair a b), attrs. unfold raw_key. by rewrite Hab.
Qed.

Lemma load_edges_last (l : list bag) (d : list ((string * string) * bag)) :
  res_fold load_edge [] l = Ok d →
  NoDup d.*1 ∧
  ∀ key e, (key, e) ∈ d ↔
    ∃ before raw after attrs,
      l = before ++ raw :: after ∧
      raw_key raw = Some key ∧ edge_attrs raw = Ok attrs ∧
      e = stored_edge key attrs ∧
      ∀ raw', raw' ∈ after → raw_key raw' ≠ Some key.
Proof.
  revert d. induction l as [|x l IH] using rev_ind; intros d.
  - intros [= <-]. split; [constructor|]. intros key e. split; [by intros []%elem_of_nil|].
    intros (before & raw & after & attrs & H & _). by destruct before.
  - rewrite res_fold_snoc.
    destruct (res_fold load_edge [] l) as [d0|]; simpl; [|done].
    destruct (IH d0 eq_refl) as [Hnd Hd0].
    intros (kx & ax & Hkx & Hax & ->)%load_edge_raw_key.
    split; [by apply dict_set_NoDup|].
    intros key e. rewrite dict_set_elem by done. split.
    + intros [[-> ->]|[Hne Hin]].
      * exists l, x, [], ax. split_and!; try done. by intros raw' []%elem_of_nil.
      * apply Hd0 in Hin as (before & raw & after & attrs & -> & Hraw & Hattrs & -> & Hlast).
        exists before, raw, (after ++ [x]), attrs.
        split_and!; try done; [by rewrite <- app_assoc|].
        intros raw' [Hin| ->%list_elem_of_singleton]%elem_of_app; [by apply Hlast|].
        rewrite Hkx. congruence.
    + intros (before & raw & after & attrs & H & Hraw & Hattrs & -> & Hlast).
      destruct after as [|y after _] using rev_ind.
      * apply app_inj_tail in H as [-> ->]. left.
        rewrite Hkx in Hraw. injection Hraw as ->.
        rewrite Hax in Hattrs. by injection Hattrs as ->.
      * rewrite app_comm_cons, app_assoc in H. apply app_inj_tail in H as [-> <-].
        right. split.
        -- intros ->. destruct (Hlast x); [set_solver|done].
        -- apply Hd0. exists before, raw, after, attrs. split_and!; try done.
           intros raw' Hin. apply Hlast. set_solver.
Qed.

(** X15. Of the edges a document gives for one pair of nodes, [load]
    keeps the last: its attributes as they are read (without the
    endpoint fields, the modes as a list) under the sorted pair, and no
    attribute of an earlier one. *)
Theorem load_last_edge (data : document) (g : GraphData.t) :
  load data = Ok g →
  ∀ e, e ∈ GraphData.edges g ↔
    ∃ before raw after key attrs,
      doc_edges data = before ++ raw :: after ∧
      raw_key raw = Some key ∧ edge_attrs raw = Ok attrs ∧
      e = Graph.merged {[ "nodes" := VList [VStr key.1; VStr key.2] ]} attrs ∧
      ∀ raw', raw' ∈ after → raw_key raw' ≠ Some key.
Proof.
  unfold load.
  destruct (res_fold load_node ∅ (doc_nodes data)) as [nodes|]; simpl; [|done].
  destruct (res_fold load_edge [] (doc_edges data)) as [d|] eqn:Hedges;
    simpl; [|done].
  intros [= <-] e. simpl. apply load_edges_last in Hedges as [_ Hd].
  rewrite list_elem_of_fmap. split.
  - intros ([key e'] & -> & Hin). simpl.
    apply Hd in Hin as (before & raw & after & attrs & ?). by exists before, raw, after, key, attrs.
  - intros (before & raw & after & key & attrs & H). exists (key, e). split; [done|].
    apply Hd. by exists before, raw, after, attrs.
Qed.

End EditorProperties.

(** ** The editor's graph, edit after edit *)

Section EditingProperties.

Import Editor.

(** The graphs the editor can hold: the empty graph or a graph that
    [load] returned, changed by the methods of [GraphData]; the
    attributes given to [upsert_edge] have no [nodes] field.  A call of
    [upsert_edge] or [remove_edge] that raises leaves the graph as it
    is; [remove_node] has deleted the node when it raises. *)
Inductive editable : GraphData.t → Prop :=
  | editable_empty : editable GraphData.empty
  | editable_load data g : load data = Ok g → editable g
  | editable_ensure_node g node_id :
      editable g → editable (GraphData.ensure_node g node_id)
  | editable_add_node g node_id attrs :
      editable g → editable (GraphData.add_node g node_id attrs)
  | editable_remove_node g node_id :
      editable g → editable (GraphData.remove_node g node_id).1
  | editable_upsert_edge g a b attrs g' :
      editable g → attrs !! "nodes" = None →
      GraphData.upsert_edge g a b attrs = Ok g' → editable g'
  | editable_remove_edge g a b g' :
      editable g → GraphData.remove_edge g a b = Ok g' → editable g'.

(** Every edge names a pair, and no two edges name the same. *)
Definition one_per_pair (edges : list bag) : Prop :=
  Forall (λ e, is_Some (edge_pair e)) edges ∧
  NoDup (omap edge_pair edges).

Lemma one_per_pair_filter (f : bag → bool) (edges : list bag) :
  one_per_pair edges → one_per_pair (List.filter f edges).
Proof.
  intros [Hkey Hnd]. induction edges as [|e edges IH]; [done|].
  apply Forall_cons in Hkey as [[k Hk] Hkey]. simpl in Hnd. rewrite Hk in Hnd.
  apply NoDup_cons in Hnd as [Hnotin Hnd]. destruct (IH Hkey Hnd) as [IH1 IH2].
  simpl. destruct (f e); [|done]. split.
  - apply Forall_cons. split; [by exists k|done].
  - simpl. rewrite Hk. apply NoDup_cons. split; [|done].
    intros (x & Hx & Hkx)%list_elem_of_omap. apply Hnotin.
    apply list_elem_of_omap. exists x. split; [|done].
    apply list_elem_of_In. apply list_elem_of_In in Hx.
    by apply List.filter_In in Hx as [? _].
Qed.

(** *** On edges that name a pair, no test raises *)

Lemma edge_pair_plain (e : bag) : is_Some (edge_pair e) → plain_nodes e.
Proof.
  unfold edge_pair, plain_nodes. intros [k Hk].
  by destruct (e !! "nodes") as [[| | | |[|[| | |a|] [|[| | |b|] [|]]]]|].
Qed.

Lemma edge_pair_iterable (e : bag) : is_Some (edge_pair e) → iterable e.
Proof.
  unfold edge_pair, iterable. intros [k Hk].
  by destruct (e !! "nodes") as [[| | | |]|].
Qed.

Lemma has_key_returns (key : string * string) (edges : list bag) :
  Forall plain_nodes edges →
  Forall (λ e, ∃ b, GraphData.has_key key e = Ok b) edges.
Proof. intros H. eapply Forall_impl; [exact H|]. intros e. apply has_key_plain. Qed.

Lemma remove_edge_returns (g : GraphData.t) (a b : string) :
  Forall plain_nodes (GraphData.edges g) →
  GraphData.remove_edge g a b
  = Ok {| GraphData.nodes := GraphData.nodes g;
          GraphData.edges :=
            List.filter (λ e, negb (holds (GraphData.has_key (sorted_pair a b)) e))
              (GraphData.edges g) |}.
Proof.
  intros Hg. unfold GraphData.remove_edge.
  by rewrite (proj2 (reject_Ok _ _ _) (conj (has_key_returns _ _ Hg) eq_refl)).
Qed.

Lemma remove_edge_Ok (g g' : GraphData.t) (a b : string) :
  GraphData.remove_edge g a b = Ok g' →
  Forall (λ e, ∃ t, GraphData.has_key (sorted_pair a b) e = Ok t) (GraphData.edges g) ∧
  g' = {| GraphData.nodes := GraphData.nodes g;
          GraphData.edges :=
            List.filter (λ e, negb (holds (GraphData.has_key (sorted_pair a b)) e))
              (GraphData.edges g) |}.
Proof.
  unfold GraphData.remove_edge.
  destruct (GraphData.reject _ _) as [kept|] eqn:Hkept; simpl; [|done].
  intros [= <-]. apply reject_Ok in Hkept as [Hall ->]. done.
Qed.

Lemma remove_node_returns (g : GraphData.t) (node_id : string) :
  Forall iterable (GraphData.edges g) →
  GraphData.remove_node g node_id
  = ({| GraphData.nodes := delete node_id (GraphData.nodes g);
        GraphData.edges :=
          List.filter (λ e, negb (holds (GraphData.references node_id) e))
            (GraphData.edges g) |}, Ok ()).
Proof.
  intros Hg. unfold GraphData.remove_node.
  rewrite (proj2 (reject_Ok (GraphData.references node_id) (GraphData.edges g) _)
             (conj (Forall_impl _ _ _ Hg
                      (λ e, proj1 (references_iterable node_id e))) eq_refl)).
  done.
Qed.

Lemma find_edge_index_returns (g : GraphData.t) (a b : string) :
  Forall plain_nodes (GraphData.edges g) →
  ∃ i, GraphData.find_edge_index g a b = Ok i.
Proof.
  intros Hg. apply find_index_returns. by apply has_key_returns.
Qed.

(** *** One edge for a pair *)

Lemma has_key_false_pair (key : string * string) (edges : list bag) :
  Forall (λ e, GraphData.has_key key e = Ok false) edges →
  key ∉ omap edge_pair edges.
Proof.
  intros Hall (e & He & Hk)%list_elem_of_omap.
  rewrite Forall_forall in Hall. specialize (Hall e He).
  rewrite (has_key_true key e Hk) in Hall. done.
Qed.

Lemma one_per_pair_upsert (g g' : GraphData.t) (a b : string) (attrs : bag) :
  attrs !! "nodes" = None →
  one_per_pair (GraphData.edges g) →
  GraphData.upsert_edge g a b attrs = Ok g' →
  one_per_pair (GraphData.edges g').
Proof.
  intros Hattrs [Hkey Hnd] Hg'.
  pose proof (upserted_pair a b attrs Hattrs) as Hnew.
  destruct (upsert_edge_shape g g' a b attrs Hg')
    as [_ [(_ & Hnone & ->)|(l1 & old & l2 & _ & Hl & _ & Hold & ->)]].
  - split.
    + apply Forall_app. split; [done|]. apply Forall_singleton. by eexists.
    + rewrite omap_app. simpl. rewrite Hnew. apply NoDup_app.
      split_and!; [done| |apply NoDup_singleton].
      intros k Hk ->%list_elem_of_singleton. by apply has_key_false_pair in Hnone.
  - rewrite Hl in Hkey, Hnd. split.
    + apply Forall_app in Hkey as [H1 [_ H2]%Forall_cons].
      apply Forall_app. split; [done|]. apply Forall_cons. split; [by eexists|done].
    + apply Forall_app in Hkey as [_ [[k Hk] _]%Forall_cons].
      rewrite (has_key_pair _ k old Hk) in Hold. injection Hold as Hold.
      apply pair_eqb_eq in Hold as ->.
      rewrite omap_app in *. simpl in *. rewrite Hk in Hnd.
      by rewrite Hnew.
Qed.

Lemma normal_one_per_pair (g : GraphData.t) :
  normal g → one_per_pair (GraphData.edges g).
Proof.
  intros Hg. split; [|apply Hg]. apply Forall_forall. intros e He.
  destruct (normal_edge_key e (n_edge g Hg e He)) as (a & b & _ & _ & _ & ->).
  by eexists.
Qed.

Lemma one_per_pair_plain (edges : list bag) :
  one_per_pair edges → Forall plain_nodes edges.
Proof. intros [Hkey _]. eapply Forall_impl; [exact Hkey|]. apply edge_pair_plain. Qed.

Lemma one_per_pair_iterable (edges : list bag) :
  one_per_pair edges → Forall iterable edges.
Proof. intros [Hkey _]. eapply Forall_impl; [exact Hkey|]. apply edge_pair_iterable. Qed.

Lemma editable_one_per_pair (g : GraphData.t) :
  editable g → one_per_pair (GraphData.edges g).
Proof.
  induction 1 as [|data g Hload|g node_id _ IH|g node_id attrs _ IH|g node_id _ IH
                  |g a b attrs g' _ IH Hattrs Hg'|g a b g' _ IH Hg'].
  - split; constructor.
  - by apply normal_one_per_pair, (load_normal data).
  - unfold GraphData.ensure_node. by destruct (GraphData.nodes g !! node_id).
  - done.
  - rewrite remove_node_returns by by apply one_per_pair_iterable.
    by apply one_per_pair_filter.
  - by eapply one_per_pair_upsert.
  - apply remove_edge_Ok in Hg' as [_ ->]. by apply one_per_pair_filter.
Qed.

(** X16. Whatever the editor does to its graph (starting from the
    empty graph or from a loaded file: [ensure_node], [add_node],
    [remove_node], [upsert_edge] with attributes that hold no [nodes]
    field, [remove_edge]), every edge names a pair of nodes and no two
    edges name the same pair: at most one place of the edge list holds
    the edge of a pair.  On such a graph no method of [GraphData]
    raises. *)
Theorem one_edge_per_pair (g : GraphData.t) :
  editable g →
  (∀ e, e ∈ GraphData.edges g → is_Some (edge_pair e)) ∧
  (∀ i j ei ej,
     GraphData.edges g !! i = Some ei → GraphData.edges g !! j = Some ej →
     edge_pair ei = edge_pair ej → i = j) ∧
  (∀ node_id, (GraphData.remove_node g node_id).2 = Ok ()) ∧
  (∀ a b, ∃ i, GraphData.find_edge_index g a b = Ok i) ∧
  (∀ a b attrs, ∃ g', GraphData.upsert_edge g a b attrs = Ok g') ∧
  (∀ a b, ∃ g', GraphData.remove_edge g a b = Ok g').
Proof.
  intros Hone%editable_one_per_pair.
  pose proof (one_per_pair_plain _ Hone) as Hplain.
  pose proof (one_per_pair_iterable _ Hone) as Hiter.
  destruct Hone as [Hkey Hnd].
  split; [by apply Forall_forall|]. split_and!.
  - clear Hplain Hiter.
    revert Hkey Hnd. generalize (GraphData.edges g). intros l Hkey Hnd.
    induction l as [|e l IH]; intros i j ei ej Hi Hj Heq; [done|].
    apply Forall_cons in Hkey as [[k Hk] Hkey]. simpl in Hnd. rewrite Hk in Hnd.
    apply NoDup_cons in Hnd as [Hnotin Hnd].
    destruct i as [|i], j as [|j]; simpl in *.
    + done.
    + injection Hi as <-. destruct Hnotin. apply list_elem_of_omap.
      exists ej. split; [by eapply list_elem_of_lookup_2|congruence].
    + injection Hj as <-. destruct Hnotin. apply list_elem_of_omap.
      exists ei. split; [by eapply list_elem_of_lookup_2|congruence].
    + f_equal. by eapply IH.
  - intros node_id. by rewrite remove_node_returns.
  - intros a b. by apply find_edge_index_returns.
  - intros a b attrs. by apply upsert_edge_returns.
  - intros a b. rewrite remove_edge_returns by done. by eexists.
Qed.

(** *** Finding, storing and removing an edge *)

Lemma filter_filter_not_holds {A} (f : A → res bool) (l : list A) :
  Forall (λ y, ∃ t, f y = Ok t) l →
  Forall (λ y, f y = Ok false) (List.filter (λ x, negb (holds f x)) l).
Proof.
  intros Hl. induction Hl as [|y l [t Hy] _ IH]; simpl; [done|].
  unfold holds at 1. rewrite Hy. destruct t; simpl; [done|].
  by apply Forall_cons.
Qed.

Lemma upsert_edge_found (g g' : GraphData.t) (a b : string) (attrs : bag) :
  attrs !! "nodes" = None →
  GraphData.upsert_edge g a b attrs = Ok g' →
  ∃ i, GraphData.find_edge_index g' a b = Ok (Some i) ∧
       GraphData.edges g' !! i = Some (upserted a b attrs) ∧
       match GraphData.find_edge_index g a b with
       | Ok (Some j) => i = j
       | _ => i = length (GraphData.edges g)
       end.
Proof.
  intros Hattrs Hg'. pose proof (upserted_key a b attrs Hattrs) as Hnew.
  destruct (upsert_edge_shape g g' a b attrs Hg')
    as [_ [(Hfind & Hnone & Hedges)|(l1 & old & l2 & Hfind & Hl & Hl1 & Hold & Hedges)]];
    unfold GraphData.find_edge_index at 1; rewrite Hedges, Hfind.
  - exists (length (GraphData.edges g)).
    rewrite find_index_app by done. split; [done|].
    split; [by apply list_lookup_middle|done].
  - exists (length l1). rewrite find_index_app by done. split; [done|].
    split; [by apply list_lookup_middle|done].
Qed.

Lemma reject_congr {A} (f : A → res bool) (l1 l2 : list A) (x y : A) :
  f x = Ok true → f y = Ok true →
  GraphData.reject f (l1 ++ x :: l2) = GraphData.reject f (l1 ++ y :: l2).
Proof.
  intros Hx Hy. induction l1 as [|z l1 IH]; simpl.
  - by rewrite Hx, Hy.
  - by rewrite IH.
Qed.

Lemma reject_all {A} (f : A → res bool) (l : list A) :
  Forall (λ y, f y = Ok false) l → GraphData.reject f l = Ok l.
Proof.
  intros Hl. induction Hl as [|y l Hy _ IH]; simpl; [done|].
  by rewrite Hy, IH.
Qed.

Lemma reject_snoc {A} (f : A → res bool) (l : list A) (x : A) :
  Forall (λ y, f y = Ok false) l → f x = Ok true →
  GraphData.reject f (l ++ [x]) = Ok l.
Proof.
  intros Hl Hx. induction Hl as [|y l Hy _ IH]; simpl.
  - by rewrite Hx.
  - by rewrite Hy, IH.
Qed.

Lemma upsert_edge_others (g g' : GraphData.t) (a b : string) (attrs : bag) :
  attrs !! "nodes" = None →
  GraphData.upsert_edge g a b attrs = Ok g' →
  GraphData.remove_edge g' a b = GraphData.remove_edge g a b.
Proof.
  intros Hattrs Hg'. pose proof (upserted_key a b attrs Hattrs) as Hnew.
  unfold GraphData.remove_edge.
  destruct (upsert_edge_shape g g' a b attrs Hg')
    as [-> [(Hfind & Hnone & ->)|(l1 & old & l2 & Hfind & -> & Hl1 & Hold & ->)]].
  - by rewrite reject_snoc, reject_all.
  - by rewrite (reject_congr _ l1 l2 _ old).
Qed.

Lemma upsert_edge_kept (g g' : GraphData.t) (a b : string) (attrs : bag) :
  attrs !! "nodes" = None →
  GraphData.upsert_edge g a b attrs = Ok g' →
  List.filter (λ e, negb (holds (GraphData.has_key (sorted_pair a b)) e))
    (GraphData.edges g')
  = List.filter (λ e, negb (holds (GraphData.has_key (sorted_pair a b)) e))
      (GraphData.edges g).
Proof.
  intros Hattrs Hg'.
  assert (Hnew : holds (GraphData.has_key (sorted_pair a b)) (upserted a b attrs) = true)
    by (unfold holds; by rewrite upserted_key).
  destruct (upsert_edge_shape g g' a b attrs Hg')
    as [_ [(_ & _ & ->)|(l1 & old & l2 & _ & -> & _ & Hold & ->)]].
  - rewrite List.filter_app. cbn [List.filter]. rewrite Hnew. apply app_nil_r.
  - assert (Hold' : holds (GraphData.has_key (sorted_pair a b)) old = true)
      by (unfold holds; by rewrite Hold).
    rewrite !List.filter_app. cbn [List.filter]. by rewrite Hnew, Hold'.
Qed.

(** X17. When [remove_edge(a, b)] returns, no edge is found for the
    pair, and removing an edge that is not found changes nothing.  When
    [upsert_edge(a, b, attrs)] returns (no [nodes] field in [attrs]),
    the edge is found for the pair, at the place where one was found
    before or else at the end, and it is the edge stored; removing it
    again has the outcome that removing before would have had.  All of
    them return on a graph whose edges hold a list of strings or a
    string under [nodes], or nothing. *)
Theorem edge_found_after_upsert (g : GraphData.t) (a b : string) (attrs : bag) :
  (∀ g', GraphData.remove_edge g a b = Ok g' →
         GraphData.find_edge_index g' a b = Ok None) ∧
  (GraphData.find_edge_index g a b = Ok None → GraphData.remove_edge g a b = Ok g) ∧
  (attrs !! "nodes" = None →
   ∀ g', GraphData.upsert_edge g a b attrs = Ok g' →
   (∃ i, GraphData.find_edge_index g' a b = Ok (Some i) ∧
         GraphData.edges g' !! i = Some (upserted a b attrs) ∧
         match GraphData.find_edge_index g a b with
         | Ok (Some j) => i = j
         | _ => i = length (GraphData.edges g)
         end) ∧
   GraphData.remove_edge g' a b = GraphData.remove_edge g a b) ∧
  (Forall plain_nodes (GraphData.edges g) →
   (∃ i, GraphData.find_edge_index g a b = Ok i) ∧
   (∃ g', GraphData.upsert_edge g a b attrs = Ok g') ∧
   (∃ g', GraphData.remove_edge g a b = Ok g')).
Proof.
  split_and!.
  - intros g' [Hall ->]%remove_edge_Ok.
    unfold GraphData.find_edge_index. simpl.
    by apply find_index_nil, filter_filter_not_holds.
  - unfold GraphData.find_edge_index, GraphData.remove_edge.
    intros Hnone%find_index_None. rewrite reject_all by done. by destruct g.
  - intros Hattrs g' Hg'. split; [by apply upsert_edge_found|].
    by apply (upsert_edge_others g g' a b attrs).
  - intros Hplain. split_and!.
    + by apply find_edge_index_returns.
    + by apply upsert_edge_returns.
    + rewrite remove_edge_returns by done. by eexists.
Qed.

End EditingProperties.

(** ** The node list of the editor *)

Section NodeLabels.

Import Editor.

Lemma string_append_cons (c : Ascii.ascii) (s1 s2 : string) :
  String c s1 +:+ s2 = String c (s1 +:+ s2).
Proof. done. Qed.

Lemma string_length_append (s1 s2 : string) :
  String.length (s1 +:+ s2) = (String.length s1 + String.length s2)%nat.
Proof.
  induction s1 as [|c s1 IH]; [done|]. rewrite string_append_cons. simpl.
  by rewrite IH.
Qed.

Lemma string_append_nil (s : string) : s +:+ "" = s.
Proof.
  induction s as [|c s IH]; [done|]. rewrite string_append_cons. by rewrite IH.
Qed.

Lemma substring_append (s1 s2 : string) :
  String.substring 0 (String.length s1) (s1 +:+ s2) = s1.
Proof.
  induction s1 as [|c s1 IH]; [by destruct s2|].
  rewrite string_append_cons. simpl. by rewrite IH.
Qed.

Lemma substring_length (m : nat) (s : string) :
  (String.length (String.substring 0 m s) <= m)%nat.
Proof.
  revert s. induction m as [|m IH]; intros [|c s]; simpl; try lia.
  specialize (IH s). lia.
Qed.

Lemma endswith_append (s suffix : string) : endswith (s +:+ suffix) suffix = true.
Proof.
  induction s as [|c s IH].
  - change ("" +:+ suffix) with suffix.
    destruct suffix as [|c suffix]; [done|]. cbn [endswith].
    by rewrite String.eqb_refl.
  - rewrite string_append_cons. cbn [endswith]. rewrite IH. apply orb_true_r.
Qed.

Lemma endswith_length (s suffix : string) :
  endswith s suffix = true → (String.length suffix <= String.length s)%nat.
Proof.
  induction s as [|c s IH]; cbn [endswith].
  - rewrite orb_false_r. by intros <-%String.eqb_eq.
  - intros [<-%String.eqb_eq|H]%orb_true_iff; [done|]. specialize (IH H).
    simpl. lia.
Qed.

(** X18. The editor recovers the identifier of a node from its line in
    the node list (the identifier, followed by [" (port)"] for a port)
    exactly when the node is a port or its identifier does not itself
    end in [" (port)"]: [_strip_port_suffix] takes the mark off every
    line that ends with it. *)
Theorem node_label_selects (graph : GraphData.t) (nid : string) :
  (∀ label, strip_port_suffix (label +:+ " (port)") = label) ∧
  (strip_port_suffix (node_label graph nid) = nid ↔
   is_port graph nid = true ∨ endswith nid " (port)" = false).
Proof.
  assert (Hstrip : ∀ label, strip_port_suffix (label +:+ " (port)") = label).
  { intros label. unfold strip_port_suffix. rewrite endswith_append.
    rewrite string_length_append. simpl String.length.
    replace (String.length label + 7 - 7)%nat with (String.length label) by lia.
    apply substring_append. }
  split; [done|]. unfold node_label. destruct (is_port graph nid).
  - rewrite Hstrip. naive_solver.
  - rewrite string_append_nil. unfold strip_port_suffix.
    destruct (endswith nid " (port)") eqn:Hends; [|naive_solver].
    split; [|by intros [?|?]]. intros Heq. exfalso.
    apply endswith_length in Hends. simpl in Hends.
    pose proof (substring_length (String.length nid - 7) nid) as Hlen.
    rewrite Heq in Hlen. lia.
Qed.

End NodeLabels.

(** ** The forms of the editor *)

Section FormProperties.

Import Editor.

Variable strip : string → string.
Variable float_of_str : string → option Q.

Local Abbreviation save_node := (Editor.save_node strip).
Local Abbreviation save_edge := (Editor.save_edge strip float_of_str).
Local Abbreviation distance_val := (Editor.distance_val strip float_of_str).

Lemma ensure_node_spec (g : GraphData.t) (node_id : string) :
  GraphData.edges (GraphData.ensure_node g node_id) = GraphData.edges g ∧
  node_id ∈ dom (GraphData.nodes (GraphData.ensure_node g node_id)) ∧
  ∀ k n, GraphData.nodes g !! k = Some n →
         GraphData.nodes (GraphData.ensure_node g node_id) !! k = Some n.
Proof.
  unfold GraphData.ensure_node.
  destruct (GraphData.nodes g !! node_id) as [n|] eqn:Hn; simpl.
  - split_and!; [done| |done]. apply elem_of_dom. by eexists.
  - split_and!; [done|rewrite dom_insert_L; set_solver|].
    intros k n Hk. rewrite lookup_insert_ne; [done|]. intros ->. congruence.
Qed.

Lemma with_route_types_other (selected : list string) (attrs : bag) (field : string) :
  field ≠ "route_types" → field ≠ "route_type" →
  with_route_types selected attrs !! field = attrs !! field.
Proof.
  intros H1 H2. unfold with_route_types. destruct selected as [|first rest].
  - destruct (delete "route_types" attrs !! "route_type");
      by rewrite ?lookup_insert_ne, lookup_delete_ne.
  - by rewrite !lookup_insert_ne.
Qed.

Lemma with_route_types_chosen (selected : list string) (attrs : bag) :
  match selected with
  | [] =>
      with_route_types selected attrs !! "route_types" = None ∧
      with_route_types selected attrs !! "route_type"
        = Some (default (VStr "route") (attrs !! "route_type"))
  | first :: _ =>
      with_route_types selected attrs !! "route_types"
        = Some (VList (VStr <$> selected)) ∧
      with_route_types selected attrs !! "route_type" = Some (VStr first)
  end.
Proof.
  unfold with_route_types. destruct selected as [|first rest].
  - destruct (delete "route_types" attrs !! "route_type") as [v|] eqn:Hv.
    + rewrite lookup_delete_eq, Hv. rewrite lookup_delete_ne in Hv by done.
      by rewrite Hv.
    + rewrite lookup_insert_ne, lookup_delete_eq, lookup_insert_eq by done.
      rewrite lookup_delete_ne in Hv by done. by rewrite Hv.
  - by rewrite lookup_insert_eq, lookup_insert_ne, lookup_insert_eq.
Qed.

(** The attributes [save_edge] gives to [upsert_edge], from the
    attributes [old] of the edge found for the pair. *)
Definition form_attrs (form : edge_form) (distance : option Q) (old : bag) : bag :=
  let attrs :=
    with_route_types (List.filter (route_type_vars form) ROUTE_TYPES)
      (<["undirected" := VBool (edge_undirected_var form)]> old) in
  <["allowed_modes" := VList (VStr <$> List.filter (mode_vars form) ALLOWED_MODES)]>
    match distance with
    | Some d => <["approx_distance_km" := VNum d]> attrs
    | None => attrs
    end.

(** The second search, of [upsert_edge], returns what the first
    returned: the nodes created in between are no edges. *)
Lemma upsert_edge_after_search (g base : GraphData.t) (a b : string) (attrs : bag)
    (i : option nat) :
  GraphData.find_edge_index g a b = Ok i →
  GraphData.edges base = GraphData.edges g →
  ∃ g', GraphData.upsert_edge base a b attrs = Ok g'.
Proof.
  intros Hi Hedges. unfold GraphData.upsert_edge, GraphData.find_edge_index in *.
  rewrite Hedges, Hi. simpl. destruct i; by eexists.
Qed.

Lemma existing_attrs_Ok (graph : GraphData.t) (a b : string) (old : bag) :
  existing_attrs graph a b = Ok old →
  old !! "nodes" = None ∧
  ((GraphData.find_edge_index graph a b = Ok None ∧ old = ∅) ∨
   ∃ i e, GraphData.find_edge_index graph a b = Ok (Some i) ∧
          GraphData.edges graph !! i = Some e ∧ old = delete "nodes" e).
Proof.
  unfold existing_attrs.
  destruct (GraphData.find_edge_index graph a b) as [[i|]|] eqn:Hi; simpl; [| |done].
  - intros [= <-]. split; [apply lookup_delete_eq|]. right.
    pose proof Hi as Hi'. unfold GraphData.find_edge_index in Hi'.
    apply find_index_Some in Hi' as (l1 & e & l2 & Hl & <- & _ & _).
    exists (length l1), e. rewrite Hl, list_lookup_middle by done. done.
  - intros [= <-]. split; [apply lookup_empty|]. by left.
Qed.

Lemma save_edge_saved (form : edge_form) (create_nodes : bool)
    (graph graph' : GraphData.t) (a b : string) :
  save_edge form create_nodes graph = (graph', Ok (SavedEdge a b)) →
  a = strip (edge_a_var form) ∧ b = strip (edge_b_var form) ∧
  a ≠ "" ∧ b ≠ "" ∧ a ≠ b ∧
  ∃ old distance base,
    existing_attrs graph a b = Ok old ∧
    distance_val (distance_var form) = Some distance ∧
    (base = graph ∨
     base = GraphData.ensure_node (GraphData.ensure_node graph a) b) ∧
    a ∈ dom (GraphData.nodes base) ∧ b ∈ dom (GraphData.nodes base) ∧
    GraphData.upsert_edge base a b (form_attrs form distance old) = Ok graph'.
Proof.
  unfold Editor.save_edge.
  destruct (String.eqb_spec (strip (edge_a_var form)) "") as [|Ha]; [done|].
  destruct (String.eqb_spec (strip (edge_b_var form)) "") as [|Hb]; [done|].
  simpl. destruct (String.eqb_spec (strip (edge_a_var form)) (strip (edge_b_var form)))
    as [|Hab]; [done|].
  destruct (existing_attrs graph _ _) as [old|] eqn:Hold; [|done].
  destruct (Editor.distance_val _ _ _) as [distance|] eqn:Hd; [|done].
  fold (form_attrs form distance old).
  destruct (contains _ (strip (edge_a_var form))) eqn:Hina; simpl.
  1: destruct (contains _ (strip (edge_b_var form))) eqn:Hinb; simpl.
  - destruct (GraphData.upsert_edge _ _ _ _) as [g'|] eqn:Hg'; [|done].
    intros [= <- <- <-]. apply contains_true in Hina, Hinb.
    split_and!; try done. exists old, distance, graph. split_and!; auto.
  - destruct create_nodes; [|done]. simpl.
    destruct (GraphData.upsert_edge _ _ _ _) as [g'|] eqn:Hg'; [|done].
    intros [= <- <- <-]. split_and!; try done.
    eexists old, distance, _.
    split_and!; [done|done|by right| |apply ensure_node_spec|done].
    destruct (ensure_node_spec (GraphData.ensure_node graph (strip (edge_a_var form)))
                (strip (edge_b_var form))) as (_ & _ & Hkeep).
    apply contains_true in Hina. apply elem_of_dom in Hina as [n Hn].
    apply elem_of_dom. exists n. apply Hkeep.
    by apply ensure_node_spec.
  - destruct create_nodes; [|done]. simpl.
    destruct (GraphData.upsert_edge _ _ _ _) as [g'|] eqn:Hg'; [|done].
    intros [= <- <- <-]. split_and!; try done.
    eexists old, distance, _.
    split_and!; [done|done|by right| |apply ensure_node_spec|done].
    destruct (ensure_node_spec graph (strip (edge_a_var form))) as (_ & Hin & _).
    apply elem_of_dom in Hin as [n Hn]. apply elem_of_dom. exists n.
    by apply ensure_node_spec.
Qed.

Lemma form_attrs_other (form : edge_form) distance old (field : string) :
  field ∉ ["undirected"; "route_types"; "route_type"; "approx_distance_km";
           "allowed_modes"] →
  form_attrs form distance old !! field = old !! field.
Proof.
  intros Hf. unfold form_attrs. rewrite lookup_insert_ne by set_solver.
  destruct distance; rewrite ?lookup_insert_ne by set_solver;
    rewrite with_route_types_other by set_solver;
    by rewrite lookup_insert_ne by set_solver.
Qed.

Lemma form_attrs_distance (form : edge_form) distance old :
  form_attrs form distance old !! "approx_distance_km" =
  match distance with
  | Some d => Some (VNum d)
  | None => old !! "approx_distance_km"
  end.
Proof.
  unfold form_attrs. rewrite lookup_insert_ne by done. destruct distance.
  - apply lookup_insert_eq.
  - rewrite with_route_types_other by done. by rewrite lookup_insert_ne.
Qed.

Lemma form_attrs_route_types (form : edge_form) distance old (field : string) :
  field = "route_types" ∨ field = "route_type" →
  form_attrs form distance old !! field =
  with_route_types (List.filter (route_type_vars form) ROUTE_TYPES) old !! field.
Proof.
  intros Hf. unfold form_attrs. rewrite lookup_insert_ne by naive_solver.
  assert (∀ attrs : bag,
    with_route_types (List.filter (route_type_vars form) ROUTE_TYPES)
      (<["undirected" := VBool (edge_undirected_var form)]> attrs) !! field
    = with_route_types (List.filter (route_type_vars form) ROUTE_TYPES) attrs !! field)
    as Hsame.
  { intros attrs. unfold with_route_types.
    destruct (List.filter _ _) as [|first rest].
    - rewrite !lookup_delete_ne, lookup_insert_ne by done.
      destruct (attrs !! "route_type"); destruct Hf as [-> | ->]; by simplify_map_eq.
    - destruct Hf as [-> | ->]; by simplify_map_eq. }
  destruct distance; rewrite ?lookup_insert_ne by naive_solver; apply Hsame.
Qed.

(** The call raises only when the search for the edge does, before
    anything is changed; it changes the graph only when it saves. *)
Lemma save_edge_unsaved (form : edge_form) (create_nodes : bool)
    (graph graph' : GraphData.t) (outcome : res notice) :
  save_edge form create_nodes graph = (graph', outcome) →
  ((∀ x y, outcome ≠ Ok (SavedEdge x y)) → graph' = graph) ∧
  (∀ e, outcome = Raise e →
        GraphData.find_edge_index graph (strip (edge_a_var form))
          (strip (edge_b_var form)) = Raise e).
Proof.
  unfold Editor.save_edge.
  destruct (_ || _); [by intros [= <- <-]|].
  destruct (String.eqb _ _); [by intros [= <- <-]|].
  destruct (existing_attrs graph _ _) as [old|e] eqn:Hold.
  2:{ intros [= <- <-]. split; [done|]. intros e' [= <-].
      unfold existing_attrs in Hold.
      destruct (GraphData.find_edge_index graph _ _) as [[i|]|];
        simpl in Hold; congruence. }
  destruct (Editor.distance_val _ _ _) as [distance|]; [|by intros [= <- <-]].
  destruct (_ && _); [by intros [= <- <-]|].
  assert (∃ i, GraphData.find_edge_index graph (strip (edge_a_var form))
                 (strip (edge_b_var form)) = Ok i) as [i Hi].
  { unfold existing_attrs in Hold.
    destruct (GraphData.find_edge_index graph _ _) as [i|]; [by eexists|done]. }
  match goal with
  | |- context [GraphData.upsert_edge ?base ?a ?b ?attrs] =>
      destruct (upsert_edge_after_search graph base a b attrs i Hi) as [g' ->]
  end.
  - destruct (_ || _); [|done]. by rewrite !(proj1 (ensure_node_spec _ _)).
  - intros [= <- <-]. split; [|done]. intros Hno.
    by destruct (Hno (strip (edge_a_var form)) (strip (edge_b_var form))).
Qed.


(** *** What the forms leave to save *)

(** The graphs the forms of the editor can make of a file: each handler
    leaves the first component of what it returns, also when it raises. *)
Inductive form_edited : GraphData.t → Prop :=
  | form_edited_empty : form_edited GraphData.empty
  | form_edited_load data g : load data = Ok g → form_edited g
  | form_edited_save_node g node_id_var node_port_var :
      form_edited g → form_edited (save_node node_id_var node_port_var g).1
  | form_edited_save_edge g form create_nodes :
      form_edited g → form_edited (save_edge form create_nodes g).1
  | form_edited_remove_node g node_id :
      form_edited g → form_edited (GraphData.remove_node g node_id).1
  | form_edited_remove_edge g a b g' :
      form_edited g → GraphData.remove_edge g a b = Ok g' → form_edited g'.

Lemma normal_empty : normal GraphData.empty.
Proof.
  split; simpl.
  - intros k attrs. by rewrite lookup_empty.
  - by intros e []%elem_of_nil.
  - constructor.
Qed.

Lemma normal_filter (g : GraphData.t) (nodes : gmap string bag) (f : bag → bool) :
  normal g →
  (∀ k attrs, nodes !! k = Some attrs → GraphData.nodes g !! k = Some attrs) →
  normal {| GraphData.nodes := nodes; GraphData.edges := List.filter f (GraphData.edges g) |}.
Proof.
  intros Hg Hnodes. split; simpl.
  - intros k attrs Hk. apply (n_node g Hg k). by apply Hnodes.
  - intros e He. apply (n_edge g Hg). apply list_elem_of_In in He.
    apply List.filter_In in He as [He _]. by apply list_elem_of_In.
  - apply (one_per_pair_filter f). by apply normal_one_per_pair.
Qed.

Lemma normal_ensure_node (g : GraphData.t) (node_id : string) :
  normal g → normal (GraphData.ensure_node g node_id).
Proof.
  intros Hg. unfold GraphData.ensure_node.
  destruct (GraphData.nodes g !! node_id) eqn:Hn; [done|].
  split; simpl; [|apply Hg..]. intros k attrs.
  destruct (decide (k = node_id)) as [->|Hne].
  - rewrite lookup_insert_eq. intros [= <-]. split; [done|].
    intros v. by rewrite lookup_empty.
  - rewrite lookup_insert_ne by done. apply Hg.
Qed.

Lemma normal_upsert_edge (g g' : GraphData.t) (a b : string) (attrs : bag) :
  normal g →
  attrs !! "nodes" = None → attrs !! "source" = None → attrs !! "target" = None →
  (∀ v, attrs !! "allowed_modes" = Some v → ∃ l, v = VList l) →
  GraphData.upsert_edge g a b attrs = Ok g' →
  normal g'.
Proof.
  intros Hg Hn Hs Ht Hm Hg'.
  assert (Hnew : normal_edge (upserted a b attrs)).
  { split; unfold upserted.
    - eexists _, _. rewrite merged_lookup, Hn, lookup_singleton_eq.
      split; [done|]. rewrite sorted_pair_idem. by destruct (sorted_pair a b).
    - by rewrite merged_lookup, Hs.
    - by rewrite merged_lookup, Ht.
    - intros v. rewrite merged_lookup.
      destruct (attrs !! "allowed_modes") as [v'|] eqn:Hv; [|done].
      intros [= <-]. by apply Hm. }
  split.
  - destruct (upsert_edge_shape g g' a b attrs Hg') as [-> _]. apply Hg.
  - intros e He.
    destruct (upsert_edge_shape g g' a b attrs Hg')
      as [_ [(_ & _ & Hedges)|(l1 & old & l2 & _ & Hl & _ & _ & Hedges)]];
      rewrite Hedges in He.
    + apply elem_of_app in He as [He| ->%list_elem_of_singleton]; [|done].
      by apply (n_edge g Hg).
    + assert (e = upserted a b attrs ∨ e ∈ GraphData.edges g) as [-> |?];
        [rewrite Hl; set_solver|done|by apply (n_edge g Hg)].
  - eapply one_per_pair_upsert; [done| |done]. by apply normal_one_per_pair.
Qed.

Lemma normal_save_node (g : GraphData.t) node_id_var node_port_var :
  normal g → normal (save_node node_id_var node_port_var g).1.
Proof.
  intros Hg. unfold Editor.save_node.
  destruct (String.eqb (strip node_id_var) ""); [done|]. simpl.
  split; simpl; [|apply Hg..]. intros k attrs.
  destruct (decide (k = strip node_id_var)) as [->|Hne].
  - rewrite lookup_insert_eq. intros [= <-].
    assert (Hold : default ∅ (GraphData.nodes g !! strip node_id_var) !! "id" = None).
    { destruct (GraphData.nodes g !! strip node_id_var) as [old|] eqn:Ho; simpl;
        [by destruct (n_node g Hg _ _ Ho)|apply lookup_empty]. }
    split; [by rewrite lookup_insert_ne|].
    intros v. rewrite lookup_insert_eq. intros [= <-]. by eexists.
  - rewrite lookup_insert_ne by done. apply Hg.
Qed.

Lemma existing_attrs_normal (g : GraphData.t) (a b : string) (old : bag) :
  normal g → existing_attrs g a b = Ok old →
  old !! "source" = None ∧ old !! "target" = None.
Proof.
  intros Hg [_ [[_ ->]|(i & e & _ & He & ->)]]%existing_attrs_Ok;
    [by rewrite lookup_empty|].
  rewrite !lookup_delete_ne by done.
  assert (Hne : normal_edge e) by (apply (n_edge g Hg); by eapply list_elem_of_lookup_2).
  split; apply Hne.
Qed.

Lemma normal_save_edge (g : GraphData.t) form create_nodes :
  normal g → normal (save_edge form create_nodes g).1.
Proof.
  intros Hg. destruct (save_edge form create_nodes g) as [g' outcome] eqn:Hsave. simpl.
  destruct (save_edge_unsaved _ _ _ _ _ Hsave) as [Hunsaved _].
  destruct outcome as [[title|title| |node_id|a b]|e];
    try (by rewrite Hunsaved).
  apply save_edge_saved
    in Hsave as (-> & -> & _ & _ & _ & old & distance & base & Hold & _ & Hbase & _ & _
                 & Hg').
  set (a := strip (edge_a_var form)) in *. set (b := strip (edge_b_var form)) in *.
  destruct (existing_attrs_normal g a b old Hg Hold) as [Hs Ht].
  eapply normal_upsert_edge; [| | | | |exact Hg'].
  - destruct Hbase as [-> | ->]; [done|]. by do 2 apply normal_ensure_node.
  - rewrite form_attrs_other by set_solver. by apply existing_attrs_Ok in Hold as [? _].
  - by rewrite form_attrs_other by set_solver.
  - by rewrite form_attrs_other by set_solver.
  - intros v. unfold form_attrs. rewrite lookup_insert_eq. intros [= <-]. by eexists.
Qed.

Lemma form_edited_normal (g : GraphData.t) : form_edited g → normal g.
Proof.
  induction 1 as [|data g Hload|g v p _ IH|g form c _ IH|g node_id _ IH
                  |g a b g' _ IH Hg'].
  - apply normal_empty.
  - by apply (load_normal data).
  - by apply normal_save_node.
  - by apply normal_save_edge.
  - rewrite remove_node_returns
      by by apply one_per_pair_iterable, normal_one_per_pair.
    apply normal_filter; [done|]. intros k attrs [_ Hk]%lookup_delete_Some. done.
  - apply remove_edge_Ok in Hg' as [_ ->]. by apply normal_filter.
Qed.

(** The handlers raise nothing on a graph in normal form. *)
Lemma normal_returns (g : GraphData.t) :
  normal g →
  (∀ form create_nodes, ∃ shown, (save_edge form create_nodes g).2 = Ok shown) ∧
  (∀ node_id, (GraphData.remove_node g node_id).2 = Ok ()) ∧
  (∀ a b, ∃ g', GraphData.remove_edge g a b = Ok g').
Proof.
  intros Hone%normal_one_per_pair.
  pose proof (one_per_pair_plain _ Hone) as Hplain.
  pose proof (one_per_pair_iterable _ Hone) as Hiter.
  split_and!.
  - intros form create_nodes.
    destruct (save_edge form create_nodes g) as [g' [shown|e]] eqn:Hsave;
      [by exists shown|].
    destruct (save_edge_unsaved _ _ _ _ _ Hsave) as [_ Hraise].
    destruct (find_edge_index_returns g (strip (edge_a_var form))
                (strip (edge_b_var form)) Hplain) as [i Hi].
    rewrite (Hraise e eq_refl) in Hi. done.
  - intros node_id. by rewrite remove_node_returns.
  - intros a b. rewrite remove_edge_returns by done. by eexists.
Qed.


End FormProperties.

(** ** The map builder's graph *)

Section MapProperties.

Variable hypot : Q → Q → Q.
Variable float_of_str : string → option Q.

Local Abbreviation upsert_edge := (MapBuilder.upsert_edge hypot).
Local Abbreviation recalc_edges := (MapBuilder.recalc_edges hypot).
Local Abbreviation from_json := (MapBuilder.from_json hypot float_of_str).
Local Abbreviation from_json_node := (MapBuilder.from_json_node float_of_str).
Local Abbreviation from_json_edge := (MapBuilder.from_json_edge hypot).
Local Abbreviation connect := (MapBuilder.connect hypot).
Local Abbreviation coordinate := (MapBuilder.coordinate float_of_str).

(** The states the map builder can reach. *)
Inductive drawn : GraphState.t → Prop :=
  | drawn_new scale :
      drawn {| GraphState.nodes := ∅; GraphState.edges := ∅;
               GraphState.scale := scale |}
  | drawn_from_json data scale g :
      from_json data scale = inr g → drawn g
  | drawn_add_node g node_id x y :
      drawn g → drawn (GraphState.add_node g node_id x y)
  | drawn_remove_node g node_id :
      drawn g → drawn (GraphState.remove_node g node_id)
  | drawn_upsert_edge g a b g' e :
      drawn g → upsert_edge g a b = Ok (g', e) → drawn g'
  | drawn_recalc_edges g g' :
      drawn g → recalc_edges g = Ok g' → drawn g'
  | drawn_set_scale g scale :
      drawn g → drawn (MapBuilder.set_scale g scale)
  | drawn_delete_edge g edge_key g' :
      drawn g → MapBuilder.delete_edge g edge_key = Ok g' → drawn g'.

(** Every edge is stored under the sorted pair of its endpoints, which
    are nodes of the graph. *)
Definition closed (g : GraphState.t) : Prop :=
  ∀ k e, GraphState.edges g !! k = Some e →
    k.1 ∈ dom (GraphState.nodes g) ∧ k.2 ∈ dom (GraphState.nodes g) ∧
    sorted_pair k.1 k.2 = k ∧
    GraphState.a e = k.1 ∧ GraphState.b e = k.2.

(** The edge [upsert_edge] computes for the key [k]. *)
Definition measured (g : GraphState.t) (k : string * string) (e : GraphState.Edge)
    : Prop :=
  ∃ node_a node_b,
    GraphState.nodes g !! k.1 = Some node_a ∧
    GraphState.nodes g !! k.2 = Some node_b ∧
    GraphState.a e = k.1 ∧ GraphState.b e = k.2 ∧
    GraphState.pixel_distance e
      = hypot (GraphState.x node_a - GraphState.x node_b)
              (GraphState.y node_a - GraphState.y node_b) ∧
    GraphState.distance e
      = (GraphState.pixel_distance e * GraphState.scale g)%Q.

Lemma upsert_edge_Ok (g g' : GraphState.t) (a b : string) (e : GraphState.Edge) :
  upsert_edge g a b = Ok (g', e) →
  a ∈ dom (GraphState.nodes g) ∧ b ∈ dom (GraphState.nodes g) ∧
  GraphState.nodes g' = GraphState.nodes g ∧
  GraphState.scale g' = GraphState.scale g ∧
  GraphState.edges g' = <[sorted_pair a b := e]> (GraphState.edges g) ∧
  GraphState.a e = (sorted_pair a b).1 ∧ GraphState.b e = (sorted_pair a b).2.
Proof.
  unfold MapBuilder.upsert_edge.
  destruct (GraphState.nodes g !! a) as [na|] eqn:Ha; [|done].
  destruct (GraphState.nodes g !! b) as [nb|] eqn:Hb; [|done].
  intros [= <- <-]. simpl. split_and!; try done; apply elem_of_dom; by eexists.
Qed.

Lemma upsert_edge_sorted (g : GraphState.t) (k : string * string) :
  k.1 ∈ dom (GraphState.nodes g) → k.2 ∈ dom (GraphState.nodes g) →
  sorted_pair k.1 k.2 = k →
  ∃ e, upsert_edge g k.1 k.2
       = Ok ({| GraphState.nodes := GraphState.nodes g;
                GraphState.edges := <[k := e]> (GraphState.edges g);
                GraphState.scale := GraphState.scale g |}, e) ∧
       measured g k e.
Proof.
  intros [na Ha]%elem_of_dom [nb Hb]%elem_of_dom Hk.
  unfold MapBuilder.upsert_edge. rewrite Ha, Hb, Hk.
  eexists. split; [done|]. exists na, nb. by split_and!.
Qed.

Lemma closed_upsert (g g' : GraphState.t) (a b : string) (e : GraphState.Edge) :
  closed g → upsert_edge g a b = Ok (g', e) → closed g'.
Proof.
  intros Hg (Ha & Hb & Hn & _ & He & Hea & Heb)%upsert_edge_Ok k e'.
  rewrite He, Hn. destruct (decide (k = sorted_pair a b)) as [->|Hne].
  - rewrite lookup_insert_eq. intros [= <-]. split_and!; try done.
    + by destruct (sorted_pair_cases a b) as [-> | ->].
    + by destruct (sorted_pair_cases a b) as [-> | ->].
    + apply sorted_pair_idem.
  - rewrite lookup_insert_ne by done. apply Hg.
Qed.

Lemma closed_add_node (g : GraphState.t) node_id x y :
  closed g → closed (GraphState.add_node g node_id x y).
Proof.
  intros Hg k e He. destruct (Hg k e He) as (? & ? & ? & ? & ?).
  simpl. rewrite dom_insert_L. split_and!; try done; set_solver.
Qed.

Lemma closed_remove_node (g : GraphState.t) node_id :
  closed g → closed (GraphState.remove_node g node_id).
Proof.
  intros Hg k e He.
  destruct (map_remove_node_cascades g node_id) as (_ & Hgone & Hkept).
  destruct (Hgone k e He) as [H1 H2]. rewrite (Hkept k H1 H2) in He.
  destruct (Hg k e He) as (? & ? & ? & ? & ?).
  simpl. rewrite dom_delete_L. split_and!; try done; set_solver.
Qed.

(** *** Recalculating the distances *)

Lemma recalc_fold (l : list (string * string)) (st : GraphState.t) :
  (∀ k, k ∈ l →
     k.1 ∈ dom (GraphState.nodes st) ∧ k.2 ∈ dom (GraphState.nodes st) ∧
     sorted_pair k.1 k.2 = k) →
  ∃ st',
    res_fold (λ st k, '(st', _) ← upsert_edge st k.1 k.2; Ok st') st l = Ok st' ∧
    GraphState.nodes st' = GraphState.nodes st ∧
    GraphState.scale st' = GraphState.scale st ∧
    ∀ k, (k ∈ l → ∃ e, GraphState.edges st' !! k = Some e ∧ measured st k e) ∧
         (k ∉ l → GraphState.edges st' !! k = GraphState.edges st !! k).
Proof.
  revert st. induction l as [|k l IH]; intros st Hl.
  - exists st. split_and!; try done. intros k. split; [by intros []%elem_of_nil|done].
  - destruct (Hl k) as (H1 & H2 & Hk); [set_solver|].
    destruct (upsert_edge_sorted st k H1 H2 Hk) as (e & He & Hm).
    rewrite res_fold_cons, He. simpl.
    set (st1 := {| GraphState.nodes := GraphState.nodes st;
                   GraphState.edges := <[k := e]> (GraphState.edges st);
                   GraphState.scale := GraphState.scale st |}).
    destruct (IH st1) as (st' & Hfold & Hn & Hs & Hedges).
    { intros k' Hk'. apply Hl. set_solver. }
    exists st'. split_and!; [exact Hfold|done..|].
    intros k'. destruct (Hedges k') as [Hin Hout]. split.
    + intros Hk'. destruct (decide (k' ∈ l)) as [Hl'|Hl'].
      * destruct (Hin Hl') as (e' & He' & Hm'). by exists e'.
      * assert (k' = k) as -> by set_solver.
        exists e. split; [|done]. rewrite (Hout Hl'). apply lookup_insert_eq.
    + intros Hk'. rewrite Hout by set_solver. simpl.
      rewrite lookup_insert_ne; [done|set_solver].
Qed.

Lemma recalc_closed (g : GraphState.t) :
  closed g →
  ∃ g',
    recalc_edges g = Ok g' ∧
    GraphState.nodes g' = GraphState.nodes g ∧
    GraphState.scale g' = GraphState.scale g ∧
    dom (GraphState.edges g') = dom (GraphState.edges g) ∧
    ∀ k e, GraphState.edges g' !! k = Some e → measured g k e.
Proof.
  intros Hg. unfold MapBuilder.recalc_edges.
  assert (Hkeys : ∀ k, k ∈ (map_to_list (GraphState.edges g)).*1 ↔
                       is_Some (GraphState.edges g !! k)).
  { intros k. rewrite list_elem_of_fmap. split.
    - intros ([k' e] & -> & Hin). apply elem_of_map_to_list in Hin. by eexists.
    - intros [e He]. exists (k, e). split; [done|]. by apply elem_of_map_to_list. }
  destruct (recalc_fold (map_to_list (GraphState.edges g)).*1 g)
    as (g' & Hfold & Hn & Hs & Hedges).
  { intros k [e He]%Hkeys. destruct (Hg k e He) as (? & ? & ? & _). done. }
  exists g'. split_and!; [exact Hfold|done..| |].
  - apply set_eq. intros k. rewrite !elem_of_dom. destruct (Hedges k) as [Hin Hout].
    destruct (decide (k ∈ (map_to_list (GraphState.edges g)).*1)) as [Hk|Hk].
    + destruct (Hin Hk) as (e & -> & _). split; [|by eexists]. intros _. by apply Hkeys.
    + by rewrite (Hout Hk).
  - intros k e He. destruct (Hedges k) as [Hin Hout].
    destruct (decide (k ∈ (map_to_list (GraphState.edges g)).*1)) as [Hk|Hk].
    + destruct (Hin Hk) as (e' & He' & Hm). congruence.
    + rewrite (Hout Hk) in He. destruct Hk. apply Hkeys. by eexists.
Qed.

(** *** Loading a graph onto the map *)

Lemma load_fold_inv {B} (P : GraphState.t → Prop)
    (f : GraphState.t → B → MapBuilder.raised + GraphState.t) (l : list B) :
  (∀ st x st', P st → f st x = inr st' → P st') →
  ∀ st st', P st → MapBuilder.load_fold f st l = inr st' → P st'.
Proof.
  intros Hstep. induction l as [|x l IH]; intros st st' Hst; simpl.
  - by intros [= <-].
  - destruct (f st x) as [|st1] eqn:Hf; [done|]. eauto.
Qed.

Lemma from_json_node_inr (gs gs' : GraphState.t) (node : bag) :
  from_json_node gs node = inr gs' →
  ∃ nid x y, node !! "id" = Some (VStr nid) ∧
             gs' = GraphState.add_node gs nid x y.
Proof.
  unfold MapBuilder.from_json_node. destruct (node !! "id") as [nid|]; [|done].
  destruct (MapBuilder.coordinate _ _ 0) as [|x]; [done|].
  destruct (MapBuilder.coordinate _ _ 1) as [|y]; [done|].
  destruct nid as [| | |nid|]; try done. intros [= <-]. by exists nid, x, y.
Qed.

(** The state in which [connect] calls [upsert_edge]. *)
Definition with_endpoints (gs : GraphState.t) (a b : string) : GraphState.t :=
  {| GraphState.nodes :=
       MapBuilder.setdefault_node (MapBuilder.setdefault_node (GraphState.nodes gs) a) b;
     GraphState.edges := GraphState.edges gs;
     GraphState.scale := GraphState.scale gs |}.

Lemma setdefault_node_lookup (nodes : gmap string GraphState.Node) (a k : string) :
  MapBuilder.setdefault_node nodes a !! k =
  match nodes !! k with
  | Some node => Some node
  | None => if decide (k = a)
            then Some {| GraphState.node_id := a; GraphState.x := 0;
                         GraphState.y := 0 |}
            else None
  end.
Proof.
  unfold MapBuilder.setdefault_node. destruct (nodes !! a) as [na|] eqn:Ha.
  - destruct (nodes !! k) eqn:Hk; [done|]. case_decide; [congruence|done].
  - destruct (decide (k = a)) as [->|Hne].
    + by rewrite lookup_insert_eq, Ha.
    + rewrite lookup_insert_ne by done. by destruct (nodes !! k).
Qed.

Lemma with_endpoints_dom (gs : GraphState.t) (a b : string) :
  dom (GraphState.nodes (with_endpoints gs a b))
  = {[ a; b ]} ∪ dom (GraphState.nodes gs).
Proof.
  apply set_eq. intros k. simpl.
  rewrite elem_of_union, !elem_of_dom, !setdefault_node_lookup.
  destruct (GraphState.nodes gs !! k) as [n|]; simpl.
  - split; [by right; eexists|by eexists].
  - repeat case_decide; subst; split; try (by eexists); try (by intros [?|[? ?]]);
      try (intros _; left; set_solver); try intros [? ?]; try done.
    intros [Hk|[? ?]]; [|done]. set_solver.
Qed.

Lemma connect_inr (gs gs' : GraphState.t) (a b : value) :
  connect gs a b = inr gs' →
  ∃ a' b' e, a = VStr a' ∧ b = VStr b' ∧
             upsert_edge (with_endpoints gs a' b') a' b' = Ok (gs', e).
Proof.
  unfold MapBuilder.connect.
  destruct a as [| | |a|]; try done; destruct b as [| | |b|]; try done.
  fold (with_endpoints gs a b).
  destruct (MapBuilder.upsert_edge _ _ _ _) as [[gs1 e]|] eqn:He; [|done].
  intros [= <-]. by exists a, b, e.
Qed.

Lemma from_json_edge_inr (gs gs' : GraphState.t) (edge : bag) :
  from_json_edge gs edge = inr gs' →
  gs' = gs ∨
  ∃ a b e, upsert_edge (with_endpoints gs a b) a b = Ok (gs', e).
Proof.
  unfold MapBuilder.from_json_edge.
  destruct (edge !! "nodes") as [[| | |s|l]|]; try done.
  - destruct s as [|c1 [|c2 [|c3 s]]]; try (intros [= <-]; by left).
    intros (a & b & e & _ & _ & He)%connect_inr. right. by exists a, b, e.
  - destruct l as [|a [|b [|c l]]]; try (intros [= <-]; by left).
    intros (a' & b' & e & _ & _ & He)%connect_inr. right. by exists a', b', e.
  - intros [= <-]. by left.
Qed.

Lemma closed_with_endpoints (gs : GraphState.t) (a b : string) :
  closed gs → closed (with_endpoints gs a b).
Proof.
  intros Hg k e He. destruct (Hg k e He) as (? & ? & ? & ? & ?).
  rewrite with_endpoints_dom. split_and!; try done; set_solver.
Qed.

Lemma from_json_closed (data : document) (scale : Q) (g : GraphState.t) :
  from_json data scale = inr g → closed g.
Proof.
  unfold MapBuilder.from_json.
  destruct (MapBuilder.load_fold _ _ (doc_nodes data)) as [|gs] eqn:Hnodes; [done|].
  intros Hedges.
  assert (closed gs).
  { revert Hnodes. apply (load_fold_inv closed); [|by intros k e; simpl; rewrite lookup_empty].
    intros st x st' Hst (nid & x' & y' & _ & ->)%from_json_node_inr.
    by apply closed_add_node. }
  revert Hedges. apply (load_fold_inv closed); [|done].
  intros st x st' Hst [->|(a & b & e & He)]%from_json_edge_inr; [done|].
  eapply closed_upsert; [|exact He]. by apply closed_with_endpoints.
Qed.

Lemma drawn_closed (g : GraphState.t) : drawn g → closed g.
Proof.
  induction 1 as [scale|data scale g Hg|g node_id x y _ IH|g node_id _ IH
                  |g a b g' e _ IH He|g g' _ IH Hg'|g scale _ IH
                  |g edge_key g' _ IH Hg'].
  - by intros k e; simpl; rewrite lookup_empty.
  - by eapply from_json_closed.
  - by apply closed_add_node.
  - by apply closed_remove_node.
  - by eapply closed_upsert.
  - destruct (recalc_closed g IH) as (g1 & Hg1 & Hn & _ & _ & Hm).
    rewrite Hg1 in Hg'. injection Hg' as <-. intros k e He.
    destruct (Hm k e He) as (na & nb & Ha & Hb & Hea & Heb & _).
    assert (Hk : k ∈ dom (GraphState.edges g)).
    { destruct (recalc_closed g IH) as (g2 & Hg2 & _ & _ & Hdom & _).
      rewrite Hg1 in Hg2. injection Hg2 as <-. rewrite <- Hdom.
      apply elem_of_dom. by eexists. }
    apply elem_of_dom in Hk as [e0 He0]. destruct (IH k e0 He0) as (? & ? & ? & _).
    rewrite Hn. by split_and!.
  - done.
  - unfold MapBuilder.delete_edge in Hg'.
    destruct (GraphState.edges g !! edge_key) as [old|]; [|done].
    injection Hg' as <-.
    intros k e'. simpl. intros [_ He]%lookup_delete_Some. by apply IH.
Qed.

(** X21. In every state the map builder reaches (by loading a graph,
    adding and removing nodes, connecting nodes, removing an edge,
    changing the scale and recalculating), every edge is stored under
    the sorted pair of its endpoints, it names them in that order, and
    both are nodes of the graph. *)
Theorem map_edges_closed (g : GraphState.t) (k : string * string)
    (e : GraphState.Edge) :
  drawn g → GraphState.edges g !! k = Some e →
  k.1 ∈ dom (GraphState.nodes g) ∧ k.2 ∈ dom (GraphState.nodes g) ∧
  sorted_pair k.1 k.2 = k ∧
  GraphState.a e = k.1 ∧ GraphState.b e = k.2.
Proof. intros Hg%drawn_closed. apply Hg. Qed.

(** X22. In every state the map builder reaches, [recalc_edges]
    raises nothing; it keeps the nodes, the scale and the pairs that are
    connected, and gives every edge the distance in pixels between its
    two nodes and that distance times the scale. *)
Theorem recalc_edges_refreshes (g : GraphState.t) :
  drawn g →
  ∃ g',
    recalc_edges g = Ok g' ∧
    GraphState.nodes g' = GraphState.nodes g ∧
    GraphState.scale g' = GraphState.scale g ∧
    dom (GraphState.edges g') = dom (GraphState.edges g) ∧
    ∀ k e, GraphState.edges g' !! k = Some e →
      ∃ node_a node_b,
        GraphState.nodes g !! k.1 = Some node_a ∧
        GraphState.nodes g !! k.2 = Some node_b ∧
        GraphState.pixel_distance e
          = hypot (GraphState.x node_a - GraphState.x node_b)
                  (GraphState.y node_a - GraphState.y node_b) ∧
        GraphState.distance e
          = (GraphState.pixel_distance e * GraphState.scale g)%Q.
Proof.
  intros Hg%drawn_closed.
  destruct (recalc_closed g Hg) as (g' & Hg' & Hn & Hs & Hdom & Hm).
  exists g'. split_and!; try done. intros k e He.
  destruct (Hm k e He) as (na & nb & ? & ? & _ & _ & ? & ?). by exists na, nb.
Qed.

(** A node with a string for its identifier and two coordinates that
    [float()] accepts; an edge that, when it has the field [nodes], has
    two strings there. *)
Definition placed (node : bag) : Prop :=
  ∃ nid x y,
    node !! "id" = Some (VStr nid) ∧
    coordinate (MapBuilder.position node) 0 = inr x ∧
    coordinate (MapBuilder.position node) 1 = inr y.

Definition joins (edge : bag) (a b : string) : Prop :=
  edge !! "nodes" = Some (VList [VStr a; VStr b]).

Definition joining (edge : bag) : Prop :=
  ∀ v, edge !! "nodes" = Some v → ∃ a b, v = VList [VStr a; VStr b].

(** The node that [setdefault] puts in for a missing endpoint. *)
Definition at_origin (node : GraphState.Node) : Prop :=
  GraphState.x node = 0%Q ∧ GraphState.y node = 0%Q.

Lemma from_json_nodes_placed (l : list bag) (gs : GraphState.t) :
  Forall placed l →
  ∃ gs',
    MapBuilder.load_fold from_json_node gs l = inr gs' ∧
    GraphState.edges gs' = GraphState.edges gs ∧
    GraphState.scale gs' = GraphState.scale gs ∧
    ∀ k, k ∈ dom (GraphState.nodes gs') ↔
         k ∈ dom (GraphState.nodes gs) ∨
         ∃ n, n ∈ l ∧ n !! "id" = Some (VStr k).
Proof.
  intros Hl. revert gs.
  induction Hl as [|n l (nid & x & y & Hid & Hx & Hy) _ IH]; intros gs.
  - exists gs. split_and!; try done. intros k. set_solver.
  - simpl. unfold MapBuilder.from_json_node at 1. rewrite Hid, Hx, Hy.
    destruct (IH (GraphState.add_node gs nid x y)) as (gs' & -> & He & Hs & Hdom).
    exists gs'. split_and!; try done. intros k. rewrite Hdom. simpl.
    rewrite dom_insert_L. split.
    + intros [[->%elem_of_singleton|?]%elem_of_union|(m & ? & ?)].
      * right. exists n. set_solver.
      * by left.
      * right. exists m. set_solver.
    + intros [?|(m & [->|?]%elem_of_cons & Hm)].
      * left. set_solver.
      * left. rewrite Hid in Hm. injection Hm as ->. set_solver.
      * right. by exists m.
Qed.

Lemma from_json_edge_joins (gs : GraphState.t) (edge : bag) :
  joining edge →
  (edge !! "nodes" = None ∧ from_json_edge gs edge = inr gs) ∨
  (∃ a b e,
     joins edge a b ∧
     from_json_edge gs edge
       = inr {| GraphState.nodes := GraphState.nodes (with_endpoints gs a b);
                GraphState.edges := <[sorted_pair a b := e]> (GraphState.edges gs);
                GraphState.scale := GraphState.scale gs |}).
Proof.
  intros Hedge. unfold MapBuilder.from_json_edge.
  destruct (edge !! "nodes") as [v|] eqn:Hv; [|by left].
  destruct (Hedge v Hv) as (a & b & ->). right.
  unfold MapBuilder.connect. fold (with_endpoints gs a b).
  assert (Ha : a ∈ dom (GraphState.nodes (with_endpoints gs a b)))
    by (rewrite with_endpoints_dom; set_solver).
  assert (Hb : b ∈ dom (GraphState.nodes (with_endpoints gs a b)))
    by (rewrite with_endpoints_dom; set_solver).
  unfold MapBuilder.upsert_edge.
  apply elem_of_dom in Ha as [na ->]. apply elem_of_dom in Hb as [nb ->].
  by eexists a, b, _.
Qed.

Lemma with_endpoints_lookup (gs : GraphState.t) (a b k : string)
    (node : GraphState.Node) :
  GraphState.nodes (with_endpoints gs a b) !! k = Some node →
  GraphState.nodes gs !! k = Some node ∨
  (GraphState.nodes gs !! k = None ∧ at_origin node).
Proof.
  simpl. rewrite !setdefault_node_lookup.
  destruct (GraphState.nodes gs !! k) as [n|]; [by left|].
  repeat case_decide; intros [= <-]; right; done.
Qed.

Lemma from_json_edges_joining (l : list bag) (gs : GraphState.t) :
  Forall joining l →
  ∃ gs',
    MapBuilder.load_fold from_json_edge gs l = inr gs' ∧
    GraphState.scale gs' = GraphState.scale gs ∧
    (∀ k, k ∈ dom (GraphState.edges gs') ↔
          k ∈ dom (GraphState.edges gs) ∨
          ∃ e a b, e ∈ l ∧ joins e a b ∧ k = sorted_pair a b) ∧
    (∀ k, k ∈ dom (GraphState.nodes gs') ↔
          k ∈ dom (GraphState.nodes gs) ∨
          ∃ e a b, e ∈ l ∧ joins e a b ∧ (k = a ∨ k = b)) ∧
    (∀ k node, GraphState.nodes gs' !! k = Some node →
       GraphState.nodes gs !! k = Some node ∨
       (GraphState.nodes gs !! k = None ∧ at_origin node)).
Proof.
  intros Hl. revert gs. induction Hl as [|edge l Hedge _ IH]; intros gs.
  - exists gs. split_and!; try done; try (intros k; set_solver); auto.
  - simpl.
    destruct (from_json_edge_joins gs edge Hedge)
      as [[Hnone ->]|(a & b & e & Hab & ->)].
    + destruct (IH gs) as (gs' & -> & Hs & He & Hn & Ho).
      exists gs'. split_and!; try done.
      * intros k. rewrite He. split; [set_solver|].
        intros [?|(e' & a & b & [->|?]%elem_of_cons & Hj & ?)]; [by left| |].
        -- unfold joins in Hj. congruence.
        -- right. by exists e', a, b.
      * intros k. rewrite Hn. split; [set_solver|].
        intros [?|(e' & a & b & [->|?]%elem_of_cons & Hj & ?)]; [by left| |].
        -- unfold joins in Hj. congruence.
        -- right. by exists e', a, b.
    + set (gs1 := {| GraphState.nodes := GraphState.nodes (with_endpoints gs a b);
                     GraphState.edges := <[sorted_pair a b := e]> (GraphState.edges gs);
                     GraphState.scale := GraphState.scale gs |}).
      destruct (IH gs1) as (gs' & -> & Hs & He & Hn & Ho).
      exists gs'. split_and!; try done.
      * intros k. rewrite He. unfold gs1 at 1. simpl. rewrite dom_insert_L. split.
        -- intros [[->%elem_of_singleton|?]%elem_of_union|(e' & a' & b' & ? & ? & ?)].
           ++ right. exists edge, a, b. set_solver.
           ++ by left.
           ++ right. exists e', a', b'. set_solver.
        -- intros [?|(e' & a' & b' & [->|?]%elem_of_cons & Hj & ->)].
           ++ left. set_solver.
           ++ unfold joins in Hab, Hj. rewrite Hab in Hj. injection Hj as <- <-.
              left. set_solver.
           ++ right. by exists e', a', b'.
      * intros k. rewrite Hn. unfold gs1 at 1.
        change (GraphState.nodes {| GraphState.nodes := GraphState.nodes (with_endpoints gs a b);
                  GraphState.edges := <[sorted_pair a b := e]> (GraphState.edges gs);
                  GraphState.scale := GraphState.scale gs |})
          with (GraphState.nodes (with_endpoints gs a b)).
        rewrite with_endpoints_dom. split.
        -- intros [[[->%elem_of_singleton| ->%elem_of_singleton]%elem_of_union|?]%elem_of_union
                   |(e' & a' & b' & ? & ? & ?)].
           ++ right. exists edge, a, b. set_solver.
           ++ right. exists edge, a, b. set_solver.
           ++ by left.
           ++ right. exists e', a', b'. set_solver.
        -- intros [?|(e' & a' & b' & [->|?]%elem_of_cons & Hj & Hk)].
           ++ left. set_solver.
           ++ unfold joins in Hab, Hj. rewrite Hab in Hj. injection Hj as <- <-.
              left. set_solver.
           ++ right. by exists e', a', b'.
      * intros k node Hk. destruct (Ho k node Hk) as [H1|[H1 H2]].
        -- by apply with_endpoints_lookup in H1.
        -- right. split; [|done]. unfold gs1 in H1. simpl in H1.
           rewrite !setdefault_node_lookup in H1.
           by destruct (GraphState.nodes gs !! k).
Qed.

(** X23. [from_json] is lenient where the other loaders raise: for a
    document whose nodes have a string for identifier and a position
    that [float()] accepts, and whose edges have two strings under
    [nodes] or no such field, it raises nothing; it connects the pairs
    of the edges that have the field and passes over the others (an
    edge given by [source] and [target] is dropped), and a node that
    only an edge names is put at the origin. *)
Theorem from_json_connects (data : document) (scale : Q) :
  Forall placed (doc_nodes data) →
  Forall joining (doc_edges data) →
  ∃ g,
    from_json data scale = inr g ∧
    GraphState.scale g = scale ∧
    (∀ k, k ∈ dom (GraphState.edges g) ↔
          ∃ e a b, e ∈ doc_edges data ∧ joins e a b ∧ k = sorted_pair a b) ∧
    (∀ k, k ∈ dom (GraphState.nodes g) ↔
          declares data k ∨
          ∃ e a b, e ∈ doc_edges data ∧ joins e a b ∧ (k = a ∨ k = b)) ∧
    (∀ k node, GraphState.nodes g !! k = Some node →
               ¬ declares data k → at_origin node).
Proof.
  intros Hnodes Hedges. unfold MapBuilder.from_json.
  destruct (from_json_nodes_placed (doc_nodes data)
              {| GraphState.nodes := ∅; GraphState.edges := ∅;
                 GraphState.scale := scale |} Hnodes)
    as (gs & -> & He0 & Hs0 & Hn0).
  destruct (from_json_edges_joining (doc_edges data) gs Hedges)
    as (g & -> & Hs & He & Hn & Ho).
  assert (Hdecl : ∀ k, k ∈ dom (GraphState.nodes gs) ↔ declares data k).
  { intros k. rewrite Hn0. simpl. rewrite dom_empty_L. unfold declares. set_solver. }
  exists g. split_and!; try done.
  - by rewrite Hs, Hs0.
  - intros k. rewrite He, He0. simpl. rewrite dom_empty_L. set_solver.
  - intros k. by rewrite Hn, Hdecl.
  - intros k node Hk Hnot. destruct (Ho k node Hk) as [H1|[_ H2]]; [|done].
    destruct Hnot. apply Hdecl. apply elem_of_dom. by eexists.
Qed.

(** *** The distance to an edge *)

Lemma Qsquare_nonneg (x : Q) : (0 <= x * x)%Q.
Proof. nra. Qed.

(** X24. [point_to_segment_dist] raises no [ZeroDivisionError], also
    for a segment of length zero, and what it returns is [hypot] of the
    offset of the point P from a point of the segment AB that is
    nearest to P: no point of the segment has a smaller sum of squared
    offsets. *)
Theorem point_to_segment_nearest (px py x1 y1 x2 y2 : Q) :
  ∃ t dx dy,
    MapBuilder.point_to_segment_dist hypot px py x1 y1 x2 y2 = Some (hypot dx dy) ∧
    (0 <= t)%Q ∧ (t <= 1)%Q ∧
    (dx == px - (x1 + t * (x2 - x1)))%Q ∧
    (dy == py - (y1 + t * (y2 - y1)))%Q ∧
    ∀ s, (0 <= s)%Q → (s <= 1)%Q →
      (dx * dx + dy * dy
       <= (px - (x1 + s * (x2 - x1))) * (px - (x1 + s * (x2 - x1)))
          + (py - (y1 + s * (y2 - y1))) * (py - (y1 + s * (y2 - y1))))%Q.
Proof.
  unfold MapBuilder.point_to_segment_dist.
  set (vx := (x2 - x1)%Q). set (vy := (y2 - y1)%Q).
  set (wx := (px - x1)%Q). set (wy := (py - y1)%Q).
  set (c1 := (vx * wx + vy * wy)%Q). set (c2 := (vx * vx + vy * vy)%Q).
  assert (Hc2 : (0 <= c2)%Q).
  { unfold c2. pose proof (Qsquare_nonneg vx). pose proof (Qsquare_nonneg vy). lra. }
  assert (Hexpand : ∀ s,
    ((px - (x1 + s * vx)) * (px - (x1 + s * vx))
     + (py - (y1 + s * vy)) * (py - (y1 + s * vy))
     == wx * wx + wy * wy - (2 * s) * c1 + (s * s) * c2)%Q).
  { intros s. unfold c1, c2, wx, wy. ring. }
  destruct (Qle_bool c1 0) eqn:H1.
  - apply Qle_bool_iff in H1.
    exists 0%Q, (px - x1)%Q, (py - y1)%Q. split; [done|].
    split; [lra|]. split; [lra|]. split; [lra|]. split; [lra|].
    intros s Hs0 Hs1. rewrite Hexpand. fold wx wy.
    assert (0 <= s * s * c2)%Q by (apply Qmult_le_0_compat; [nra|done]).
    assert (0 <= s * - c1)%Q by (apply Qmult_le_0_compat; lra).
    lra.
  - apply Qle_bool_gt in H1. destruct (Qle_bool c2 c1) eqn:H2.
    + apply Qle_bool_iff in H2.
      exists 1%Q, (px - x2)%Q, (py - y2)%Q. split; [done|].
      split; [lra|]. split; [lra|]. split; [unfold vx; lra|]. split; [unfold vy; lra|].
      intros s Hs0 Hs1. rewrite Hexpand.
      assert (Hend : ((px - x2) * (px - x2) + (py - y2) * (py - y2)
                      == wx * wx + wy * wy - 2 * c1 + c2)%Q).
      { unfold c1, c2, wx, wy, vx, vy. ring. }
      rewrite Hend.
      assert (0 <= (1 - s) * (2 * c1 - c2 * (1 + s)))%Q.
      { apply Qmult_le_0_compat; [lra|]. nra. }
      nra.
    + apply Qle_bool_gt in H2.
      destruct (Qeq_bool c2 0) eqn:H3; [apply Qeq_bool_iff in H3; lra|].
      set (b := (c1 / c2)%Q).
      assert (Hb : (b * c2 == c1)%Q) by (unfold b; field; lra).
      exists b, (px - (x1 + b * vx))%Q, (py - (y1 + b * vy))%Q. split; [done|].
      assert (Hb0 : (0 <= b)%Q).
      { unfold b. apply Qle_shift_div_l; lra. }
      assert (Hb1 : (b <= 1)%Q).
      { unfold b. apply Qle_shift_div_r; lra. }
      split; [done|]. split; [done|]. split; [done|]. split; [done|].
      intros s Hs0 Hs1. rewrite !Hexpand.
      assert (Hsq : (0 <= c2 * ((s - b) * (s - b)))%Q).
      { apply Qmult_le_0_compat; [done|apply Qsquare_nonneg]. }
      assert (Heq : (wx * wx + wy * wy - 2 * s * c1 + s * s * c2
                     - (wx * wx + wy * wy - 2 * b * c1 + b * b * c2)
                     == c2 * ((s - b) * (s - b)))%Q).
      { rewrite <- Hb. ring. }
      lra.
Qed.

End MapProperties.

(** * Instances and counterexamples *)

(** A parser of float literals that accepts no string; the graphs below
    hold no number written as a string. *)
Definition no_literal : string → option Q := λ _, None.

(** The lines of the log are not read below.  The formatting of a
    float is left blank; [f"{v}"] of a string is the string, and no other
    value is a route type below. *)
Definition blank_float : nat → Q → string := λ _ _, "".

Definition plain_value (v : value) : string :=
  match v with
  | VStr s => s
  | _ => ""
  end.

(** ** The router on sample graphs *)

Lemma line_routes_cases (P : string → list (string * bag) → Prop) :
  P "A" [("B", plain_route)] →
  P "B" [("A", plain_route); ("C", hard_route)] →
  P "C" [("B", hard_route); ("D", plain_route)] →
  P "D" [("C", plain_route)] →
  ∀ u routes, line_routes !! u = Some routes → P u routes.
Proof.
  intros HA HB HC HD u routes Hu. unfold line_routes in Hu.
  repeat (apply lookup_insert_Some in Hu as [[<- <-]|[_ Hu]]; [done|]).
  by apply lookup_singleton_Some in Hu as [<- <-].
Qed.

Lemma line_routes_weighted : weighted no_literal line_routes.
Proof.
  intros u routes v a Hu. revert v a. revert u routes Hu.
  apply (line_routes_cases (λ u routes, ∀ v a, (v, a) ∈ routes →
           ∃ w, edge_weight no_literal a = Ok w ∧ (0 <= w)%Q));
    intros v a Hin;
    repeat (apply elem_of_cons in Hin as [[= -> ->]|Hin]);
    try (by apply elem_of_nil in Hin);
    (eexists; split; [vm_compute; reflexivity|done]).
Qed.

Lemma line_routes_simple : simple line_routes.
Proof.
  intros u routes v a a' Hu. revert v a a'. revert u routes Hu.
  apply (line_routes_cases (λ u routes, ∀ v a a',
           (v, a) ∈ routes → (v, a') ∈ routes → a = a'));
    intros v a a' Hin Hin';
    repeat (apply elem_of_cons in Hin as [[= -> ->]|Hin]);
    try (by apply elem_of_nil in Hin);
    repeat (apply elem_of_cons in Hin' as [[= <-]|Hin']);
    try (by apply elem_of_nil in Hin'); done.
Qed.

Lemma line_routes_route :
  route line_routes "A" [("B", plain_route); ("C", hard_route); ("D", plain_route)] "D".
Proof.
  apply (route_snoc _ _ [("B", plain_route); ("C", hard_route)] "C"
           [("B", hard_route); ("D", plain_route)]); [|done|set_solver].
  apply (route_snoc _ _ [("B", plain_route)] "B"
           [("A", plain_route); ("C", hard_route)]); [|done|set_solver].
  apply (route_snoc _ _ [] "A" [("B", plain_route)]); [|done|set_solver].
  constructor.
Qed.

Lemma shortest_path_minimal_witness :
  ∃ r total weighted_cost,
    shortest_path no_literal 8 line_routes (Some "A") (Some "D")
      = Some (Ok ("A" :: r.*1, total, weighted_cost)) ∧
    route line_routes "A" r "D" ∧
    (weighted_cost == route_weight no_literal r)%Q ∧
    (∀ r', route line_routes "A" r' "D" →
           (weighted_cost <= route_weight no_literal r')%Q) ∧
    (total == route_distance r)%Q.
Proof.
  assert (Hfuel : (edge_count line_routes + 2 <= 8)%nat) by (vm_compute; lia).
  destruct (proj1 (shortest_path_minimal no_literal) line_routes "A" "D" 8%nat
              line_routes_weighted ltac:(done) ltac:(done) ltac:(done)
              (ex_intro _ _ line_routes_route) Hfuel)
    as (r & total & weighted_cost & Hr & Hroute & Hcost & Hmin & Htotal).
  exists r, total, weighted_cost.
  split_and!;
    [exact Hr|exact Hroute|exact Hcost|exact Hmin|exact (Htotal line_routes_simple)].
Defined.

(** A node [Z] that the line does not have. *)
Lemma line_routes_absent : absent line_routes "Z".
Proof.
  split; [done|]. intros u routes Hu. revert u routes Hu.
  apply (line_routes_cases (λ u routes, "Z" ∉ routes.*1)); set_solver.
Qed.

Lemma shortest_path_no_route_witness :
  shortest_path no_literal 8 line_routes (Some "A") (Some "Z")
    = Some (Ok ([], 0%Q, 0%Q)).
Proof.
  destruct (shortest_path_no_route no_literal) as (_ & Hunreachable & Habsent).
  apply Hunreachable.
  - apply line_routes_weighted.
  - done.
  - done.
  - done.
  - intros r. apply Habsent; [done|]. right. apply line_routes_absent.
  - vm_compute. lia.
Defined.

(** C5 fails where [start] and [dest] are the same node and the graph
    does not have it: the path returned is not empty. *)
Lemma shortest_path_same_absent :
  absent ∅ "Z" ∧
  shortest_path no_literal 2 ∅ (Some "Z") (Some "Z") = Some (Ok (["Z"], 0%Q, 0%Q)).
Proof.
  split; [|done]. split; [done|]. intros u routes Hu. by rewrite lookup_empty in Hu.
Qed.

(** An attribute that is no number makes the search raise, also with
    no route to the destination: [float(None)] is a [TypeError]. *)
Lemma shortest_path_raises :
  shortest_path no_literal 8
    {[ "A" := [("B", {[ "difficulty_factor" := VNull ]})];
       "B" := [("A", {[ "difficulty_factor" := VNull ]})] ]}
    (Some "A") (Some "Z")
  = Some (Raise TypeError).
Proof. vm_compute. reflexivity. Qed.

(** The triangle A - D (1 km), A - B (2 km), B - D (5 km, with a
    difficulty factor of -1). *)
Definition route_ad : bag := {[ "approx_distance_km" := VNum 1 ]}.
Definition route_ab : bag := {[ "approx_distance_km" := VNum 2 ]}.
Definition route_bd : bag :=
  {[ "approx_distance_km" := VNum 5; "difficulty_factor" := VNum (-1) ]}.

Definition negative_routes : adjacency_t :=
  {[ "A" := [("D", route_ad); ("B", route_ab)];
     "B" := [("A", route_ab); ("D", route_bd)];
     "D" := [("A", route_ad); ("B", route_bd)] ]}.

Definition detour : list (string * bag) := [("B", route_ab); ("D", route_bd)].

(** C1 fails where a weight is negative: the direct route is returned
    at the cost 1, and the route over B costs -3. *)
Lemma shortest_path_not_minimal :
  shortest_path no_literal 8 negative_routes (Some "A") (Some "D")
    = Some (Ok (["A"; "D"], 1%Q, 1%Q)) ∧
  route negative_routes "A" detour "D" ∧
  (route_weight no_literal detour == -3)%Q.
Proof.
  split_and!.
  - vm_compute. reflexivity.
  - apply (route_snoc _ _ [("B", route_ab)] "B" [("A", route_ab); ("D", route_bd)]);
      [|done|set_solver].
    apply (route_snoc _ _ [] "A" [("D", route_ad); ("B", route_ab)]);
      [|done|set_solver].
    constructor.
  - vm_compute. reflexivity.
Qed.

(** Two routes from A to B: 10 km, and 12 km with a difficulty factor
    of 0.5. *)
Definition parallel_routes : adjacency_t :=
  let short : bag := {[ "approx_distance_km" := VNum 10 ]} in
  let easy : bag := {[ "approx_distance_km" := VNum 12;
                       "difficulty_factor" := VNum (1 # 2) ]} in
  {[ "A" := [("B", short); ("B", easy)];
     "B" := [("A", short); ("A", easy)] ]}.

(** With two routes between the same nodes, the cost is that of the
    cheaper route (6, for 12 km) and the distance that of the route
    listed first (10 km). *)
Lemma shortest_path_parallel :
  shortest_path no_literal 8 parallel_routes (Some "A") (Some "B")
    = Some (Ok (["A"; "B"], 10, 12 # 2)%Q).
Proof. vm_compute. reflexivity. Qed.

(** A node whose identifier is the empty string counts as unset. *)
Lemma shortest_path_empty_id :
  shortest_path no_literal 8
    {[ "" := [("B", plain_route)]; "B" := [("", plain_route)] ]}
    (Some "") (Some "B")
  = Some (Ok ([], 0%Q, 0%Q)).
Proof. vm_compute. reflexivity. Qed.

(** ** The simulator on sample trips *)

Section SampleTrips.

Local Abbreviation start_leg := (Travel.start_leg no_literal blank_float plain_value).
Local Abbreviation travel_day := (Travel.travel_day no_literal blank_float).
Local Abbreviation clamp_session := (clamp_session no_literal blank_float plain_value).
Local Abbreviation call := (call no_literal blank_float plain_value).


Lemma travel_day_clamps_witness :
  active_leg clamp_session = Some clamp_leg ∧
  (0 < 100)%Q ∧
  difficulty_for_edge no_literal (attrs clamp_leg) = Ok 1%Q ∧
  ∃ self' r,
    travel_day "foot" 100 clamp_session = (self', Ok r) ∧
    r_traveled_km r = Qmin (speed_for_mode "foot" * 100 * 1) (remaining_km clamp_leg).
Proof.
  assert (H1 : active_leg clamp_session = Some clamp_leg)
    by (vm_compute; reflexivity).
  assert (H2 : (0 < 100)%Q) by reflexivity.
  assert (H3 : difficulty_for_edge no_literal (attrs clamp_leg) = Ok 1%Q)
    by (vm_compute; reflexivity).
  split; [exact H1|]. split; [exact H2|]. split; [exact H3|].
  destruct (proj1 (travel_day_clamps no_literal blank_float plain_value)
              clamp_session clamp_leg "foot" 100%Q 1%Q H1 H2 H3)
    as (self' & r & Hr & Hc & _).
  by exists self', r.
Defined.

(** A road of 50 km whose difficulty factor is JSON's [null]. *)
Definition unrated_routes : adjacency_t :=
  {[ "A" := [("B", {[ "approx_distance_km" := VNum 50;
                      "difficulty_factor" := VNull ]})] ]}.

Definition unrated_leg : ActiveLeg :=
  {| origin := "A"; destination := "B";
     attrs := {[ "approx_distance_km" := VNum 50; "difficulty_factor" := VNull ]};
     distance_km := 50; traveled_km := 0 |}.

Definition unrated_start : TravelSession :=
  (start_leg "B"
     (reset_trip "A" "B" (new_session {[ "A" := ∅; "B" := ∅ ]} unrated_routes)).1).1.


Definition at_A : TravelSession :=
  (reset_trip "A" "B" (new_session {[ "A" := ∅; "B" := ∅ ]} clamp_routes)).1.

Lemma at_A_routes :
  default [] (adjacency at_A !! "A") = [("B", {[ "approx_distance_km" := VNum 50 ]})].
Proof. vm_compute. reflexivity. Qed.

Lemma start_leg_outcomes_witness :
  current_city at_A = Some "A" ∧ "A" ≠ "" ∧ active_leg at_A = None ∧
  start_leg "A" at_A = (at_A, Raise SameLocation) ∧
  start_leg "C" at_A = (at_A, Raise NoSuchRoute) ∧
  ∃ self', start_leg "B" at_A = (self', Ok clamp_leg) ∧
           active_leg self' = Some clamp_leg.
Proof.
  assert (H1 : current_city at_A = Some "A") by reflexivity.
  assert (H2 : "A" ≠ "") by done.
  assert (H3 : active_leg at_A = None) by reflexivity.
  split; [exact H1|]. split; [exact H2|]. split; [exact H3|].
  split; [|split].
  - destruct (start_leg_outcomes no_literal blank_float plain_value at_A "A" "A" H1 H2)
      as (_ & Hsame & _).
    by apply Hsame.
  - destruct (start_leg_outcomes no_literal blank_float plain_value at_A "A" "C" H1 H2)
      as (_ & _ & Hnone & _).
    apply Hnone; [done|done|]. rewrite at_A_routes. set_solver.
  - destruct (start_leg_outcomes no_literal blank_float plain_value at_A "A" "B" H1 H2)
      as (_ & _ & _ & Hroute & _).
    destruct Hroute as (before & after & edge_attrs & Hroutes & _ & Hok & _);
      [done|done|rewrite at_A_routes; set_solver|].
    rewrite at_A_routes in Hroutes.
    assert (Hattrs : edge_attrs = {[ "approx_distance_km" := VNum 50 ]}).
    { destruct before as [|x before]; [by injection Hroutes as <-|].
      destruct before; discriminate. }
    subst edge_attrs.
    destruct (Hok 50%Q eq_refl) as (self' & Hstart & Hleg & _).
    by exists self'.
Defined.

(** A road whose distance is JSON's [null]. *)
Definition unmeasured_routes : adjacency_t :=
  {[ "A" := [("B", {[ "approx_distance_km" := VNull ]})] ]}.

Definition unmeasured_start : TravelSession :=
  (reset_trip "A" "B" (new_session {[ "A" := ∅; "B" := ∅ ]} unmeasured_routes)).1.

(** C7 fails where [float()] rejects the distance of the route: with a
    current city set, no leg active and a route to the destination,
    [start_leg] raises a [TypeError]. *)
Lemma start_leg_unmeasured :
  current_city unmeasured_start = Some "A" ∧
  active_leg unmeasured_start = None ∧
  available_routes unmeasured_start = [("B", {[ "approx_distance_km" := VNull ]})] ∧
  start_leg "B" unmeasured_start = (unmeasured_start, Raise TypeError).
Proof. split_and!; vm_compute; reflexivity. Qed.

Lemma typed_failures_atomic_witness :
  (travel_day "foot" 8 at_A).2 = Raise NoActiveLeg ∧
  (travel_day "foot" 8 at_A).1 = at_A.
Proof.
  assert (H1 : (travel_day "foot" 8 at_A).2 = Raise NoActiveLeg)
    by reflexivity.
  split; [exact H1|].
  destruct (typed_failures_atomic no_literal blank_float plain_value at_A NoActiveLeg) as (_ & _ & Hday).
  apply Hday; [done|]. set_solver.
Defined.

Lemma clamp_routes_nonneg : nonneg_routes no_literal clamp_routes.
Proof.
  intros u routes v a Hu Hin. unfold clamp_routes in Hu.
  apply lookup_insert_Some in Hu as [[<- <-]|[_ Hu]];
    [|apply lookup_singleton_Some in Hu as [<- <-]];
    apply list_elem_of_singleton in Hin as [= -> ->];
    (split; intros q; vm_compute; by intros [= <-]).
Qed.

Lemma active_leg_bounds_witness :
  nonneg_routes no_literal clamp_routes ∧
  rtc call
    (new_session {[ "A" := ∅; "B" := ∅ ]} clamp_routes) clamp_session ∧
  active_leg clamp_session = Some clamp_leg ∧
  (0 <= traveled_km clamp_leg)%Q ∧ (traveled_km clamp_leg <= distance_km clamp_leg)%Q.
Proof.
  assert (H1 : rtc call
    (new_session {[ "A" := ∅; "B" := ∅ ]} clamp_routes) clamp_session).
  { eapply rtc_l; [apply (call_reset_trip no_literal blank_float plain_value _ "A" "B")|].
    eapply rtc_l; [apply (call_start_leg no_literal blank_float plain_value _ "B")|]. apply rtc_refl. }
  assert (H2 : active_leg clamp_session = Some clamp_leg)
    by (vm_compute; reflexivity).
  split; [apply clamp_routes_nonneg|]. split; [exact H1|]. split; [exact H2|].
    by apply (proj1 (active_leg_bounds no_literal blank_float plain_value _ clamp_routes clamp_routes_nonneg)
                clamp_session clamp_leg H1 H2).
Defined.

(** A route of 10 km with a difficulty factor of -1, and one of -5 km. *)
Definition downhill_routes : adjacency_t :=
  {[ "A" := [("B", {[ "approx_distance_km" := VNum 10;
                      "difficulty_factor" := VNum (-1) ]});
             ("C", {[ "approx_distance_km" := VNum (-5) ]})] ]}.

Definition downhill_start : TravelSession :=
  (reset_trip "A" "B" (new_session {[ "A" := ∅; "B" := ∅; "C" := ∅ ]} downhill_routes)).1.

Definition downhill_leg : ActiveLeg :=
  {| origin := "A"; destination := "B";
     attrs := {[ "approx_distance_km" := VNum 10; "difficulty_factor" := VNum (-1) ]};
     distance_km := 10; traveled_km := -360 # 10 |}.

Definition negative_leg : ActiveLeg :=
  {| origin := "A"; destination := "C";
     attrs := {[ "approx_distance_km" := VNum (-5) ]};
     distance_km := -5; traveled_km := 0 |}.

(** C9 fails where a difficulty factor or a distance is negative:
    after a day of 8 hours on foot the leg to B has -36 km traveled, and
    the leg to C starts with 0 km traveled of -5 km. *)
Lemma active_leg_out_of_bounds :
  active_leg (travel_day "foot" 8
                (start_leg "B" downhill_start).1).1 = Some downhill_leg ∧
  (traveled_km downhill_leg < 0)%Q ∧
  active_leg (start_leg "C" downhill_start).1 = Some negative_leg ∧
  (distance_km negative_leg < traveled_km negative_leg)%Q.
Proof.
  split_and!; [vm_compute; reflexivity|done|vm_compute; reflexivity|done].
Qed.

(** C2 fails on a leg whose difficulty factor [float()] rejects: the
    call raises, with the day counted and nothing covered.  It fails on
    a leg of a negative distance too: the day covers 0 km, which leaves
    the 0 km traveled above the -5 km of the leg. *)
Lemma travel_day_unclamped :
  active_leg unrated_start = Some unrated_leg ∧
  (travel_day "foot" 8 unrated_start).2 = Raise TypeError ∧
  day (travel_day "foot" 8 unrated_start).1 = (day unrated_start + 1)%Z ∧
  active_leg (travel_day "foot" 8 unrated_start).1 = Some unrated_leg ∧
  active_leg (start_leg "C" downhill_start).1 = Some negative_leg ∧
  (travel_day "foot" 8 (start_leg "C" downhill_start).1).2
    = Ok {| r_day := 1; r_traveled_km := 0; r_remaining_leg_km := 0;
            r_at_city := Some "C"; r_reached_destination := true |} ∧
  (distance_km negative_leg < traveled_km negative_leg + 0)%Q.
Proof. split_and!; try (vm_compute; reflexivity). Qed.

End SampleTrips.

(** ** The graph model on sample graphs *)

(** Two nodes. *)
Definition two_nodes : Graph.t :=
  {| Graph.nodes := {[ "A" := {[ "id" := VStr "A" ]};
                       "B" := {[ "id" := VStr "B"; "is_port" := VBool true ]} ]};
     Graph.edges := ∅ |}.

(** Two nodes and the road between them. *)
Definition one_road : Graph.t :=
  {| Graph.nodes := Graph.nodes two_nodes;
     Graph.edges :=
       {[ ("A", "B") := {[ "nodes" := VList [VStr "A"; VStr "B"];
                           "undirected" := VBool true;
                           "route_type" := VStr "road" ]} ]} |}.

Lemma two_nodes_built : built two_nodes.
Proof.
  apply (built_add_node
           {| Graph.nodes := {[ "A" := {[ "id" := VStr "A" ]} ]}; Graph.edges := ∅ |}
           _ "B" {[ "is_port" := VBool true ]}); [|done|vm_compute; reflexivity].
  apply (built_add_node Graph.empty _ "A" ∅); [|done|vm_compute; reflexivity].
  constructor.
Qed.

Lemma one_road_added :
  Graph.add_edge two_nodes "B" "A" {[ "route_type" := VStr "road" ]} = Ok one_road.
Proof. vm_compute. reflexivity. Qed.

Lemma one_road_built : built one_road.
Proof.
  apply (built_add_edge two_nodes _ "B" "A" {[ "route_type" := VStr "road" ]});
    [apply two_nodes_built|done|apply one_road_added].
Qed.

Lemma from_dict_to_dict_witness :
  built one_road ∧ Graph.from_dict (Graph.to_dict one_road) = Ok one_road.
Proof.
  split; [apply one_road_built|].
  apply from_dict_to_dict. apply one_road_built.
Defined.

(** Two nodes, the first with an attribute [id]. *)
Definition renamed : Graph.t :=
  {| Graph.nodes := {[ "A" := {[ "id" := VStr "B"; "x" := VNum 1 ]};
                       "B" := {[ "id" := VStr "B"; "y" := VNum 2 ]} ]};
     Graph.edges := ∅ |}.

Definition merged_nodes : Graph.t :=
  {| Graph.nodes := {[ "B" := {[ "id" := VStr "B"; "x" := VNum 1; "y" := VNum 2 ]} ]};
     Graph.edges := ∅ |}.

(** C3 fails where an attribute bag has an [id] field: [add_node("A",
    id="B", x=1)] and [add_node("B", y=2)] build two nodes, and the
    graph read back has the one node B with the fields of both. *)
Lemma from_dict_to_dict_id :
  (g ← Graph.add_node Graph.empty "A" {[ "id" := VStr "B"; "x" := VNum 1 ]};
   Graph.add_node g "B" {[ "y" := VNum 2 ]}) = Ok renamed ∧
  Graph.from_dict (Graph.to_dict renamed) = Ok merged_nodes ∧
  merged_nodes ≠ renamed.
Proof.
  split_and!; [vm_compute; reflexivity|vm_compute; reflexivity|].
  intros H. apply (f_equal (λ g, size (Graph.nodes g))) in H.
  vm_compute in H. discriminate.
Qed.

(** Two nodes and an edge between them whose attributes have a
    [nodes] field. *)
Definition mislabeled : Graph.t :=
  {| Graph.nodes := Graph.nodes two_nodes;
     Graph.edges :=
       {[ ("A", "B") := {[ "nodes" := VList [VStr "A"; VStr "C"];
                           "undirected" := VBool true ]} ]} |}.

(** The same with the field [nodes] of an edge: the edge read back
    names a node the graph does not have. *)
Lemma from_dict_to_dict_nodes :
  Graph.add_edge two_nodes "A" "B" {[ "nodes" := VList [VStr "A"; VStr "C"] ]}
    = Ok mislabeled ∧
  Graph.from_dict (Graph.to_dict mislabeled) = Raise MissingEndpoint.
Proof. split; vm_compute; reflexivity. Qed.


Definition edited_nodes : gmap string bag := {[ "A" := ∅; "B" := ∅ ]}.

(** The editor's graph with the road A - B. *)
Definition edited : GraphData.t :=
  {| GraphData.nodes := edited_nodes;
     GraphData.edges :=
       [ {[ "nodes" := VList [VStr "A"; VStr "B"]; "route_type" := VStr "road" ]} ] |}.

Lemma edited_upserted :
  GraphData.upsert_edge
    (GraphData.add_node (GraphData.add_node GraphData.empty "A" ∅) "B" ∅)
    "A" "B" {[ "route_type" := VStr "road" ]} = Ok edited.
Proof. vm_compute. reflexivity. Qed.

(** The road A - B with a distance and no route type. *)
Definition overwritten : GraphData.t :=
  {| GraphData.nodes := edited_nodes;
     GraphData.edges :=
       [ {[ "nodes" := VList [VStr "A"; VStr "B"];
            "approx_distance_km" := VNum 5 ]} ] |}.

Lemma edited_overwritten :
  GraphData.upsert_edge edited "B" "A" {[ "approx_distance_km" := VNum 5 ]}
    = Ok overwritten.
Proof. vm_compute. reflexivity. Qed.

Lemma edge_insert_canonical_witness :
  Graph.add_edge two_nodes "B" "A" {[ "route_type" := VStr "road" ]} = Ok one_road ∧
  Graph.nodes one_road = Graph.nodes two_nodes ∧
  Graph.edges one_road !! ("B", "A") = Graph.edges two_nodes !! ("B", "A") ∧
  GraphData.upsert_edge edited "B" "A" {[ "approx_distance_km" := VNum 5 ]}
    = Ok overwritten ∧
  GraphData.nodes overwritten = GraphData.nodes edited ∧
  length (GraphData.edges overwritten) = length (GraphData.edges edited).
Proof.
  split; [apply one_road_added|].
  destruct edge_insert_canonical as (_ & Hadd & _ & _ & Hupsert).
  destruct (Hadd two_nodes one_road "B" "A" _ one_road_added) as (Hn & _ & Hk & _).
  split; [exact Hn|]. split; [by apply Hk|].
  split; [apply edited_overwritten|].
  destruct (Hupsert edited overwritten "B" "A" _ edited_overwritten)
    as (Hn' & _ & _ & _ & Hlen & _).
  split; [exact Hn'|exact Hlen].
Defined.

(** The edge that attributes with a [nodes] field leave for A - B. *)
Definition relabeled (edges : list bag) : GraphData.t :=
  {| GraphData.nodes := edited_nodes; GraphData.edges := edges |}.

(** C4 fails for [upsert_edge]: the edge written over the road A - B
    has the new distance and has lost its route type; and with a
    [nodes] field among the attributes the edge stored names another
    pair, so that the same call again adds a second edge. *)
Lemma upsert_edge_replaces :
  GraphData.upsert_edge edited "B" "A" {[ "approx_distance_km" := VNum 5 ]}
    = Ok overwritten ∧
  GraphData.upsert_edge edited "A" "B" {[ "nodes" := VList [VStr "A"; VStr "C"] ]}
    = Ok (relabeled [ {[ "nodes" := VList [VStr "A"; VStr "C"] ]} ]) ∧
  GraphData.upsert_edge (relabeled [ {[ "nodes" := VList [VStr "A"; VStr "C"] ]} ])
      "A" "B" {[ "nodes" := VList [VStr "A"; VStr "C"] ]}
    = Ok (relabeled [ {[ "nodes" := VList [VStr "A"; VStr "C"] ]};
                      {[ "nodes" := VList [VStr "A"; VStr "C"] ]} ]).
Proof. split_and!; vm_compute; reflexivity. Qed.

Lemma edited_iterable : Forall iterable (GraphData.edges edited).
Proof. by repeat constructor. Qed.

Lemma remove_node_cascades_witness :
  Forall iterable (GraphData.edges edited) ∧
  ("A" ∉ dom (GraphData.nodes (GraphData.remove_node edited "A").1)) ∧
  (GraphData.remove_node edited "A").2 = Ok () ∧
  ∀ e, e ∈ GraphData.edges (GraphData.remove_node edited "A").1 →
       GraphData.references "A" e = Ok false.
Proof.
  split; [apply edited_iterable|].
  destruct (remove_node_cascades edited "A") as (Hnode & _ & Hreturns & Hedges & _).
  pose proof (proj2 Hreturns edited_iterable) as Hok.
  split; [exact Hnode|]. split; [exact Hok|].
  intros e He. destruct (Hedges Hok) as [_ Hnone]. by destruct (Hnone e He).
Defined.

(** The road A - B and an edge whose [nodes] field is JSON's [null]. *)
Definition half_typed : GraphData.t :=
  {| GraphData.nodes := edited_nodes;
     GraphData.edges :=
       [ {[ "nodes" := VList [VStr "A"; VStr "B"]; "route_type" := VStr "road" ]};
         {[ "nodes" := VNull ]} ] |}.

(** C6 fails where an edge holds no list under [nodes]: the call raises
    a [TypeError] when it comes to that edge; the node A is gone, and
    the road A - B is still there. *)
Lemma remove_node_raises :
  GraphData.remove_node half_typed "A"
    = ({| GraphData.nodes := {[ "B" := ∅ ]};
          GraphData.edges := GraphData.edges half_typed |}, Raise TypeError) ∧
  GraphData.references "A"
    {[ "nodes" := VList [VStr "A"; VStr "B"]; "route_type" := VStr "road" ]} = Ok true.
Proof. split; vm_compute; reflexivity. Qed.

(** * Instances of the further properties *)

(** Whether a call returned. *)
Definition returned {A} (r : res A) : bool :=
  match r with
  | Ok _ => true
  | Raise _ => false
  end.

(** ** A document of two nodes and one road *)

Definition two_towns : document :=
  {| doc_nodes := [ {[ "id" := VStr "A" ]}; {[ "id" := VStr "B" ]} ];
     doc_edges := [ {[ "nodes" := VList [VStr "A"; VStr "B"];
                       "distance_km" := VNum 5 ]} ] |}.

(** What [prepare_graph] makes of it. *)
Definition two_towns_nodes : gmap string bag :=
  match prepare_graph no_literal two_towns with
  | Ok (nodes, _) => nodes
  | Raise _ => ∅
  end.

Definition two_towns_routes : adjacency_t :=
  match prepare_graph no_literal two_towns with
  | Ok (_, adjacency) => adjacency
  | Raise _ => ∅
  end.

Lemma two_towns_prepared :
  prepare_graph no_literal two_towns = Ok (two_towns_nodes, two_towns_routes).
Proof.
  unfold two_towns_nodes, two_towns_routes.
  assert (H : returned (prepare_graph no_literal two_towns) = true)
    by (vm_compute; reflexivity).
  by destruct (prepare_graph no_literal two_towns) as [[nodes adjacency]|e].
Qed.

Lemma prepare_graph_nodes_witness :
  prepare_graph no_literal two_towns = Ok (two_towns_nodes, two_towns_routes) ∧
  (two_towns_nodes !! "A" = Some {[ "id" := VStr "A" ]} ↔
   ∃ before after,
     doc_nodes two_towns = before ++ {[ "id" := VStr "A" ]} :: after ∧
     ({[ "id" := VStr "A" ]} : bag) !! "id" = Some (VStr "A") ∧
     ∀ m, m ∈ after → m !! "id" ≠ Some (VStr "A")).
Proof.
  split; [apply two_towns_prepared|].
  apply (prepare_graph_nodes no_literal two_towns _ _ two_towns_prepared).
Defined.

Lemma prepare_graph_routes_witness :
  prepare_graph no_literal two_towns = Ok (two_towns_nodes, two_towns_routes) ∧
  edge_count two_towns_routes = 2%nat.
Proof.
  split; [apply two_towns_prepared|].
  destruct (prepare_graph_routes no_literal two_towns _ _ two_towns_prepared) as [_ H].
  exact H.
Defined.

(** ** The way there and back between the two towns *)

Section SampleTripsFurther.

Local Abbreviation start_leg := (Travel.start_leg no_literal blank_float plain_value).
Local Abbreviation travel_day := (Travel.travel_day no_literal blank_float).
Local Abbreviation clamp_session := (clamp_session no_literal blank_float plain_value).
Local Abbreviation clamp_arrived := (clamp_arrived blank_float plain_value).
Local Abbreviation call := (call no_literal blank_float plain_value).
Local Abbreviation days := (days no_literal blank_float).

(** A session over the two towns, standing at [city]. *)
Definition at_town (city : string) : TravelSession :=
  {| nodes := two_towns_nodes; adjacency := two_towns_routes;
     start_city := Some "A"; destination_city := Some "B";
     current_city := Some city; active_leg := None;
     day := 0; total_traveled_km := 0; log := [] |}.

Lemma return_leg_witness :
  ∃ out' leg back' leg',
    start_leg "B" (at_town "A") = (out', Ok leg) ∧
    start_leg "A" (at_town "B") = (back', Ok leg') ∧
    attrs leg' = attrs leg ∧ distance_km leg' = distance_km leg.
Proof.
  assert (H : returned (start_leg "B" (at_town "A")).2 = true)
    by (vm_compute; reflexivity).
  destruct (start_leg "B" (at_town "A")) as [out' [leg|e]] eqn:Hout; [|done].
  destruct (return_leg no_literal blank_float plain_value two_towns _ _
              (at_town "A") (at_town "B") out'
              "A" "B" leg two_towns_prepared eq_refl eq_refl eq_refl eq_refl
              ltac:(done) eq_refl Hout)
    as (back' & leg' & Hback & _ & _ & Hattrs & Hdist).
  by exists out', leg, back', leg'.
Defined.

(** ** The line A - B - C - D in both directions *)

Lemma line_routes_symmetric : symmetric line_routes.
Proof.
  intros u routes v a Hu. revert v a. revert u routes Hu.
  apply (line_routes_cases (λ u routes, ∀ v a,
           (v, a) ∈ routes → (u, a) ∈ default [] (line_routes !! v)));
    intros v a Hin;
    repeat (apply elem_of_cons in Hin as [[= -> ->]|Hin]);
    try (by apply elem_of_nil in Hin).
  - change (line_routes !! "B") with (Some [("A", plain_route); ("C", hard_route)]).
    set_solver.
  - change (line_routes !! "A") with (Some [("B", plain_route)]). set_solver.
  - change (line_routes !! "C") with (Some [("B", hard_route); ("D", plain_route)]).
    set_solver.
  - change (line_routes !! "B") with (Some [("A", plain_route); ("C", hard_route)]).
    set_solver.
  - change (line_routes !! "D") with (Some [("C", plain_route)]). set_solver.
  - change (line_routes !! "C") with (Some [("B", hard_route); ("D", plain_route)]).
    set_solver.
Qed.

Lemma shortest_path_both_ways_witness :
  symmetric line_routes ∧ weighted no_literal line_routes ∧
  ∃ path total cost path' total' cost',
    shortest_path no_literal 8 line_routes (Some "A") (Some "D")
      = Some (Ok (path, total, cost)) ∧
    shortest_path no_literal 8 line_routes (Some "D") (Some "A")
      = Some (Ok (path', total', cost')) ∧
    (path = [] ↔ path' = []).
Proof.
  split; [apply line_routes_symmetric|]. split; [apply line_routes_weighted|].
  apply (shortest_path_both_ways no_literal line_routes "A" "D" 8
           line_routes_symmetric line_routes_weighted); [done|done|].
  vm_compute. lia.
Defined.

(** ** The trip of 50 km, day by day *)

Lemma clamp_session_reached :
  rtc call (new_session {[ "A" := ∅; "B" := ∅ ]} clamp_routes) clamp_session.
Proof.
  eapply rtc_l; [apply (call_reset_trip no_literal blank_float plain_value _ "A" "B")|].
  eapply rtc_l; [apply (call_start_leg no_literal blank_float plain_value _ "B")|].
  apply rtc_refl.
Qed.

(** What the one day of the trip returns. *)
Definition clamp_day : day_result :=
  {| r_day := 1; r_traveled_km := 50; r_remaining_leg_km := 0;
     r_at_city := Some "B"; r_reached_destination := true |}.

Lemma clamp_arrived_reported :
  reported no_literal blank_float plain_value {[ "A" := ∅; "B" := ∅ ]} clamp_routes
    clamp_arrived [clamp_day].
Proof.
  apply (reported_travel_day no_literal blank_float plain_value _ _
           clamp_session [] "foot" 100 clamp_arrived clamp_day);
    [|vm_compute; reflexivity].
  apply (reported_start_leg no_literal blank_float plain_value _ _
           (reset_trip "A" "B" (new_session {[ "A" := ∅; "B" := ∅ ]} clamp_routes)).1
           [] "B").
  apply (reported_reset_trip no_literal blank_float plain_value _ _
           (new_session {[ "A" := ∅; "B" := ∅ ]} clamp_routes) [] "A" "B");
    [constructor|vm_compute; reflexivity].
Qed.

Lemma trip_totals_account_witness :
  reported no_literal blank_float plain_value {[ "A" := ∅; "B" := ∅ ]} clamp_routes
    clamp_arrived [clamp_day] ∧
  total_traveled_km clamp_arrived = km_returned [clamp_day] ∧
  (Z.of_nat (length [clamp_day]) <= day clamp_arrived)%Z.
Proof.
  split; [apply clamp_arrived_reported|].
  destruct (trip_totals_account no_literal blank_float plain_value _ _ _ _
              clamp_arrived_reported) as (Htotal & Hdays & _).
  split; [exact Htotal|exact Hdays].
Defined.

Lemma traveller_on_route_witness :
  rtc call (new_session {[ "A" := ∅; "B" := ∅ ]} clamp_routes) clamp_session ∧
  adjacency clamp_session = clamp_routes.
Proof.
  split; [apply clamp_session_reached|].
  destruct (traveller_on_route no_literal blank_float plain_value _ _ _
              clamp_session_reached) as (_ & H & _).
  exact H.
Defined.

Lemma arrival_within_witness :
  active_leg clamp_session = Some clamp_leg ∧
  (traveled_km clamp_leg <= distance_km clamp_leg)%Q ∧
  (0 < 100)%Q ∧
  difficulty_for_edge no_literal (attrs clamp_leg) = Ok 1%Q ∧
  (distance_km clamp_leg - traveled_km clamp_leg
   <= inject_Z (Z.of_nat 1) * (speed_for_mode "foot" * 100 * 1))%Q ∧
  active_leg (days 1 "foot" 100 clamp_session) = None ∧
  current_city (days 1 "foot" 100 clamp_session) = Some (destination clamp_leg).
Proof.
  assert (H1 : active_leg clamp_session = Some clamp_leg)
    by (vm_compute; reflexivity).
  assert (H2 : (traveled_km clamp_leg <= distance_km clamp_leg)%Q) by done.
  assert (H3 : (0 < 100)%Q) by reflexivity.
  assert (H4 : difficulty_for_edge no_literal (attrs clamp_leg) = Ok 1%Q)
    by (vm_compute; reflexivity).
  assert (H5 : (distance_km clamp_leg - traveled_km clamp_leg
                <= inject_Z (Z.of_nat 1) * (speed_for_mode "foot" * 100 * 1))%Q)
    by (vm_compute; discriminate).
  split; [exact H1|]. split; [exact H2|]. split; [exact H3|].
  split; [exact H4|]. split; [exact H5|].
  apply (arrival_within no_literal blank_float 1 "foot" 100 1 _ clamp_leg H1 H2 H3 H4);
    [lia|exact H5].
Defined.

End SampleTripsFurther.


(** ** The two towns as a graph of the builder *)

Lemma add_node_merges_witness :
  Graph.add_node two_nodes "B" {[ "is_port" := VBool false ]}
    = Ok {| Graph.nodes := {[ "A" := {[ "id" := VStr "A" ]};
                              "B" := {[ "id" := VStr "B"; "is_port" := VBool false ]} ]};
            Graph.edges := ∅ |} ∧
  Graph.edges {| Graph.nodes := {[ "A" := {[ "id" := VStr "A" ]};
                                   "B" := {[ "id" := VStr "B";
                                             "is_port" := VBool false ]} ]};
                 Graph.edges := ∅ |} = Graph.edges two_nodes.
Proof.
  assert (H : Graph.add_node two_nodes "B" {[ "is_port" := VBool false ]}
    = Ok {| Graph.nodes := {[ "A" := {[ "id" := VStr "A" ]};
                              "B" := {[ "id" := VStr "B"; "is_port" := VBool false ]} ]};
            Graph.edges := ∅ |}) by (vm_compute; reflexivity).
  split; [exact H|].
  destruct (add_node_merges two_nodes "B" {[ "is_port" := VBool false ]}) as [_ Hok].
  destruct (Hok _ H) as (He & _). exact He.
Defined.

(** What [from_dict] makes of the document of the two towns. *)
Definition two_towns_graph : Graph.t :=
  match Graph.from_dict two_towns with
  | Ok g => g
  | Raise _ => Graph.empty
  end.

Lemma two_towns_loaded : Graph.from_dict two_towns = Ok two_towns_graph.
Proof.
  unfold two_towns_graph.
  assert (H : returned (Graph.from_dict two_towns) = true) by (vm_compute; reflexivity).
  by destruct (Graph.from_dict two_towns).
Qed.

Lemma loaded_round_trip_witness :
  Graph.from_dict two_towns = Ok two_towns_graph ∧
  Graph.from_dict (Graph.to_dict two_towns_graph) = Ok two_towns_graph.
Proof.
  split; [apply two_towns_loaded|].
  apply (loaded_round_trip two_towns). apply two_towns_loaded.
Defined.

Lemma two_towns_plain :
  Forall plain_node (doc_nodes two_towns) ∧ Forall plain_edge (doc_edges two_towns).
Proof.
  split.
  - repeat constructor; by eexists.
  - repeat constructor. by exists "A", "B".
Qed.

Lemma from_dict_dangling_witness :
  Forall plain_node (doc_nodes two_towns) ∧
  Forall plain_edge (doc_edges two_towns) ∧
  ∀ g, Graph.from_dict two_towns = Ok g →
       ∀ k, k ∈ dom (Graph.nodes g) ↔ declares two_towns k.
Proof.
  destruct two_towns_plain as [Hnodes Hedges].
  split; [exact Hnodes|]. split; [exact Hedges|].
  destruct (from_dict_dangling two_towns Hnodes Hedges) as (_ & H & _). exact H.
Defined.

Lemma one_road_floats (k : string * string) (e : bag) :
  Graph.edges one_road !! k = Some e →
  ∃ d, py_float no_literal (raw_distance e) = Ok d.
Proof.
  unfold one_road. simpl. intros [_ <-]%lookup_singleton_Some.
  exists 0%Q. vm_compute. reflexivity.
Qed.


(** ** The two towns in the editor *)

Definition two_towns_edited : GraphData.t :=
  match Editor.load two_towns with
  | Ok g => g
  | Raise _ => GraphData.empty
  end.

Lemma two_towns_opened : Editor.load two_towns = Ok two_towns_edited.
Proof.
  unfold two_towns_edited.
  assert (H : returned (Editor.load two_towns) = true) by (vm_compute; reflexivity).
  by destruct (Editor.load two_towns).
Qed.

Lemma loaded_graph_normal_witness :
  Editor.load two_towns = Ok two_towns_edited ∧
  NoDup (omap edge_pair (GraphData.edges two_towns_edited)).
Proof.
  split; [apply two_towns_opened|].
  destruct (loaded_graph_normal two_towns _ two_towns_opened) as (_ & _ & H).
  exact H.
Defined.

Lemma two_towns_normal : normal two_towns_edited.
Proof. apply (load_normal two_towns). apply two_towns_opened. Qed.

Lemma save_load_witness :
  normal two_towns_edited ∧
  Editor.load (Editor.save two_towns_edited) = Ok two_towns_edited.
Proof.
  split; [apply two_towns_normal|].
  destruct (save_load two_towns_edited two_towns_normal) as [H _]. exact H.
Defined.

Lemma load_last_edge_witness :
  Editor.load two_towns = Ok two_towns_edited ∧
  ∀ e, e ∈ GraphData.edges two_towns_edited ↔
    ∃ before raw after key attrs,
      doc_edges two_towns = before ++ raw :: after ∧
      raw_key raw = Some key ∧ Editor.edge_attrs raw = Ok attrs ∧
      e = Graph.merged {[ "nodes" := VList [VStr key.1; VStr key.2] ]} attrs ∧
      ∀ raw', raw' ∈ after → raw_key raw' ≠ Some key.
Proof.
  split; [apply two_towns_opened|].
  apply (load_last_edge two_towns). apply two_towns_opened.
Defined.

Lemma edited_editable : editable edited.
Proof.
  apply (editable_upsert_edge
           (GraphData.add_node (GraphData.add_node GraphData.empty "A" ∅) "B" ∅)
           "A" "B" {[ "route_type" := VStr "road" ]} edited);
    [|done|apply edited_upserted].
  do 2 apply editable_add_node. constructor.
Qed.

Lemma one_edge_per_pair_witness :
  editable edited ∧
  (∀ e, e ∈ GraphData.edges edited → is_Some (edge_pair e)) ∧
  (GraphData.remove_node edited "A").2 = Ok ().
Proof.
  split; [apply edited_editable|].
  destruct (one_edge_per_pair edited edited_editable) as (H & _ & Hremove & _).
  split; [exact H|apply Hremove].
Defined.

Lemma edge_found_after_upsert_witness :
  ({[ "approx_distance_km" := VNum 5 ]} : bag) !! "nodes" = None ∧
  GraphData.upsert_edge edited "B" "A" {[ "approx_distance_km" := VNum 5 ]}
    = Ok overwritten ∧
  GraphData.find_edge_index overwritten "B" "A" = Ok (Some 0%nat) ∧
  GraphData.remove_edge overwritten "B" "A" = GraphData.remove_edge edited "B" "A".
Proof.
  assert (H : ({[ "approx_distance_km" := VNum 5 ]} : bag) !! "nodes" = None) by done.
  split; [exact H|]. split; [apply edited_overwritten|].
  destruct (edge_found_after_upsert edited "B" "A" {[ "approx_distance_km" := VNum 5 ]})
    as (_ & _ & Hupsert & _).
  destruct (Hupsert H overwritten edited_overwritten)
    as [(i & Hfound & _ & Hplace) Hremove].
  split; [|exact Hremove].
  rewrite Hfound. f_equal. f_equal.
  assert (Hbefore : GraphData.find_edge_index edited "B" "A" = Ok (Some 0%nat))
    by (vm_compute; reflexivity).
  by rewrite Hbefore in Hplace.
Defined.


(** ** The edge form over the road A - B *)

(** The fields of the examples have no blank at either end: [str.strip]
    returns them as they are. *)
Definition unpadded : string → string := λ text, text.

(** The form filled in for the edge between B and A: one mode ticked,
    no route type ticked, the distance box left empty. *)
Definition road_form : Editor.edge_form :=
  {| Editor.edge_a_var := "B";
     Editor.edge_b_var := "A";
     Editor.edge_undirected_var := true;
     Editor.route_type_vars := λ _, false;
     Editor.distance_var := "";
     Editor.mode_vars := String.eqb "foot" |}.

Definition road_saved : GraphData.t :=
  (Editor.save_edge unpadded no_literal road_form false edited).1.

Lemma road_form_saved :
  Editor.save_edge unpadded no_literal road_form false edited
    = (road_saved, Ok (Editor.SavedEdge "B" "A")).
Proof.
  unfold road_saved.
  destruct (Editor.save_edge unpadded no_literal road_form false edited)
    as [g shown] eqn:Hsave.
  assert (Hshown : (Editor.save_edge unpadded no_literal road_form false edited).2
                     = Ok (Editor.SavedEdge "B" "A")) by (vm_compute; reflexivity).
  rewrite Hsave in Hshown. simpl in Hshown. by rewrite Hshown.
Qed.

Lemma road_existing :
  Editor.existing_attrs edited "B" "A" = Ok {[ "route_type" := VStr "road" ]}.
Proof. vm_compute. reflexivity. Qed.


(** ** The edge form on an empty graph *)

(** The form of a road between A and B, the distance box left empty. *)
Definition first_form : Editor.edge_form :=
  {| Editor.edge_a_var := "A";
     Editor.edge_b_var := "B";
     Editor.edge_undirected_var := true;
     Editor.route_type_vars := String.eqb "road";
     Editor.distance_var := "";
     Editor.mode_vars := String.eqb "foot" |}.

(** The graph after the form is saved, the nodes being created. *)
Definition drafted : GraphData.t :=
  (Editor.save_edge unpadded no_literal first_form true GraphData.empty).1.

Lemma drafted_edited : form_edited unpadded no_literal drafted.
Proof. apply form_edited_save_edge. constructor. Qed.


(** ** Two points on the map *)

(** The length of an offset along one axis: what [math.hypot] returns
    when one of its arguments is zero. *)
Definition along_axis : Q → Q → Q := λ dx dy, (Qabs dx + Qabs dy)%Q.

(** A at the origin and B three pixels to the right, two kilometres to
    the pixel. *)
Definition two_points : GraphState.t :=
  GraphState.add_node
    (GraphState.add_node
       {| GraphState.nodes := ∅; GraphState.edges := ∅; GraphState.scale := 2 |}
       "A" 0 0)
    "B" 3 0.

Definition two_points_joined : GraphState.t :=
  match MapBuilder.upsert_edge along_axis two_points "B" "A" with
  | Ok (g, _) => g
  | Raise _ => two_points
  end.

Lemma two_points_drawn : drawn along_axis no_literal two_points_joined.
Proof.
  assert (H : returned (MapBuilder.upsert_edge along_axis two_points "B" "A") = true)
    by (vm_compute; reflexivity).
  unfold two_points_joined.
  destruct (MapBuilder.upsert_edge along_axis two_points "B" "A")
    as [[g e]|] eqn:Hjoin; [|done].
  eapply drawn_upsert_edge; [|exact Hjoin].
  do 2 apply drawn_add_node. constructor.
Qed.

Definition road_on_map : GraphState.Edge :=
  {| GraphState.a := "A"; GraphState.b := "B";
     GraphState.pixel_distance := along_axis (0 - 3) (0 - 0);
     GraphState.distance := along_axis (0 - 3) (0 - 0) * 2 |}.

Lemma two_points_road :
  GraphState.edges two_points_joined !! ("A", "B") = Some road_on_map.
Proof. vm_compute. reflexivity. Qed.

Lemma map_edges_closed_witness :
  drawn along_axis no_literal two_points_joined ∧
  GraphState.edges two_points_joined !! ("A", "B") = Some road_on_map ∧
  "A" ∈ dom (GraphState.nodes two_points_joined) ∧
  "B" ∈ dom (GraphState.nodes two_points_joined).
Proof.
  split; [apply two_points_drawn|]. split; [apply two_points_road|].
  destruct (map_edges_closed along_axis no_literal two_points_joined ("A", "B")
              road_on_map two_points_drawn two_points_road) as (Ha & Hb & _).
  split; [exact Ha | exact Hb].
Defined.

Lemma recalc_edges_refreshes_witness :
  drawn along_axis no_literal two_points_joined ∧
  ∃ g, MapBuilder.recalc_edges along_axis two_points_joined = Ok g ∧
       GraphState.nodes g = GraphState.nodes two_points_joined.
Proof.
  split; [apply two_points_drawn|].
  destruct (recalc_edges_refreshes along_axis no_literal two_points_joined
              two_points_drawn) as (g & Hg & Hnodes & _).
  exists g. split; [exact Hg | exact Hnodes].
Defined.

(** The two towns with a position each. *)
Definition two_towns_placed : document :=
  {| doc_nodes := [ {[ "id" := VStr "A"; "pos_px" := VList [VNum 0; VNum 0] ]};
                    {[ "id" := VStr "B"; "pos_px" := VList [VNum 3; VNum 0] ]} ];
     doc_edges := [ {[ "nodes" := VList [VStr "A"; VStr "B"] ]};
                    {[ "source" := VStr "A"; "target" := VStr "B" ]} ] |}.

Lemma two_towns_placed_nodes :
  Forall (placed no_literal) (doc_nodes two_towns_placed).
Proof.
  repeat constructor.
  - exists "A", 0%Q, 0%Q. split_and!; vm_compute; reflexivity.
  - exists "B", 3%Q, 0%Q. split_and!; vm_compute; reflexivity.
Qed.

Lemma two_towns_placed_edges : Forall joining (doc_edges two_towns_placed).
Proof.
  repeat constructor; intros v Hv.
  - exists "A", "B". vm_compute in Hv. congruence.
  - vm_compute in Hv. discriminate.
Qed.

Lemma from_json_connects_witness :
  Forall (placed no_literal) (doc_nodes two_towns_placed) ∧
  Forall joining (doc_edges two_towns_placed) ∧
  ∃ g, MapBuilder.from_json along_axis no_literal two_towns_placed 2 = inr g ∧
       GraphState.scale g = 2%Q.
Proof.
  split; [apply two_towns_placed_nodes|]. split; [apply two_towns_placed_edges|].
  destruct (from_json_connects along_axis no_literal two_towns_placed 2
              two_towns_placed_nodes two_towns_placed_edges) as (g & Hg & Hscale & _).
  exists g. split; [exact Hg | exact Hscale].
Defined.
